(** * DistroCache: the cache engine of [cmd/cache-server/main.go]

    A shallow embedding of the engine ([CacheItem], [DistroCache] and the
    methods [Get], [Set], [Delete], [InvalidateByTag], [addToTagIndex],
    [removeFromTagIndex], [evictLRU], [cleanup], and the TTL computation of
    [handleSet]), followed by the properties of the specification.  The
    method [Set] is named [Set_] here, [Set] being a sort of Rocq.

    The development also covers the rest of the server ([GetStats],
    [startCleanup], the HTTP handlers as functions from a decoded request
    to a response, [hashKey] and [shouldOwnKey]) and two parts of the load
    tester ([printResults] and the request selection of
    [MixedWorkloadTest]), with further properties of the engine.

    Modelling conventions.
    - Go maps are [gmap]s.  The order of a [range] over a map is not fixed
      by the language, so every function that ranges over [dc.data] takes
      the order of the visit as an argument; theorems hold for every order
      that enumerates the keys of the map.
    - [time.Time] values are clock readings in nanoseconds (every time the
      engine stores comes from [time.Now()]); each call of [time.Now()] or
      [time.Since] is an explicit argument of the function that makes it.
    - [time.Duration], [int64] and [int] are 64-bit integers: [Z] with the
      wrap-around written out where the code does arithmetic on them.
    - Prometheus counters and the gauge are natural numbers (the values the
      engine gives them are integers).
    - [sha256.Sum256] is a parameter of the ownership functions; the other
      library functions they call ([hex.EncodeToString],
      [strings.HasPrefix]) are written out.
    - Of the numbers that [printResults] prints, those computed in floating
      point (rates and percentages) are left out.
    - [[]string] buckets of the tag index are lists.  The one place where a
      second slice header over a bucket's backing array is alive while the
      bucket is modified in place is the loop of [InvalidateByTag]; there
      the backing array is modelled explicitly. *)

From Stdlib Require Import ZArith Lia.
From stdpp Require Import gmap strings list fin_maps.

(** ** Machine integers *)

(** Two's complement reduction of an integer to [int64]. *)
Definition wrap64 (z : Z) : Z := ((z + 2 ^ 63) mod 2 ^ 64 - 2 ^ 63)%Z.

Definition max_int64 : Z := (2 ^ 63 - 1)%Z.
Definition min_int64 : Z := (- 2 ^ 63)%Z.

(** [time.Second] as a [time.Duration]. *)
Definition Second : Z := 1000000000%Z.

(** [time.Since(t)] at clock reading [now].  Both readings carry the
    monotonic clock, so the result is their difference. *)
Definition time_Since (now t : Z) : Z := (now - t)%Z.

(** [t.Before(u)]. *)
Definition time_Before (t u : Z) : bool := (t <? u)%Z.

(** ** Data model *)

(** [CacheItem].  [V] is the type of the opaque [interface{}] payload. *)
Record CacheItem (V : Type) := mkCacheItem {
  Key : string;
  Value : V;
  TTL : Z;
  CreatedAt : Z;
  AccessedAt : Z;
  AccessCount : Z;
  Tags : list string;
  Metadata : gmap string V
}.
Arguments mkCacheItem {V}.
Arguments Key {V}.
Arguments Value {V}.
Arguments TTL {V}.
Arguments CreatedAt {V}.
Arguments AccessedAt {V}.
Arguments AccessCount {V}.
Arguments Tags {V}.
Arguments Metadata {V}.

(** [CacheConfig]. *)
Record CacheConfig := mkCacheConfig {
  MaxSize : Z;
  DefaultTTL : Z;
  CleanupInterval : Z;
  Port : Z;
  NodeID : string;
  ReplicationFactor : Z
}.

(** [CacheStats]: the five counters, the items gauge, and the number of
    samples given to the access-time histogram. *)
Record CacheStats := mkCacheStats {
  Hits : nat;
  Misses : nat;
  Sets : nat;
  Deletes : nat;
  Evictions : nat;
  TotalItems : nat;
  AvgAccessTime : nat
}.

(** [DistroCache]: the store, the tag index, the metrics and the
    configuration (the lock and the unused replica list are left out). *)
Record DistroCache (V : Type) := mkDistroCache {
  data : gmap string (CacheItem V);
  tagIndex : gmap string (list string);
  stats : CacheStats;
  config : CacheConfig
}.
Arguments mkDistroCache {V}.
Arguments data {V}.
Arguments tagIndex {V}.
Arguments stats {V}.
Arguments config {V}.

(** A goroutine started with [go]; the engine starts only [go dc.Delete(key)]. *)
Inductive goroutine := GoDelete (key : string).

(** ** Metric updates *)

Definition Hits_Inc (s : CacheStats) : CacheStats :=
  mkCacheStats (S (Hits s)) (Misses s) (Sets s) (Deletes s) (Evictions s)
    (TotalItems s) (AvgAccessTime s).
Definition Misses_Inc (s : CacheStats) : CacheStats :=
  mkCacheStats (Hits s) (S (Misses s)) (Sets s) (Deletes s) (Evictions s)
    (TotalItems s) (AvgAccessTime s).
Definition Sets_Inc (s : CacheStats) : CacheStats :=
  mkCacheStats (Hits s) (Misses s) (S (Sets s)) (Deletes s) (Evictions s)
    (TotalItems s) (AvgAccessTime s).
Definition Deletes_Inc (s : CacheStats) : CacheStats :=
  mkCacheStats (Hits s) (Misses s) (Sets s) (S (Deletes s)) (Evictions s)
    (TotalItems s) (AvgAccessTime s).
Definition Evictions_Inc (s : CacheStats) : CacheStats :=
  mkCacheStats (Hits s) (Misses s) (Sets s) (Deletes s) (S (Evictions s))
    (TotalItems s) (AvgAccessTime s).
Definition TotalItems_Set (n : nat) (s : CacheStats) : CacheStats :=
  mkCacheStats (Hits s) (Misses s) (Sets s) (Deletes s) (Evictions s)
    n (AvgAccessTime s).
Definition AvgAccessTime_Observe (s : CacheStats) : CacheStats :=
  mkCacheStats (Hits s) (Misses s) (Sets s) (Deletes s) (Evictions s)
    (TotalItems s) (S (AvgAccessTime s)).

(** ** Slices of keys *)

(** The inner loop of [removeFromTagIndex]: the first index [i] with
    [keys[i] == key], where the loop breaks. *)
Fixpoint index_of (key : string) (keys : list string) : option nat :=
  match keys with
  | [] => None
  | k :: ks => if decide (k = key) then Some 0 else S <$> index_of key ks
  end.

(** The slice that [append(keys[:i], keys[i+1:]...)] returns. *)
Definition slice_delete (i : nat) (keys : list string) : list string :=
  take i keys ++ drop (S i) keys.

(** What the same [append] does to the backing array.  [keys[:i]] keeps
    the capacity of [keys], so the append copies [keys[i+1:]] one cell to
    the left inside the array and allocates nothing.  [cells] are the
    cells of the array seen through a header at least as long as the
    slice, [m] is the length of the slice: cells [i .. m-2] receive the
    contents of cells [i+1 .. m-1], every other cell keeps its contents. *)
Definition cells_delete (i m : nat) (cells : list string) : list string :=
  take i cells ++ take (m - S i) (drop (S i) cells) ++ drop (m - 1) cells.

Section Engine.
Context {V : Type}.

Implicit Types (dc : DistroCache V) (item : CacheItem V).
Implicit Types (key tag : string) (tags keys order : list string).
Implicit Types (idx : gmap string (list string)).

(** [NewDistroCache]: empty store and tag index, all metrics at zero. *)
Definition NewDistroCache (cfg : CacheConfig) : DistroCache V :=
  mkDistroCache ∅ ∅ (mkCacheStats 0 0 0 0 0 0 0) cfg.

(** ** Expiry *)

(** [IsExpired], with the reading of the clock taken by [time.Since]. *)
Definition IsExpired (now : Z) item : bool :=
  if (TTL item =? 0)%Z then false
  else (time_Since now (CreatedAt item) >? TTL item)%Z.

(** ** Tag index *)

(** [dc.tagIndex[tag]]: the bucket of a tag, [nil] when the tag is absent. *)
Definition bucket idx tag : list string := default [] (idx !! tag).

(** [addToTagIndex]. *)
Definition addToTagIndex key tags idx : gmap string (list string) :=
  fold_left (fun idx tag => <[tag := bucket idx tag ++ [key]]> idx) tags idx.

(** One round of the outer loop of [removeFromTagIndex]. *)
Definition removeFromTag key idx tag : gmap string (list string) :=
  let keys := bucket idx tag in
  let idx1 :=
    match index_of key keys with
    | Some i => <[tag := slice_delete i keys]> idx
    | None => idx
    end in
  if decide (length (bucket idx1 tag) = 0) then delete tag idx1 else idx1.

(** [removeFromTagIndex]. *)
Definition removeFromTagIndex key tags idx : gmap string (list string) :=
  fold_left (removeFromTag key) tags idx.

(** [removeFromTagIndex] as it runs inside the loop of [InvalidateByTag],
    where the loop's slice [keys] shares its backing array with the bucket
    of [ranged]: next to the tag index the function returns the cells of
    that array.  A removal from the bucket of [ranged] moves cells of the
    array; the bucket is a prefix of the array for as long as it is in the
    map.  Removals from other buckets work on other arrays. *)
Definition removeFromTagIndex_shared (ranged : string) key tags
    (st : gmap string (list string) * list string)
    : gmap string (list string) * list string :=
  fold_left
    (fun '(idx, cells) tag =>
       let keys := bucket idx tag in
       let cells1 :=
         if decide (tag = ranged) then
           match index_of key keys with
           | Some i => cells_delete i (length keys) cells
           | None => cells
           end
         else cells in
       (removeFromTag key idx tag, cells1))
    tags st.

(** ** Eviction *)

(** The scan of [evictLRU] over [dc.data], visited in [order]: the pair
    [(oldestKey, oldestTime)] after the loop. *)
Definition oldest_scan (d : gmap string (CacheItem V)) order
    (acc : string * Z) : string * Z :=
  fold_left
    (fun '(oldestKey, oldestTime) key =>
       match d !! key with
       | Some item =>
           if bool_decide (oldestKey = EmptyString)
              || time_Before (AccessedAt item) oldestTime
           then (key, AccessedAt item)
           else (oldestKey, oldestTime)
       | None => (oldestKey, oldestTime)
       end)
    order acc.

(** [evictLRU].  The zero [time.Time] that [oldestTime] starts with is
    never compared ([oldestKey] is the empty string at the first visit). *)
Definition evictLRU order dc : DistroCache V :=
  let oldestKey := fst (oldest_scan (data dc) order (EmptyString, 0%Z)) in
  if decide (oldestKey <> EmptyString) then
    let idx :=
      match data dc !! oldestKey with
      | Some item => removeFromTagIndex oldestKey (Tags item) (tagIndex dc)
      | None => tagIndex dc
      end in
    mkDistroCache (delete oldestKey (data dc)) idx
      (Evictions_Inc (stats dc)) (config dc)
  else dc.

(** ** Engine operations *)

(** [Get].  [now_expiry] is the clock reading of the expiry check,
    [now_access] the one stored in [AccessedAt].  The result is the
    returned pair ([None] for [nil, false]), the cache afterwards, and the
    goroutines started.  The returned item is the pointer held by the
    store, so it is the updated item. *)
Definition Get (now_expiry now_access : Z) key dc
    : option (CacheItem V) * DistroCache V * list goroutine :=
  let observe s := AvgAccessTime_Observe s in
  match data dc !! key with
  | None =>
      (None,
       mkDistroCache (data dc) (tagIndex dc)
         (observe (Misses_Inc (stats dc))) (config dc),
       [])
  | Some item =>
      if IsExpired now_expiry item then
        (None,
         mkDistroCache (data dc) (tagIndex dc)
           (observe (Misses_Inc (stats dc))) (config dc),
         [GoDelete key])
      else
        let item' :=
          mkCacheItem (Key item) (Value item) (TTL item) (CreatedAt item)
            now_access (wrap64 (AccessCount item + 1)) (Tags item)
            (Metadata item) in
        (Some item',
         mkDistroCache (<[key := item']> (data dc)) (tagIndex dc)
           (observe (Hits_Inc (stats dc))) (config dc),
         [])
  end.

(** [Set].  [order] is the order in which [evictLRU] visits the store,
    [now_created] and [now_accessed] the two readings of the clock. *)
Definition Set_ (order : list string) (now_created now_accessed : Z)
    key (value : V) (ttl : Z) tags dc : DistroCache V :=
  let dc1 :=
    if (Z.of_nat (size (data dc)) >=? MaxSize (config dc))%Z
    then evictLRU order dc else dc in
  let idx1 :=
    match data dc1 !! key with
    | Some oldItem => removeFromTagIndex key (Tags oldItem) (tagIndex dc1)
    | None => tagIndex dc1
    end in
  let item :=
    mkCacheItem key value ttl now_created now_accessed 1%Z tags ∅ in
  let d := <[key := item]> (data dc1) in
  mkDistroCache d (addToTagIndex key tags idx1)
    (TotalItems_Set (size d) (Sets_Inc (stats dc1))) (config dc1).

(** [Delete]. *)
Definition Delete key dc : bool * DistroCache V :=
  match data dc !! key with
  | None => (false, dc)
  | Some item =>
      let d := delete key (data dc) in
      (true,
       mkDistroCache d (removeFromTagIndex key (Tags item) (tagIndex dc))
         (TotalItems_Set (size d) (Deletes_Inc (stats dc))) (config dc))
  end.

(** The state of the loop of [InvalidateByTag]. *)
Record inval_loop := mkInvalLoop {
  il_data : gmap string (CacheItem V);
  il_index : gmap string (list string);
  il_cells : list string;
  il_deleted : nat
}.

(** One iteration of [for _, key := range keys]: [key] is read from cell
    [i] of the backing array of [keys] at the time of the iteration. *)
Definition inval_step (tag : string) (st : inval_loop) (i : nat) : inval_loop :=
  match il_cells st !! i with
  | None => st
  | Some key =>
      match il_data st !! key with
      | Some item =>
          let '(idx, cells) :=
            removeFromTagIndex_shared tag key (Tags item)
              (il_index st, il_cells st) in
          mkInvalLoop (delete key (il_data st)) idx cells (S (il_deleted st))
      | None => st
      end
  end.

(** [InvalidateByTag].  The range expression [keys] is evaluated once: the
    loop runs [len(keys)] times over the backing array that [keys] shares
    with [dc.tagIndex[tag]]. *)
Definition InvalidateByTag tag dc : nat * DistroCache V :=
  match tagIndex dc !! tag with
  | None => (0, dc)
  | Some keys =>
      let st :=
        fold_left (inval_step tag) (seq 0 (length keys))
          (mkInvalLoop (data dc) (tagIndex dc) keys 0) in
      (il_deleted st,
       mkDistroCache (il_data st) (delete tag (il_index st))
         (TotalItems_Set (size (il_data st)) (stats dc)) (config dc))
  end.

(** [cleanup].  [visits] lists the keys in the order the range loop
    produces them, each with the clock reading of its expiry check.
    Only the entry being visited is deleted during the loop. *)
Definition cleanup (visits : list (string * Z)) dc : DistroCache V :=
  let '(d, idx) :=
    fold_left
      (fun '(d, idx) '(key, now) =>
         match d !! key with
         | Some item =>
             if IsExpired now item
             then (delete key d, removeFromTagIndex key (Tags item) idx)
             else (d, idx)
         | None => (d, idx)
         end)
      visits (data dc, tagIndex dc) in
  mkDistroCache d idx (TotalItems_Set (size d) (stats dc)) (config dc).

(** Running a started goroutine to completion. *)
Definition run_goroutine (g : goroutine) dc : DistroCache V :=
  match g with GoDelete key => snd (Delete key dc) end.

(** The TTL that [handleSet] passes to [Set] for the request field
    [req.TTL]: [time.Duration(req.TTL) * time.Second], replaced by the
    default when the field is zero. *)
Definition handleSet_ttl (req_TTL : Z) (cfg : CacheConfig) : Z :=
  let ttl := wrap64 (req_TTL * Second) in
  if (req_TTL =? 0)%Z then DefaultTTL cfg else ttl.

End Engine.

(** ** Counting in lists of keys and tags *)

(** Number of occurrences of [x] in [l]. *)
Fixpoint occ (x : string) (l : list string) : nat :=
  match l with
  | [] => 0
  | y :: l' => (if decide (y = x) then 1 else 0) + occ x l'
  end.

(** What the inner loop of [removeFromTagIndex] leaves of a bucket. *)
Definition remove_first (key : string) (keys : list string) : list string :=
  match index_of key keys with
  | Some i => slice_delete i keys
  | None => keys
  end.


(** No tag of the index has an empty bucket. *)
Definition no_empty_bucket (idx : gmap string (list string)) : Prop :=
  forall t, idx !! t <> Some [].

(** In the loop of [InvalidateByTag]: the backing array has [n] cells and
    the bucket of the ranged tag is the prefix of the array of the bucket's
    length. *)
Definition shared_prefix (ranged : string) (n : nat)
    (st : gmap string (list string) * list string) : Prop :=
  length st.2 = n
  /\ bucket st.1 ranged = take (length (bucket st.1 ranged)) st.2.

Section Invariants.
Context {V : Type}.

(** The tags of the entry stored under [k]; none when [k] is absent. *)
Definition tags_of (d : gmap string (CacheItem V)) (k : string) : list string :=
  from_option Tags [] (d !! k).

(** Every entry is stored under its own key. *)
Definition keys_agree (d : gmap string (CacheItem V)) : Prop :=
  map_Forall (fun k e => Key e = k) d.

(** The tag index holds a key no more often in the bucket of a tag than
    the entry stored under the key lists the tag. *)
Definition index_sound (d : gmap string (CacheItem V))
    (idx : gmap string (list string)) : Prop :=
  forall t k, occ k (bucket idx t) <= occ t (tags_of d k).

(** The tag index holds a key exactly as often in the bucket of a tag as
    the entry stored under the key lists the tag. *)
Definition index_exact (d : gmap string (CacheItem V))
    (idx : gmap string (list string)) : Prop :=
  forall t k, occ k (bucket idx t) = occ t (tags_of d k).

(** The three parts of the consistency invariant: every tag of a stored
    entry has the entry's key in its bucket; every key in a bucket of the
    tag index is the key of a stored entry that lists the tag; no bucket
    is empty ([no_empty_bucket]). *)
Definition store_indexed (d : gmap string (CacheItem V))
    (idx : gmap string (list string)) : Prop :=
  forall k e t, d !! k = Some e -> t ∈ Tags e -> Key e ∈ bucket idx t.

Definition index_live (d : gmap string (CacheItem V))
    (idx : gmap string (list string)) : Prop :=
  forall t k, k ∈ bucket idx t ->
    exists e, d !! k = Some e /\ Key e = k /\ t ∈ Tags e.

Definition consistent (dc : DistroCache V) : Prop :=
  store_indexed (data dc) (tagIndex dc)
  /\ index_live (data dc) (tagIndex dc)
  /\ no_empty_bucket (tagIndex dc).

(** The invariant that the operations maintain step by step. *)
Definition coherent (dc : DistroCache V) : Prop :=
  index_exact (data dc) (tagIndex dc)
  /\ no_empty_bucket (tagIndex dc)
  /\ keys_agree (data dc).

(** [order] is an order in which a range loop can visit the store [d]. *)
Definition range_order (d : gmap string (CacheItem V)) (order : list string)
    : Prop :=
  order ≡ₚ (map_to_list d).*1.

(** The operations that change the engine: the four requests, a sweep,
    and the run of a goroutine that a [Get] has started. *)
Inductive operation :=
  | OpGet (now_expiry now_access : Z) (key : string)
  | OpSet (order : list string) (now_created now_accessed : Z) (key : string)
      (value : V) (ttl : Z) (tags : list string)
  | OpDelete (key : string)
  | OpInvalidateByTag (tag : string)
  | OpCleanup (visits : list (string * Z))
  | OpGo (g : goroutine).

Definition run_operation (op : operation) (dc : DistroCache V)
    : DistroCache V :=
  match op with
  | OpGet now_expiry now_access key => (Get now_expiry now_access key dc).1.2
  | OpSet order now_created now_accessed key value ttl tags =>
      Set_ order now_created now_accessed key value ttl tags dc
  | OpDelete key => (Delete key dc).2
  | OpInvalidateByTag tag => (InvalidateByTag tag dc).2
  | OpCleanup visits => cleanup visits dc
  | OpGo g => run_goroutine g dc
  end.

(** The caches that a run of the engine can be in. *)
Inductive reachable : DistroCache V -> Prop :=
  | reachable_new cfg : reachable (NewDistroCache cfg)
  | reachable_step op dc : reachable dc -> reachable (run_operation op dc).

End Invariants.
Arguments operation : clear implicits.

(** ** Example states *)

Definition ex_config (max_size : Z) : CacheConfig :=
  mkCacheConfig max_size 300000000000 60000000000 8080 "node-1" 2.

Definition ex_empty (max_size : Z) : DistroCache string :=
  NewDistroCache (ex_config max_size).

(** Three entries with the tag ["t"], set at clock readings 1, 2, 3. *)
Definition ex_three : DistroCache string :=
  Set_ [] 3 3 "k3" "v3" 0 ["t"]
    (Set_ [] 2 2 "k2" "v2" 0 ["t"]
       (Set_ [] 1 1 "k1" "v1" 0 ["t"] (ex_empty 10))).

(** A full cache of capacity two. *)
Definition ex_full : DistroCache string :=
  Set_ [] 2 2 "b" "vb" 0 ["y"] (Set_ [] 1 1 "a" "va" 0 ["x"] (ex_empty 2)).

(** A full cache of capacity one whose entry has the empty key. *)
Definition ex_empty_key : DistroCache string :=
  Set_ [] 1 1 EmptyString "v" 0 [] (ex_empty 1).

(** An entry with a TTL of one second, set at clock reading 0. *)
Definition ex_ttl : DistroCache string :=
  Set_ [] 0 0 "k" "v" Second ["t"] (ex_empty 10).

(** An entry that never expires (TTL zero), set at clock reading 0. *)
Definition ex_forever : DistroCache string :=
  Set_ [] 0 0 "k" "v" 0 ["t"] (ex_empty 10).


(** As [ex_three], but ["k2"] lists the tag twice. *)
Definition ex_dup : DistroCache string :=
  Set_ [] 3 3 "k3" "v3" 0 ["t"]
    (Set_ [] 2 2 "k2" "v2" 0 ["t"; "t"]
       (Set_ [] 1 1 "k1" "v1" 0 ["t"] (ex_empty 10))).

(** ** The rest of the server: statistics, sweeper, handlers *)

(** What [InvalidateByTag] removes from a bucket [keys] of distinct keys:
    the keys at the even positions, and the last key. *)
Fixpoint invalidated (keys : list string) : list string :=
  match keys with
  | [] => []
  | x :: rest =>
      x :: match rest with
           | [] => []
           | y :: rest' =>
               match rest' with
               | [] => [y]
               | _ :: _ => invalidated rest'
               end
           end
  end.

(** The map that [GetStats] returns; the uptime is kept as the duration
    whose text the code puts into the map. *)
Record Stats := mkStats {
  total_items : nat;
  total_tags : nat;
  node_id : string;
  uptime : Z
}.

(** The request body of [handleSet] after decoding. *)
Record SetRequest (V : Type) := mkSetRequest {
  req_Value : V;
  req_TTL : Z;
  req_Tags : list string
}.
Arguments mkSetRequest {V}.
Arguments req_Value {V}.
Arguments req_TTL {V}.
Arguments req_Tags {V}.

(** What a handler writes: the text of [http.Error], or the value given
    to the JSON encoder. *)
Inductive Body (V : Type) :=
  | BodyError (msg : string)
  | BodyItem (item : CacheItem V)
  | BodySuccess
  | BodyDeleted (deleted : nat)
  | BodyStats (s : Stats)
  | BodyHealth (status version node : string).
Arguments BodyError {V}.
Arguments BodyItem {V}.
Arguments BodySuccess {V}.
Arguments BodyDeleted {V}.
Arguments BodyStats {V}.
Arguments BodyHealth {V}.

Record Response (V : Type) := mkResponse {
  StatusCode : nat;
  ResponseBody : Body V
}.
Arguments mkResponse {V}.
Arguments StatusCode {V}.
Arguments ResponseBody {V}.

Definition StatusOK : nat := 200.
Definition StatusBadRequest : nat := 400.
Definition StatusNotFound : nat := 404.

Section Server.
Context {V : Type}.

Implicit Types (dc : DistroCache V).

(** [GetStats].  [now] is the reading of [time.Now()], [now_since] the
    reading that [time.Since] takes right after it. *)
Definition GetStats (now now_since : Z) dc : Stats :=
  mkStats (size (data dc)) (size (tagIndex dc)) (NodeID (config dc))
    (time_Since now_since now).

(** [startCleanup] after the ticks in [ticks] (the loop itself runs for as
    long as the ticker does): one [cleanup] per tick, each with its visits. *)
Definition startCleanup (ticks : list (list (string * Z))) dc : DistroCache V :=
  fold_left (fun dc visits => cleanup visits dc) ticks dc.

(** A sequence of operations, run one after the other. *)
Definition run_operations (ops : list (operation V)) dc : DistroCache V :=
  fold_left (fun dc op => run_operation op dc) ops dc.

(** The number of operations of a kind in a sequence. *)
Definition is_OpGet (op : operation V) : bool :=
  match op with OpGet _ _ _ => true | _ => false end.
Definition is_OpSet (op : operation V) : bool :=
  match op with OpSet _ _ _ _ _ _ _ => true | _ => false end.
Definition is_Delete_run (op : operation V) : bool :=
  match op with OpDelete _ | OpGo (GoDelete _) => true | _ => false end.
Definition is_OpInvalidateByTag (op : operation V) : bool :=
  match op with OpInvalidateByTag _ => true | _ => false end.
Definition count_ops (p : operation V -> bool) (ops : list (operation V))
    : nat :=
  length (List.filter p ops).

(** An [OpSet] whose scan order is a range order of the store it runs
    on and whose key is not empty, as the router provides it. *)
Definition routed (op : operation V) dc : Prop :=
  match op with
  | OpSet order _ _ key _ _ _ =>
      range_order (data dc) order /\ key <> EmptyString
  | _ => True
  end.

(** [handleGet], for the route variable [key]. *)
Definition handleGet (now_expiry now_access : Z) (key : string) dc
    : Response V * DistroCache V * list goroutine :=
  let '(result, dc', started) := Get now_expiry now_access key dc in
  match result with
  | None => (mkResponse StatusNotFound (BodyError "Key not found"), dc', started)
  | Some item => (mkResponse StatusOK (BodyItem item), dc', started)
  end.

(** [handleSet].  [decoded] is the request body as the JSON decoder gives
    it, [None] when the decoder returns an error. *)
Definition handleSet (order : list string) (now_created now_accessed : Z)
    (key : string) (decoded : option (SetRequest V)) dc
    : Response V * DistroCache V :=
  match decoded with
  | None => (mkResponse StatusBadRequest (BodyError "Invalid JSON"), dc)
  | Some req =>
      (mkResponse StatusOK BodySuccess,
       Set_ order now_created now_accessed key (req_Value req)
         (handleSet_ttl (req_TTL req) (config dc)) (req_Tags req) dc)
  end.

(** [handleDelete]. *)
Definition handleDelete (key : string) dc : Response V * DistroCache V :=
  let '(deleted, dc') := Delete key dc in
  if deleted then (mkResponse StatusOK BodySuccess, dc')
  else (mkResponse StatusNotFound (BodyError "Key not found"), dc').

(** [handleInvalidateTag]. *)
Definition handleInvalidateTag (tag : string) dc
    : Response V * DistroCache V :=
  let '(deleted, dc') := InvalidateByTag tag dc in
  (mkResponse StatusOK (BodyDeleted deleted), dc').

(** [handleStats]. *)
Definition handleStats (now now_since : Z) dc : Response V :=
  mkResponse StatusOK (BodyStats (GetStats now now_since dc)).

(** [handleHealth]. *)
Definition handleHealth dc : Response V :=
  mkResponse StatusOK (BodyHealth "healthy" "1.0.0" (NodeID (config dc))).

End Server.

(** ** Key ownership *)

(** [hex.EncodeToString]: two digits of [hextable] per byte, the high
    half first. *)
Definition hextable : string := "0123456789abcdef".

Definition hex_digit (n : N) : Ascii.ascii :=
  match String.get (N.to_nat n) hextable with
  | Some c => c
  | None => Ascii.zero
  end.

Fixpoint hex_EncodeToString (src : list Byte.byte) : string :=
  match src with
  | [] => EmptyString
  | v :: rest =>
      String (hex_digit (N.shiftr (Byte.to_N v) 4))
        (String (hex_digit (N.land (Byte.to_N v) 15))
           (hex_EncodeToString rest))
  end.

(** [strings.HasPrefix]. *)
Definition strings_HasPrefix (s prefix : string) : bool :=
  String.prefix prefix s.

Section Ownership.

(** [sha256.Sum256] on the bytes of a string: the digest. *)
Variable sha256_Sum256 : string -> list Byte.byte.

(** [hashKey]. *)
Definition hashKey (key : string) : string :=
  hex_EncodeToString (sha256_Sum256 key).

(** [shouldOwnKey]. *)
Definition shouldOwnKey (key : string) : bool :=
  let hash := hashKey key in
  strings_HasPrefix hash "0" || strings_HasPrefix hash "1"
  || strings_HasPrefix hash "2" || strings_HasPrefix hash "3".

End Ownership.

(** ** The load tester *)

Module LoadTester.

(** [TestResult]; [Error] is [None] for a nil error. *)
Record TestResult := mkTestResult {
  StatusCode : Z;
  Duration : Z;
  CacheStatus : string;
  Error : option string;
  RequestType : string
}.

(** The variables of the statistics loop of [printResults]. *)
Record ResultStats := mkResultStats {
  totalTime : Z;
  successCount : nat;
  errorCount : nat;
  cacheHits : nat;
  cacheMisses : nat;
  statusCodes : gmap Z nat;
  requestTypes : gmap string nat;
  minDuration : Z;
  maxDuration : Z;
  durations : list Z
}.

Definition initial_stats : ResultStats :=
  mkResultStats 0 0 0 0 0 ∅ ∅ 0 0 [].

(** [m[k]++] on a map of counters. *)
Definition increment `{Countable K} (k : K) (m : gmap K nat) : gmap K nat :=
  <[k := S (default 0 (m !! k))]> m.

(** The body of [for i, result := range lt.Results]. *)
Definition stats_step (i : nat) (result : TestResult) (s : ResultStats)
    : ResultStats :=
  let d := Duration result in
  let min0 := if Nat.eqb i 0 then d else minDuration s in
  let max0 := if Nat.eqb i 0 then d else maxDuration s in
  mkResultStats
    (wrap64 (totalTime s + d))
    (match Error result with
     | None => S (successCount s)
     | Some _ => successCount s
     end)
    (match Error result with
     | None => errorCount s
     | Some _ => S (errorCount s)
     end)
    (if decide (CacheStatus result = "HIT") then S (cacheHits s)
     else cacheHits s)
    (if decide (CacheStatus result = "HIT") then cacheMisses s
     else if decide (CacheStatus result = "MISS") then S (cacheMisses s)
     else cacheMisses s)
    (increment (StatusCode result) (statusCodes s))
    (increment (RequestType result) (requestTypes s))
    (if (d <? min0)%Z then d else min0)
    (if (d >? max0)%Z then d else max0)
    (durations s ++ [d]).

Fixpoint stats_loop (i : nat) (results : list TestResult) (s : ResultStats)
    : ResultStats :=
  match results with
  | [] => s
  | result :: rest => stats_loop (S i) rest (stats_step i result s)
  end.

(** The index [len(durations)*p/100] and the indexing with it; [None]
    stands for the panic of an index out of range. *)
Definition percentile_index (n p : Z) : Z := Z.quot (wrap64 (n * p)) 100.

Definition index_durations (ds : list Z) (i : Z) : option Z :=
  if (i <? 0)%Z then None else ds !! Z.to_nat i.

(** The numbers that [printResults] prints without floating point. *)
Record Summary := mkSummary {
  sum_stats : ResultStats;
  avgDuration : Z;
  p50 : Z;
  p95 : Z;
  p99 : Z
}.

Inductive Outcome :=
  | NoResults
  | Printed (s : Summary)
  | Panic.

(** [printResults]: what is printed, and [lt.Results] afterwards. *)
Definition printResults (results : list TestResult)
    : Outcome * list TestResult :=
  match results with
  | [] => (NoResults, results)
  | _ :: _ =>
      let s := stats_loop 0 results initial_stats in
      let n := Z.of_nat (length results) in
      let avg := Z.quot (totalTime s) n in
      let m := Z.of_nat (length (durations s)) in
      match index_durations (durations s) (percentile_index m 50),
            index_durations (durations s) (percentile_index m 95),
            index_durations (durations s) (percentile_index m 99) with
      | Some q50, Some q95, Some q99 =>
          (Printed (mkSummary s avg q50 q95 q99), [])
      | _, _, _ => (Panic, results)
      end
  end.

(** The requests of a worker of [MixedWorkloadTest]. *)
Inductive MixedRequest :=
  | GetUser (userID : Z)
  | GetProducts (category : string)
  | UpdateUser (userID : Z)
  | SetCacheValue (workerID requestCount ttl : Z) (tags : list string).

Definition categories : list string := ["Electronics"; "Sports"; "all"].

Definition index_strings (l : list string) (i : Z) : option string :=
  if (i <? 0)%Z then None else l !! Z.to_nat i.

(** The [switch requestCount % 10] of [MixedWorkloadTest]; [None] when no
    case applies or an index is out of range. *)
Definition mixed_request (workerID requestCount : Z) : option MixedRequest :=
  let r := Z.rem requestCount 10 in
  if decide (r = 0 \/ r = 1 \/ r = 2 \/ r = 3 \/ r = 4)%Z then
    Some (GetUser (Z.rem requestCount 5 + 1))
  else if decide (r = 5 \/ r = 6 \/ r = 7)%Z then
    GetProducts
      <$> index_strings categories
            (Z.rem requestCount (Z.of_nat (length categories)))
  else if decide (r = 8)%Z then
    Some (UpdateUser (Z.rem requestCount 5 + 1))
  else if decide (r = 9)%Z then
    Some (SetCacheValue workerID requestCount 30 ["mixed-test"])
  else None.

End LoadTester.

(** ** Example data for the ownership test and the load tester *)

(** The SHA-256 digest of the string ["a"]. *)
Definition ex_digest : list Byte.byte :=
  [Byte.xca; Byte.x97; Byte.x81; Byte.x12; Byte.xca; Byte.x1b; Byte.xbd;
   Byte.xca; Byte.xfa; Byte.xc2; Byte.x31; Byte.xb3; Byte.x9a; Byte.x23;
   Byte.xdc; Byte.x4d; Byte.xa7; Byte.x86; Byte.xef; Byte.xf8; Byte.x14;
   Byte.x7c; Byte.x4e; Byte.x72; Byte.xb9; Byte.x80; Byte.x77; Byte.x85;
   Byte.xaf; Byte.xee; Byte.x48; Byte.xbb].

(** Three results: a hit and a miss that succeeded, and a request that
    failed without a response (status code 0). *)
Definition ex_results : list LoadTester.TestResult :=
  [LoadTester.mkTestResult 200 3000000 "HIT" None "GET_USER";
   LoadTester.mkTestResult 200 9000000 "MISS" None "GET_USER";
   LoadTester.mkTestResult 0 5000000 EmptyString (Some "timeout")
     "UPDATE_USER"].

(** * Properties *)

(** ** Lists of keys *)

Lemma occ_app x l1 l2 : occ x (l1 ++ l2) = occ x l1 + occ x l2.
Proof. induction l1 as [|y l1 IH]; simpl; [done|]. rewrite IH. lia. Qed.

Lemma occ_pos x l : 0 < occ x l <-> x ∈ l.
Proof.
  induction l as [|y l IH]; simpl.
  - split; [lia|]. by intros ?%elem_of_nil.
  - rewrite elem_of_cons. case_decide; subst.
    + split; [by left | lia].
    + rewrite <- IH. split; [intros; right; lia | intros [?|?]; [congruence | lia]].
Qed.

Lemma occ_zero x l : occ x l = 0 <-> x ∉ l.
Proof. rewrite <- occ_pos. lia. Qed.

Lemma index_of_lookup key keys i :
  index_of key keys = Some i -> keys !! i = Some key.
Proof.
  revert i. induction keys as [|k ks IH]; intros i; simpl; [done|].
  case_decide; subst.
  - by intros [= <-].
  - destruct (index_of key ks) as [j|]; simpl; [|done].
    intros [= <-]. simpl. by apply IH.
Qed.

Lemma index_of_first key keys i j :
  index_of key keys = Some i -> j < i -> keys !! j <> Some key.
Proof.
  revert i j. induction keys as [|k ks IH]; intros i j; simpl; [done|].
  case_decide; subst.
  - intros [= <-]. lia.
  - destruct (index_of key ks) as [i'|] eqn:E; simpl; [|done].
    intros [= <-] Hj. destruct j as [|j]; simpl.
    + congruence.
    + apply (IH i'); [done | lia].
Qed.

Lemma index_of_None key keys : index_of key keys = None <-> key ∉ keys.
Proof.
  induction keys as [|k ks IH]; simpl.
  - split; [intros _; apply not_elem_of_nil | done].
  - rewrite not_elem_of_cons. case_decide; subst.
    + split; [done | intros [? _]; done].
    + destruct (index_of key ks); simpl.
      * split; [done | intros [_ Hn]]. by apply IH in Hn.
      * split; [intros _; split; [congruence | by apply IH] | done].
Qed.

Lemma remove_first_cons key k ks :
  remove_first key (k :: ks) =
  if decide (k = key) then ks else k :: remove_first key ks.
Proof.
  unfold remove_first. simpl. case_decide; [done|].
  destruct (index_of key ks); done.
Qed.

Lemma occ_remove_first x key keys :
  occ x (remove_first key keys) =
  if decide (x = key) then occ key keys - 1 else occ x keys.
Proof.
  induction keys as [|k ks IH].
  - simpl. by case_decide.
  - rewrite remove_first_cons. simpl.
    repeat case_decide; subst; simpl; try rewrite IH;
      repeat case_decide; try congruence; try lia.
Qed.

Lemma length_remove_first key keys :
  key ∈ keys -> S (length (remove_first key keys)) = length keys.
Proof.
  induction keys as [|k ks IH]; [by intros ?%elem_of_nil|].
  rewrite remove_first_cons. intros Hin. case_decide; [done|].
  simpl. f_equal. apply IH. apply elem_of_cons in Hin as [?|?]; [congruence|done].
Qed.

(** ** The tag index *)


Lemma bucket_lookup_Some idx t l : idx !! t = Some l -> bucket idx t = l.
Proof. unfold bucket. by intros ->. Qed.

Lemma bucket_lookup_None idx t : idx !! t = None -> bucket idx t = [].
Proof. unfold bucket. by intros ->. Qed.

Lemma bucket_insert idx tag l t :
  bucket (<[tag := l]> idx) t = if decide (t = tag) then l else bucket idx t.
Proof.
  unfold bucket. case_decide; subst.
  - by rewrite lookup_insert_eq.
  - by rewrite lookup_insert_ne.
Qed.

Lemma bucket_delete idx tag t :
  bucket (delete tag idx) t = if decide (t = tag) then [] else bucket idx t.
Proof.
  unfold bucket. case_decide; subst.
  - by rewrite lookup_delete_eq.
  - by rewrite lookup_delete_ne.
Qed.

Lemma lookup_removeFromTag key idx tag t :
  removeFromTag key idx tag !! t =
  if decide (t = tag) then
    match remove_first key (bucket idx tag) with
    | [] => None
    | l => Some l
    end
  else idx !! t.
Proof.
  unfold removeFromTag, remove_first.
  destruct (index_of key (bucket idx tag)) as [i|] eqn:Hi.
  - rewrite bucket_insert. destruct (decide (tag = tag)) as [_|?]; [|done].
    destruct (slice_delete i (bucket idx tag)) as [|k l] eqn:Hs; simpl.
    + case_decide; subst; [by rewrite lookup_delete_eq|].
      rewrite lookup_delete_ne by done. by rewrite lookup_insert_ne.
    + case_decide; subst; [by rewrite lookup_insert_eq|].
      by rewrite lookup_insert_ne.
  - destruct (bucket idx tag) as [|k l] eqn:Hb; simpl.
    + case_decide; subst; [by rewrite lookup_delete_eq|].
      by rewrite lookup_delete_ne.
    + case_decide; subst; [|done]. unfold bucket in Hb.
      destruct (idx !! tag); simpl in Hb; by subst.
Qed.

Lemma bucket_removeFromTag key idx tag t :
  bucket (removeFromTag key idx tag) t =
  if decide (t = tag) then remove_first key (bucket idx tag) else bucket idx t.
Proof.
  unfold bucket at 1. rewrite lookup_removeFromTag.
  case_decide; [|done]. by destruct (remove_first key (bucket idx tag)).
Qed.

Lemma removeFromTag_no_empty key idx tag :
  no_empty_bucket idx -> no_empty_bucket (removeFromTag key idx tag).
Proof.
  intros H t. rewrite lookup_removeFromTag. case_decide; [|apply H].
  by destruct (remove_first key (bucket idx tag)).
Qed.

Lemma removeFromTagIndex_cons key tag tags idx :
  removeFromTagIndex key (tag :: tags) idx =
  removeFromTagIndex key tags (removeFromTag key idx tag).
Proof. done. Qed.

Lemma removeFromTagIndex_no_empty key tags idx :
  no_empty_bucket idx -> no_empty_bucket (removeFromTagIndex key tags idx).
Proof.
  revert idx. induction tags as [|tag tags IH]; intros idx H; [done|].
  rewrite removeFromTagIndex_cons. by apply IH, removeFromTag_no_empty.
Qed.

(** After [removeFromTagIndex key tags], the bucket of [t] has lost one
    occurrence of [key] for each occurrence of [t] in [tags] (as far as it
    had any); occurrences of other keys stay. *)
Lemma occ_removeFromTagIndex x key tags idx t :
  occ x (bucket (removeFromTagIndex key tags idx) t) =
  if decide (x = key) then occ key (bucket idx t) - occ t tags
  else occ x (bucket idx t).
Proof.
  revert idx. induction tags as [|tag tags IH]; intros idx.
  - simpl. case_decide; subst; lia.
  - rewrite removeFromTagIndex_cons, IH, bucket_removeFromTag. simpl.
    repeat case_decide; subst; try congruence;
      rewrite ?occ_remove_first; repeat case_decide; try congruence; lia.
Qed.

(** The pruning of [removeFromTagIndex]: every tag it went through is
    absent from the index or has a bucket that is not empty. *)
Lemma removeFromTagIndex_pruned key tags idx t :
  t ∈ tags -> removeFromTagIndex key tags idx !! t <> Some [].
Proof.
  revert idx. induction tags as [|tag tags IH]; intros idx Hin.
  - by apply elem_of_nil in Hin.
  - rewrite removeFromTagIndex_cons.
    destruct (decide (t ∈ tags)) as [Ht|Ht]; [by apply IH|].
    apply elem_of_cons in Hin as [->|?]; [|done].
    assert (forall idx', idx' !! tag <> Some [] ->
              removeFromTagIndex key tags idx' !! tag <> Some []) as Hkeep.
    { clear -Ht. induction tags as [|t' tags IH]; intros idx' H; [done|].
      apply not_elem_of_cons in Ht as [Hne Ht].
      rewrite removeFromTagIndex_cons. apply IH; [done|].
      rewrite lookup_removeFromTag. by rewrite decide_False. }
    apply Hkeep. rewrite lookup_removeFromTag, decide_True by done.
    by destruct (remove_first key (bucket idx tag)).
Qed.

Lemma removeFromTagIndex_lookup_other key tags idx t :
  t ∉ tags -> removeFromTagIndex key tags idx !! t = idx !! t.
Proof.
  revert idx. induction tags as [|tag tags IH]; intros idx Hin; [done|].
  apply not_elem_of_cons in Hin as [Hne Hin].
  rewrite removeFromTagIndex_cons, IH by done.
  rewrite lookup_removeFromTag. by rewrite decide_False.
Qed.

Lemma addToTagIndex_cons key tag tags idx :
  addToTagIndex key (tag :: tags) idx =
  addToTagIndex key tags (<[tag := bucket idx tag ++ [key]]> idx).
Proof. done. Qed.

Lemma addToTagIndex_no_empty key tags idx :
  no_empty_bucket idx -> no_empty_bucket (addToTagIndex key tags idx).
Proof.
  revert idx. induction tags as [|tag tags IH]; intros idx H; [done|].
  rewrite addToTagIndex_cons. apply IH. intros t.
  destruct (decide (t = tag)) as [->|Hne].
  - rewrite lookup_insert_eq. by destruct (bucket idx tag).
  - rewrite lookup_insert_ne by done. apply H.
Qed.

(** After [addToTagIndex key tags], the bucket of [t] has gained one
    occurrence of [key] for each occurrence of [t] in [tags]. *)
Lemma occ_addToTagIndex x key tags idx t :
  occ x (bucket (addToTagIndex key tags idx) t) =
  occ x (bucket idx t) + (if decide (x = key) then occ t tags else 0).
Proof.
  revert idx. induction tags as [|tag tags IH]; intros idx.
  - simpl. case_decide; lia.
  - rewrite addToTagIndex_cons, IH, bucket_insert. simpl.
    repeat case_decide; subst; try congruence;
      rewrite ?occ_app; simpl; repeat case_decide; try congruence; lia.
Qed.

Lemma addToTagIndex_lookup_other key tags idx t :
  t ∉ tags -> addToTagIndex key tags idx !! t = idx !! t.
Proof.
  revert idx. induction tags as [|tag tags IH]; intros idx Hin; [done|].
  apply not_elem_of_cons in Hin as [Hne Hin].
  rewrite addToTagIndex_cons, IH by done. by rewrite lookup_insert_ne.
Qed.

Lemma addToTagIndex_is_Some key tags idx t :
  t ∈ tags -> is_Some (addToTagIndex key tags idx !! t).
Proof.
  revert idx. induction tags as [|tag tags IH]; intros idx Hin.
  - by apply elem_of_nil in Hin.
  - rewrite addToTagIndex_cons.
    destruct (decide (t ∈ tags)) as [Ht|Ht]; [by apply IH|].
    apply elem_of_cons in Hin as [->|?]; [|done].
    rewrite addToTagIndex_lookup_other by done.
    rewrite lookup_insert_eq. eauto.
Qed.

(** ** Expiry and [Get] *)

Section EngineProperties.
Context {V : Type}.

Implicit Types (dc : DistroCache V) (item : CacheItem V).
Implicit Types (d : gmap string (CacheItem V)).
Implicit Types (idx : gmap string (list string)).

Lemma IsExpired_true now item :
  IsExpired now item = true <->
  TTL item <> 0%Z /\ (now - CreatedAt item > TTL item)%Z.
Proof.
  unfold IsExpired, time_Since.
  destruct (Z.eqb_spec (TTL item) 0) as [E|E].
  - split; [done | intros [? _]; done].
  - rewrite Z.gtb_gt. split; [by intros ? | by intros [_ ?]].
Qed.

(** The fold of [cleanup] keeps every entry that is not expired at the
    clock readings of the sweep. *)
Lemma cleanup_loop_keeps (visits : list (string * Z)) d idx key item :
  d !! key = Some item ->
  (forall now, IsExpired now item = false) ->
  (fold_left
     (fun '(d, idx) '(key, now) =>
        match d !! key with
        | Some item =>
            if IsExpired now item
            then (delete key d, removeFromTagIndex key (Tags item) idx)
            else (d, idx)
        | None => (d, idx)
        end)
     visits (d, idx)).1 !! key = Some item.
Proof.
  intros Hk Hlive. revert d idx Hk.
  induction visits as [|[k now] visits IH]; intros d idx Hk; simpl; [done|].
  destruct (d !! k) as [e|] eqn:Hd; [|by apply IH].
  destruct (IsExpired now e) eqn:He; [|by apply IH].
  apply IH. rewrite lookup_delete_ne; [done|].
  intros ->. rewrite Hk in Hd. injection Hd as ->. by rewrite Hlive in He.
Qed.

Lemma cleanup_data (visits : list (string * Z)) dc :
  data (cleanup visits dc) =
  (fold_left
     (fun '(d, idx) '(key, now) =>
        match d !! key with
        | Some item =>
            if IsExpired now item
            then (delete key d, removeFromTagIndex key (Tags item) idx)
            else (d, idx)
        | None => (d, idx)
        end)
     visits (data dc, tagIndex dc)).1.
Proof. unfold cleanup. by destruct (fold_left _ _ _). Qed.

(** C7.  An entry is expired exactly when its TTL is not zero and the time
    since its creation exceeds the TTL.  An entry whose TTL is zero is
    never expired: a get of its key is a hit that starts no removal, and a
    sweep keeps it in the store. *)
Theorem IsExpired_spec now item :
  (IsExpired now item = true <->
     TTL item <> 0%Z /\ (now - CreatedAt item > TTL item)%Z)
  /\ (TTL item = 0%Z ->
      IsExpired now item = false
      /\ (forall now_access key dc,
            data dc !! key = Some item ->
            exists item',
              Get now now_access key dc =
                (Some item',
                 mkDistroCache (<[key := item']> (data dc)) (tagIndex dc)
                   (AvgAccessTime_Observe (Hits_Inc (stats dc))) (config dc),
                 []))
      /\ (forall visits key dc,
            data dc !! key = Some item ->
            data (cleanup visits dc) !! key = Some item)).
Proof.
  split; [apply IsExpired_true|]. intros Httl.
  assert (forall now', IsExpired now' item = false) as Hlive.
  { intros now'. unfold IsExpired. by rewrite Httl. }
  split; [apply Hlive|]. split.
  - intros now_access key dc Hk. unfold Get. rewrite Hk, Hlive. eauto.
  - intros visits key dc Hk. rewrite cleanup_data. by apply cleanup_loop_keeps.
Qed.


(** C6.  The three cases of [Get]: no entry, an expired entry, a live entry. *)
Theorem Get_spec now_expiry now_access key dc :
  let '(result, dc', started) := Get now_expiry now_access key dc in
  config dc' = config dc
  /\ tagIndex dc' = tagIndex dc
  /\ Sets (stats dc') = Sets (stats dc)
  /\ Deletes (stats dc') = Deletes (stats dc)
  /\ Evictions (stats dc') = Evictions (stats dc)
  /\ TotalItems (stats dc') = TotalItems (stats dc)
  /\ AvgAccessTime (stats dc') = S (AvgAccessTime (stats dc))
  /\ ((data dc !! key = None
       /\ result = None
       /\ Misses (stats dc') = S (Misses (stats dc))
       /\ Hits (stats dc') = Hits (stats dc)
       /\ data dc' = data dc
       /\ started = [])
      \/ (exists item,
            data dc !! key = Some item
            /\ IsExpired now_expiry item = true
            /\ result = None
            /\ Misses (stats dc') = S (Misses (stats dc))
            /\ Hits (stats dc') = Hits (stats dc)
            /\ data dc' = data dc
            /\ started = [GoDelete key]
            /\ data (fold_right run_goroutine dc' started) !! key = None)
      \/ (exists item item',
            data dc !! key = Some item
            /\ IsExpired now_expiry item = false
            /\ result = Some item'
            /\ AccessedAt item' = now_access
            /\ AccessCount item' = wrap64 (AccessCount item + 1)
            /\ ((min_int64 <= AccessCount item < max_int64)%Z ->
                AccessCount item' = (AccessCount item + 1)%Z)
            /\ Key item' = Key item
            /\ Value item' = Value item
            /\ TTL item' = TTL item
            /\ CreatedAt item' = CreatedAt item
            /\ Tags item' = Tags item
            /\ Metadata item' = Metadata item
            /\ Hits (stats dc') = S (Hits (stats dc))
            /\ Misses (stats dc') = Misses (stats dc)
            /\ data dc' = <[key := item']> (data dc)
            /\ started = [])).
Proof.
  unfold Get. destruct (data dc !! key) as [item|] eqn:Hk.
  - destruct (IsExpired now_expiry item) eqn:Hexp; simpl.
    + repeat (split; [done|]). right. left. exists item.
      repeat (split; [done|]). unfold Delete. simpl. rewrite Hk. simpl.
      apply lookup_delete_eq.
    + repeat (split; [done|]). right. right. eexists item, _.
      repeat (split; [done|]). split; [|done].
      intros Hrange. cbn [AccessCount].
      unfold wrap64, min_int64, max_int64 in *. rewrite Z.mod_small; lia.
  - simpl. repeat (split; [done|]). left. done.
Qed.

(** ** Removing an entry together with its tag associations *)

Lemma tags_of_lookup d k item : d !! k = Some item -> tags_of d k = Tags item.
Proof. unfold tags_of. by intros ->. Qed.

Lemma tags_of_delete d key k :
  tags_of (delete key d) k = if decide (k = key) then [] else tags_of d k.
Proof.
  unfold tags_of. case_decide; subst.
  - by rewrite lookup_delete_eq.
  - by rewrite lookup_delete_ne.
Qed.

Lemma tags_of_insert d key item k :
  tags_of (<[key := item]> d) k =
  if decide (k = key) then Tags item else tags_of d k.
Proof.
  unfold tags_of. case_decide; subst.
  - by rewrite lookup_insert_eq.
  - by rewrite lookup_insert_ne.
Qed.

Lemma index_exact_sound d idx : index_exact d idx -> index_sound d idx.
Proof. intros H t k. by rewrite H. Qed.

Lemma index_sound_remove d idx key item :
  d !! key = Some item -> index_sound d idx ->
  index_sound (delete key d) (removeFromTagIndex key (Tags item) idx).
Proof.
  intros Hk Hs t k. rewrite occ_removeFromTagIndex, tags_of_delete.
  specialize (Hs t k). case_decide; subst; [|done].
  rewrite (tags_of_lookup _ _ _ Hk) in Hs. simpl. lia.
Qed.

Lemma index_exact_remove d idx key item :
  d !! key = Some item -> index_exact d idx ->
  index_exact (delete key d) (removeFromTagIndex key (Tags item) idx).
Proof.
  intros Hk Hs t k. rewrite occ_removeFromTagIndex, tags_of_delete.
  specialize (Hs t k). case_decide; subst; [|done].
  rewrite (tags_of_lookup _ _ _ Hk) in Hs. simpl. lia.
Qed.

Lemma index_sound_absent d idx key t :
  index_sound d idx -> d !! key = None -> key ∉ bucket idx t.
Proof.
  intros Hs Hk. apply occ_zero. specialize (Hs t key).
  unfold tags_of in Hs. rewrite Hk in Hs. simpl in Hs. lia.
Qed.

Lemma keys_agree_delete d key : keys_agree d -> keys_agree (delete key d).
Proof. apply map_Forall_delete. Qed.

(** C9.  [Delete] of an absent key returns false and changes nothing.
    [Delete] of a present key returns true, takes the key out of the
    store, takes one occurrence of the key out of the bucket of every tag
    occurrence of the entry (so that no bucket holds the key afterwards),
    leaves no empty bucket behind, increments the deletes counter and
    sets the items gauge to the size of the store; a get of the key
    afterwards is a miss and a second delete returns false. *)
Theorem Delete_spec key dc :
  (data dc !! key = None -> Delete key dc = (false, dc))
  /\ (forall item,
        data dc !! key = Some item ->
        let dc' := (Delete key dc).2 in
        (Delete key dc).1 = true
        /\ data dc' = delete key (data dc)
        /\ size (data dc') + 1 = size (data dc)
        /\ (forall t,
              occ key (bucket (tagIndex dc') t) =
              occ key (bucket (tagIndex dc) t) - occ t (Tags item))
        /\ (forall t k, k <> key ->
              occ k (bucket (tagIndex dc') t) = occ k (bucket (tagIndex dc) t))
        /\ (forall t, t ∉ Tags item -> tagIndex dc' !! t = tagIndex dc !! t)
        /\ (index_sound (data dc) (tagIndex dc) ->
            forall t, key ∉ bucket (tagIndex dc') t)
        /\ (forall t, t ∈ Tags item -> tagIndex dc' !! t <> Some [])
        /\ (no_empty_bucket (tagIndex dc) -> no_empty_bucket (tagIndex dc'))
        /\ Deletes (stats dc') = S (Deletes (stats dc))
        /\ TotalItems (stats dc') = size (data dc')
        /\ Hits (stats dc') = Hits (stats dc)
        /\ Misses (stats dc') = Misses (stats dc)
        /\ Sets (stats dc') = Sets (stats dc)
        /\ Evictions (stats dc') = Evictions (stats dc)
        /\ config dc' = config dc
        /\ (forall now_expiry now_access,
              let '(result, dc'', started) :=
                Get now_expiry now_access key dc' in
              result = None
              /\ Misses (stats dc'') = S (Misses (stats dc'))
              /\ Hits (stats dc'') = Hits (stats dc')
              /\ started = [])
        /\ Delete key dc' = (false, dc')).
Proof.
  split.
  - intros Hk. unfold Delete. by rewrite Hk.
  - intros item Hk. unfold Delete. rewrite Hk. cbn [fst snd data tagIndex stats config].
    split; [done|]. split; [done|].
    split. { rewrite map_size_delete, Hk. simpl.
             pose proof (map_size_non_empty_iff (data dc)) as Hne.
             assert (data dc <> ∅) by (intros E; by rewrite E in Hk).
             apply Hne in H. lia. }
    split. { intros t. rewrite occ_removeFromTagIndex. by rewrite decide_True. }
    split. { intros t k Hne. rewrite occ_removeFromTagIndex.
             by rewrite decide_False. }
    split. { intros t Ht. by apply removeFromTagIndex_lookup_other. }
    split. { intros Hs t.
             apply (index_sound_absent (delete key (data dc)));
               [by apply index_sound_remove | apply lookup_delete_eq]. }
    split. { intros t Ht. by apply removeFromTagIndex_pruned. }
    split. { apply removeFromTagIndex_no_empty. }
    repeat (split; [done|]).
    split.
    + intros now_expiry now_access. unfold Get. cbn [data].
      by rewrite lookup_delete_eq.
    + by rewrite lookup_delete_eq.
Qed.

(** ** Eviction *)

Lemma range_order_elem d order k :
  range_order d order -> k ∈ order <-> is_Some (d !! k).
Proof.
  unfold range_order. intros ->. rewrite list_elem_of_fmap. split.
  - intros [[k' e] [-> Hin]]. apply elem_of_map_to_list in Hin. eauto.
  - intros [e He]. exists (k, e). split; [done|]. by apply elem_of_map_to_list.
Qed.

Lemma oldest_scan_cons d k order acc :
  oldest_scan d (k :: order) acc =
  oldest_scan d order
    (match d !! k with
     | Some item =>
         if bool_decide (acc.1 = EmptyString)
            || time_Before (AccessedAt item) acc.2
         then (k, AccessedAt item)
         else acc
     | None => acc
     end).
Proof. unfold oldest_scan. simpl. destruct acc. by destruct (d !! k). Qed.

(** The key that the scan ends with is the one it started with or a key
    of the store. *)
Lemma oldest_scan_key d order acc :
  (oldest_scan d order acc).1 = acc.1
  \/ is_Some (d !! (oldest_scan d order acc).1).
Proof.
  revert acc. induction order as [|k order IH]; intros acc; [by left|].
  rewrite oldest_scan_cons.
  destruct (d !! k) as [item|] eqn:Hk; [|apply IH].
  destruct (bool_decide (acc.1 = EmptyString)
            || time_Before (AccessedAt item) acc.2); [|apply IH].
  destruct (IH (k, AccessedAt item)) as [E|?]; [|by right].
  right. rewrite E. simpl. eauto.
Qed.

(** In a store without the empty key, the scan ends with the empty key
    only if it started with it and met no entry; otherwise it ends with an
    entry that was accessed no later than every entry it met, and no later
    than the entry it started with. *)
Lemma oldest_scan_min d order acc :
  d !! EmptyString = None ->
  (acc.1 = EmptyString
   \/ exists e, d !! acc.1 = Some e /\ AccessedAt e = acc.2) ->
  let r := oldest_scan d order acc in
  (r.1 = EmptyString /\ acc.1 = EmptyString
   /\ forall k, k ∈ order -> d !! k = None)
  \/ (r.1 <> EmptyString
      /\ (exists e, d !! r.1 = Some e /\ AccessedAt e = r.2)
      /\ (acc.1 <> EmptyString -> (r.2 <= acc.2)%Z)
      /\ forall k e, k ∈ order -> d !! k = Some e -> (r.2 <= AccessedAt e)%Z).
Proof.
  intros Hempty. revert acc.
  induction order as [|k order IH]; intros acc Hacc; cbv zeta.
  - change (oldest_scan d [] acc) with acc.
    destruct Hacc as [E|[e [He Ht]]].
    + left. split; [done|]. split; [done|]. by intros k ?%elem_of_nil.
    + right. split; [intros E; rewrite E in He; congruence|].
      split; [eauto|]. split; [lia|]. by intros k e' ?%elem_of_nil.
  - rewrite oldest_scan_cons.
    destruct (d !! k) as [item|] eqn:Hk.
    + assert (k <> EmptyString) as Hkne by (intros ->; congruence).
      destruct (bool_decide (acc.1 = EmptyString)
                || time_Before (AccessedAt item) acc.2) eqn:Hc.
      * destruct (IH (k, AccessedAt item)) as [[_ [E _]]|(Hr & He & Hle & Hall)];
          [right; eauto | done |].
        right. split; [done|]. split; [done|]. split.
        -- intros Hne. simpl in Hle.
           apply orb_true_iff in Hc as [Hc|Hc].
           ++ by apply bool_decide_eq_true in Hc.
           ++ unfold time_Before in Hc. apply Z.ltb_lt in Hc.
              specialize (Hle Hkne). lia.
        -- intros k' e' [->|Hin]%elem_of_cons Hk'.
           ++ rewrite Hk in Hk'. injection Hk' as <-. by apply Hle.
           ++ by apply (Hall k').
      * apply orb_false_iff in Hc as [Hc1 Hc2].
        apply bool_decide_eq_false in Hc1.
        unfold time_Before in Hc2. apply Z.ltb_ge in Hc2.
        destruct (IH acc Hacc) as [[_ [E _]]|(Hr & He & Hle & Hall)]; [done|].
        right. split; [done|]. split; [done|]. split; [done|].
        intros k' e' [->|Hin]%elem_of_cons Hk'.
        -- rewrite Hk in Hk'. injection Hk' as <-. specialize (Hle Hc1). lia.
        -- by apply (Hall k').
    + destruct (IH acc Hacc) as [(Hr & E & Hall)|(Hr & He & Hle & Hall)].
      * left. split; [done|]. split; [done|].
        intros k' [->|Hin]%elem_of_cons; [done | by apply Hall].
      * right. split; [done|]. split; [done|]. split; [done|].
        intros k' e' [->|Hin]%elem_of_cons Hk'; [congruence | by apply (Hall k')].
Qed.

(** [evictLRU] does nothing, or removes one entry of the store together
    with the tag associations that the entry lists. *)
Lemma evictLRU_cases order dc :
  evictLRU order dc = dc
  \/ exists victim vitem,
       victim <> EmptyString
       /\ victim = (oldest_scan (data dc) order (EmptyString, 0%Z)).1
       /\ data dc !! victim = Some vitem
       /\ evictLRU order dc =
            mkDistroCache (delete victim (data dc))
              (removeFromTagIndex victim (Tags vitem) (tagIndex dc))
              (Evictions_Inc (stats dc)) (config dc).
Proof.
  unfold evictLRU.
  destruct (decide ((oldest_scan (data dc) order (EmptyString, 0%Z)).1
                    <> EmptyString)) as [Hne|?]; [|by left].
  right.
  destruct (oldest_scan_key (data dc) order (EmptyString, 0%Z)) as [E|[e He]];
    [done|].
  eexists _, e. split; [done|]. split; [done|]. split; [done|]. by rewrite He.
Qed.

(** On a store that is not empty and has no empty key, [evictLRU] removes
    an entry with the oldest [AccessedAt]. *)
Lemma evictLRU_oldest order dc :
  data dc !! EmptyString = None ->
  range_order (data dc) order ->
  data dc <> ∅ ->
  exists victim vitem,
    data dc !! victim = Some vitem
    /\ (forall k e, data dc !! k = Some e ->
                    (AccessedAt vitem <= AccessedAt e)%Z)
    /\ evictLRU order dc =
         mkDistroCache (delete victim (data dc))
           (removeFromTagIndex victim (Tags vitem) (tagIndex dc))
           (Evictions_Inc (stats dc)) (config dc).
Proof.
  intros Hempty Horder Hne.
  destruct (oldest_scan_min (data dc) order (EmptyString, 0%Z) Hempty)
    as [(_ & _ & Hall)|(Hr & [e [He Ht]] & _ & Hall)]; [by left| |].
  - exfalso. apply Hne. apply map_empty. intros k.
    destruct (data dc !! k) as [e|] eqn:Hk; [|done].
    rewrite <- Hk. apply Hall. apply (range_order_elem _ _ _ Horder). eauto.
  - exists (oldest_scan (data dc) order (EmptyString, 0%Z)).1, e.
    split; [done|]. split.
    + intros k e' Hk. rewrite Ht. apply (Hall k); [|done].
      apply (range_order_elem _ _ _ Horder). eauto.
    + unfold evictLRU. rewrite decide_True by done. by rewrite He.
Qed.

Lemma evictLRU_Deletes order dc :
  Deletes (stats (evictLRU order dc)) = Deletes (stats dc).
Proof.
  destruct (evictLRU_cases order dc) as [->|(v & e & _ & _ & _ & ->)]; done.
Qed.

Lemma evictLRU_config order dc : config (evictLRU order dc) = config dc.
Proof.
  destruct (evictLRU_cases order dc) as [->|(v & e & _ & _ & _ & ->)]; done.
Qed.

Lemma evictLRU_index_sound order dc :
  index_sound (data dc) (tagIndex dc) ->
  index_sound (data (evictLRU order dc)) (tagIndex (evictLRU order dc)).
Proof.
  intros Hs.
  destruct (evictLRU_cases order dc) as [->|(v & e & _ & _ & Hv & ->)]; [done|].
  by apply index_sound_remove.
Qed.

Lemma evictLRU_no_empty order dc :
  no_empty_bucket (tagIndex dc) -> no_empty_bucket (tagIndex (evictLRU order dc)).
Proof.
  intros Hs.
  destruct (evictLRU_cases order dc) as [->|(v & e & _ & _ & Hv & ->)]; [done|].
  by apply removeFromTagIndex_no_empty.
Qed.

Lemma evictLRU_coherent order dc : coherent dc -> coherent (evictLRU order dc).
Proof.
  intros (He & Hn & Hk).
  destruct (evictLRU_cases order dc) as [->|(v & e & _ & _ & Hv & ->)]; [done|].
  split; [by apply index_exact_remove|].
  split; [by apply removeFromTagIndex_no_empty | by apply keys_agree_delete].
Qed.

(** ** [Set] *)

(** The removal of the old entry's tag associations in [Set]. *)
Lemma occ_drop_old d idx key x t :
  occ x
    (bucket
       (match d !! key with
        | Some oldItem => removeFromTagIndex key (Tags oldItem) idx
        | None => idx
        end) t) =
  if decide (x = key) then occ key (bucket idx t) - occ t (tags_of d key)
  else occ x (bucket idx t).
Proof.
  unfold tags_of. destruct (d !! key) as [old|]; simpl.
  - apply occ_removeFromTagIndex.
  - case_decide; subst; lia.
Qed.

Lemma drop_old_no_empty d idx key :
  no_empty_bucket idx ->
  no_empty_bucket
    (match d !! key with
     | Some oldItem => removeFromTagIndex key (Tags oldItem) idx
     | None => idx
     end).
Proof.
  intros H. destruct (d !! key); [by apply removeFromTagIndex_no_empty | done].
Qed.

(** The part of [Set] after the capacity check keeps the tag index sound
    and gives the key one occurrence per tag occurrence. *)
Lemma insert_index_sound d idx key item :
  index_sound d idx ->
  index_sound (<[key := item]> d)
    (addToTagIndex key (Tags item)
       (match d !! key with
        | Some oldItem => removeFromTagIndex key (Tags oldItem) idx
        | None => idx
        end)).
Proof.
  intros Hs t k. rewrite occ_addToTagIndex, occ_drop_old, tags_of_insert.
  specialize (Hs t k). case_decide; subst; lia.
Qed.

Lemma insert_index_exact d idx key item :
  index_exact d idx ->
  index_exact (<[key := item]> d)
    (addToTagIndex key (Tags item)
       (match d !! key with
        | Some oldItem => removeFromTagIndex key (Tags oldItem) idx
        | None => idx
        end)).
Proof.
  intros Hs t k. rewrite occ_addToTagIndex, occ_drop_old, tags_of_insert.
  specialize (Hs t k). case_decide; subst; lia.
Qed.

Lemma Set_index_sound order now_created now_accessed key (value : V) ttl tags dc :
  index_sound (data dc) (tagIndex dc) ->
  index_sound
    (data (Set_ order now_created now_accessed key value ttl tags dc))
    (tagIndex (Set_ order now_created now_accessed key value ttl tags dc)).
Proof.
  intros Hs. unfold Set_. cbn [data tagIndex].
  set (dc1 := if (Z.of_nat (size (data dc)) >=? MaxSize (config dc))%Z
              then evictLRU order dc else dc).
  assert (index_sound (data dc1) (tagIndex dc1)) as Hs1.
  { subst dc1. destruct (_ >=? _)%Z; [by apply evictLRU_index_sound | done]. }
  apply (insert_index_sound _ _ key
           (mkCacheItem key value ttl now_created now_accessed 1%Z tags ∅) Hs1).
Qed.

Lemma Set_coherent order now_created now_accessed key (value : V) ttl tags dc :
  coherent dc ->
  coherent (Set_ order now_created now_accessed key value ttl tags dc).
Proof.
  intros Hc. unfold Set_.
  set (dc1 := if (Z.of_nat (size (data dc)) >=? MaxSize (config dc))%Z
              then evictLRU order dc else dc).
  assert (coherent dc1) as (He & Hn & Hk).
  { subst dc1. destruct (_ >=? _)%Z; [by apply evictLRU_coherent | done]. }
  split; [|split]; cbn [data tagIndex].
  - apply (insert_index_exact _ _ key
             (mkCacheItem key value ttl now_created now_accessed 1%Z tags ∅) He).
  - by apply addToTagIndex_no_empty, drop_old_no_empty.
  - by apply map_Forall_insert_2.
Qed.

(** [Set] below capacity runs no eviction; on a key that exists it
    replaces the entry in place. *)
Lemma Set_below_capacity order now_created now_accessed key (value : V) ttl
    tags dc :
  (Z.of_nat (size (data dc)) < MaxSize (config dc))%Z ->
  let dc' := Set_ order now_created now_accessed key value ttl tags dc in
  data dc' =
    <[key := mkCacheItem key value ttl now_created now_accessed 1%Z tags ∅]>
      (data dc)
  /\ Evictions (stats dc') = Evictions (stats dc)
  /\ Deletes (stats dc') = Deletes (stats dc)
  /\ Sets (stats dc') = S (Sets (stats dc))
  /\ TotalItems (stats dc') = size (data dc')
  /\ (is_Some (data dc !! key) -> size (data dc') = size (data dc))
  /\ (forall t k,
        occ k (bucket (tagIndex dc') t) =
        if decide (k = key)
        then occ key (bucket (tagIndex dc) t) - occ t (tags_of (data dc) key)
             + occ t tags
        else occ k (bucket (tagIndex dc) t)).
Proof.
  intros Hlt. unfold Set_.
  assert ((Z.of_nat (size (data dc)) >=? MaxSize (config dc))%Z = false) as ->.
  { rewrite Z.geb_leb. apply Z.leb_gt. lia. }
  cbn [data tagIndex stats].
  split; [done|]. repeat (split; [done|]). split.
  - intros Hold. by apply map_size_insert_Some.
  - intros t k. rewrite occ_addToTagIndex, occ_drop_old.
    case_decide; subst; lia.
Qed.

(** [Set] at capacity runs an eviction whether or not the key exists: on
    a store that is not empty and has no empty key, the evictions counter
    advances. *)
Lemma Set_at_capacity_evicts order now_created now_accessed key (value : V) ttl
    tags dc :
  (MaxSize (config dc) <= Z.of_nat (size (data dc)))%Z ->
  data dc <> ∅ ->
  data dc !! EmptyString = None ->
  range_order (data dc) order ->
  Evictions
    (stats (Set_ order now_created now_accessed key value ttl tags dc)) =
  S (Evictions (stats dc)).
Proof.
  intros Hfull Hne Hempty Horder. unfold Set_.
  assert ((Z.of_nat (size (data dc)) >=? MaxSize (config dc))%Z = true) as ->.
  { rewrite Z.geb_leb. apply Z.leb_le. lia. }
  destruct (evictLRU_oldest order dc Hempty Horder Hne)
    as (victim & vitem & _ & _ & ->).
  done.
Qed.

(** C5 (as amended).  On a store that holds exactly [MaxSize] entries, at
    least one, and none under the empty key, a set of a new key evicts
    exactly one entry: an entry whose [AccessedAt] is the oldest, whichever
    order the scan visits the store in.  The evicted entry leaves the store
    and loses one occurrence in a tag's bucket for each of its occurrences
    of the tag (so that it is in no bucket afterwards), the evictions
    counter advances by one and the deletes counter stays, and the store
    has [MaxSize] entries after the insert. *)
Theorem Set_new_key_at_capacity order now_created now_accessed key (value : V)
    ttl tags dc :
  Z.of_nat (size (data dc)) = MaxSize (config dc) ->
  (0 < MaxSize (config dc))%Z ->
  data dc !! EmptyString = None ->
  data dc !! key = None ->
  range_order (data dc) order ->
  let dc' := Set_ order now_created now_accessed key value ttl tags dc in
  exists victim vitem,
    data dc !! victim = Some vitem
    /\ (forall k e, data dc !! k = Some e ->
                    (AccessedAt vitem <= AccessedAt e)%Z)
    /\ data dc' =
         <[key := mkCacheItem key value ttl now_created now_accessed 1%Z tags ∅]>
           (delete victim (data dc))
    /\ data dc' !! victim = None
    /\ (forall k, k <> victim -> k <> key -> data dc' !! k = data dc !! k)
    /\ (forall t,
          occ victim (bucket (tagIndex dc') t) =
          occ victim (bucket (tagIndex dc) t) - occ t (Tags vitem))
    /\ (index_sound (data dc) (tagIndex dc) ->
        forall t, victim ∉ bucket (tagIndex dc') t)
    /\ (forall t k, k <> victim -> k <> key ->
          occ k (bucket (tagIndex dc') t) = occ k (bucket (tagIndex dc) t))
    /\ Evictions (stats dc') = S (Evictions (stats dc))
    /\ Deletes (stats dc') = Deletes (stats dc)
    /\ size (data dc') = size (data dc)
    /\ Z.of_nat (size (data dc')) = MaxSize (config dc')
    /\ TotalItems (stats dc') = size (data dc').
Proof.
  intros Hfull Hpos Hempty Hnew Horder dc'.
  assert (data dc <> ∅) as Hne.
  { intros E. rewrite E, map_size_empty in Hfull. lia. }
  destruct (evictLRU_oldest order dc Hempty Horder Hne)
    as (victim & vitem & Hv & Hmin & Hev).
  assert (victim <> key) as Hvk by (intros ->; congruence).
  subst dc'. unfold Set_.
  assert ((Z.of_nat (size (data dc)) >=? MaxSize (config dc))%Z = true) as ->.
  { rewrite Z.geb_leb. apply Z.leb_le. lia. }
  rewrite Hev. cbn [data tagIndex stats config].
  rewrite lookup_delete_ne, Hnew by done.
  exists victim, vitem.
  split; [done|]. split; [done|]. split; [done|].
  split. { rewrite lookup_insert_ne by done. apply lookup_delete_eq. }
  split. { intros k ? ?. rewrite lookup_insert_ne by done.
           by rewrite lookup_delete_ne. }
  assert (forall t,
            occ victim
              (bucket
                 (addToTagIndex key tags
                    (removeFromTagIndex victim (Tags vitem) (tagIndex dc))) t) =
            occ victim (bucket (tagIndex dc) t) - occ t (Tags vitem)) as Hocc.
  { intros t. rewrite occ_addToTagIndex, occ_removeFromTagIndex.
    rewrite decide_True by done. rewrite decide_False by done. lia. }
  split; [done|].
  split. { intros Hs t. apply occ_zero. rewrite Hocc.
           specialize (Hs t victim).
           rewrite (tags_of_lookup _ _ _ Hv) in Hs. lia. }
  split. { intros t k ? ?. rewrite occ_addToTagIndex, occ_removeFromTagIndex.
           rewrite !decide_False by done. lia. }
  split; [done|]. split; [done|].
  assert (size (<[key := mkCacheItem key value ttl now_created now_accessed
                          1%Z tags ∅]> (delete victim (data dc)))
          = size (data dc)) as Hsize.
  { rewrite map_size_insert_None by (by rewrite lookup_delete_ne).
    rewrite map_size_delete_Some by eauto.
    assert (size (data dc) <> 0) by (by apply map_size_non_empty_iff). lia. }
  split; [done|]. split; [|done]. rewrite Hsize. done.
Qed.

(** C8 (as amended).  After [Set] on a cache whose tag index is sound, the
    bucket of every tag holds the key once per occurrence of the tag in
    [tags]: a tag listed twice puts the key twice into its bucket.  The key
    is in the bucket of a tag exactly when the tag is in [tags].  Other
    keys gain no occurrence, and keep theirs when no eviction runs.
    [addToTagIndex] with an empty tag list leaves the tag index as it is,
    and so does the set of a new key with no tags below capacity. *)
Theorem Set_tag_index_gain order now_created now_accessed key (value : V) ttl
    tags dc :
  index_sound (data dc) (tagIndex dc) ->
  let dc' := Set_ order now_created now_accessed key value ttl tags dc in
  (forall t, occ key (bucket (tagIndex dc') t) = occ t tags)
  /\ (forall t, key ∈ bucket (tagIndex dc') t <-> t ∈ tags)
  /\ (forall t k, k <> key ->
        occ k (bucket (tagIndex dc') t) <= occ k (bucket (tagIndex dc) t))
  /\ ((Z.of_nat (size (data dc)) < MaxSize (config dc))%Z ->
      forall t k, k <> key ->
        occ k (bucket (tagIndex dc') t) = occ k (bucket (tagIndex dc) t))
  /\ (forall idx, addToTagIndex key [] idx = idx)
  /\ (tags = [] ->
      (Z.of_nat (size (data dc)) < MaxSize (config dc))%Z ->
      data dc !! key = None ->
      tagIndex dc' = tagIndex dc).
Proof.
  intros Hs dc'. subst dc'. unfold Set_. cbn [tagIndex].
  set (dc1 := if (Z.of_nat (size (data dc)) >=? MaxSize (config dc))%Z
              then evictLRU order dc else dc).
  assert (index_sound (data dc1) (tagIndex dc1)) as Hs1.
  { subst dc1. destruct (_ >=? _)%Z; [by apply evictLRU_index_sound | done]. }
  assert (forall t k, k <> key ->
            occ k (bucket (tagIndex dc1) t) <= occ k (bucket (tagIndex dc) t))
    as Hle.
  { intros t k Hk. subst dc1. destruct (_ >=? _)%Z; [|done].
    destruct (evictLRU_cases order dc) as [->|(v & e & _ & _ & _ & ->)];
      [done|].
    cbn [tagIndex]. rewrite occ_removeFromTagIndex. case_decide; subst; lia. }
  assert (forall t,
            occ key
              (bucket
                 (addToTagIndex key tags
                    (match data dc1 !! key with
                     | Some oldItem =>
                         removeFromTagIndex key (Tags oldItem) (tagIndex dc1)
                     | None => tagIndex dc1
                     end)) t) = occ t tags) as Hocc.
  { intros t. rewrite occ_addToTagIndex, occ_drop_old.
    rewrite !decide_True by done. specialize (Hs1 t key). lia. }
  split; [done|].
  split. { intros t. rewrite <- !occ_pos. by rewrite Hocc. }
  split. { intros t k Hk. rewrite occ_addToTagIndex, occ_drop_old.
           rewrite !decide_False by done. specialize (Hle t k Hk). lia. }
  split. { intros Hlt t k Hk. subst dc1.
           assert ((Z.of_nat (size (data dc)) >=? MaxSize (config dc))%Z
                   = false) as ->.
           { rewrite Z.geb_leb. apply Z.leb_gt. lia. }
           rewrite occ_addToTagIndex, occ_drop_old.
           rewrite !decide_False by done. lia. }
  split; [done|].
  intros -> Hlt Hnew. subst dc1.
  assert ((Z.of_nat (size (data dc)) >=? MaxSize (config dc))%Z = false) as ->.
  { rewrite Z.geb_leb. apply Z.leb_gt. lia. }
  by rewrite Hnew.
Qed.

(** ** [InvalidateByTag] *)

Lemma fold_left_invariant {A B} (P : A -> Prop) (f : A -> B -> A) l a :
  (forall a b, P a -> P (f a b)) -> P a -> P (fold_left f l a).
Proof.
  intros Hf. revert a. induction l as [|b l IH]; intros a Ha; [done|].
  simpl. by apply IH, Hf.
Qed.

(** The tag index that the shared run of [removeFromTagIndex] returns is
    the one that [removeFromTagIndex] returns. *)
Lemma removeFromTagIndex_shared_index ranged key tags idx cells :
  (removeFromTagIndex_shared ranged key tags (idx, cells)).1 =
  removeFromTagIndex key tags idx.
Proof.
  revert idx cells. induction tags as [|tag tags IH]; intros idx cells; [done|].
  unfold removeFromTagIndex_shared. simpl. apply IH.
Qed.

(** An iteration of the loop changes nothing, or removes one stored entry
    together with the tag associations that the entry lists. *)
Lemma inval_step_cases tag (st : inval_loop) i :
  inval_step tag st i = st
  \/ exists key item cells',
       il_cells st !! i = Some key
       /\ il_data st !! key = Some item
       /\ inval_step tag st i =
            mkInvalLoop (delete key (il_data st))
              (removeFromTagIndex key (Tags item) (il_index st))
              cells' (S (il_deleted st)).
Proof.
  unfold inval_step.
  destruct (il_cells st !! i) as [key|] eqn:Hc; [|by left].
  destruct (il_data st !! key) as [item|] eqn:Hk; [|by left].
  right. exists key, item.
  pose proof (removeFromTagIndex_shared_index tag key (Tags item)
                (il_index st) (il_cells st)) as Hi.
  destruct (removeFromTagIndex_shared tag key (Tags item)
              (il_index st, il_cells st)) as [idx cells].
  simpl in Hi. subst idx. by exists cells.
Qed.

Lemma InvalidateByTag_absent tag dc :
  tagIndex dc !! tag = None -> InvalidateByTag tag dc = (0, dc).
Proof. unfold InvalidateByTag. by intros ->. Qed.

(** After [InvalidateByTag] the tag is not in the tag index. *)
Lemma InvalidateByTag_tag_gone tag dc :
  tagIndex (InvalidateByTag tag dc).2 !! tag = None.
Proof.
  unfold InvalidateByTag. destruct (tagIndex dc !! tag) eqn:Ht; [|done].
  apply lookup_delete_eq.
Qed.

(** [InvalidateByTag] returns the number of entries it removed. *)
Lemma InvalidateByTag_count tag dc :
  (InvalidateByTag tag dc).1 + size (data (InvalidateByTag tag dc).2) =
  size (data dc).
Proof.
  unfold InvalidateByTag. destruct (tagIndex dc !! tag) as [keys|]; [|done].
  cbn [fst snd data].
  apply (fold_left_invariant
           (fun st => il_deleted st + size (il_data st) = size (data dc)));
    [|done].
  intros st i Hst.
  destruct (inval_step_cases tag st i) as [->|(k & e & c & _ & Hk & ->)];
    [done|].
  cbn [il_deleted il_data]. rewrite map_size_delete_Some by eauto.
  assert (size (il_data st) <> 0).
  { apply map_size_non_empty_iff. intros E. by rewrite E in Hk. }
  lia.
Qed.

(** [InvalidateByTag] removes entries and changes none. *)
Lemma InvalidateByTag_data tag dc k e :
  data (InvalidateByTag tag dc).2 !! k = Some e -> data dc !! k = Some e.
Proof.
  unfold InvalidateByTag. destruct (tagIndex dc !! tag) as [keys|]; [|done].
  cbn [snd data].
  apply (fold_left_invariant
           (fun st => il_data st !! k = Some e -> data dc !! k = Some e));
    [|done].
  intros st i Hst.
  destruct (inval_step_cases tag st i) as [->|(k' & e' & c & _ & Hk & ->)];
    [done|].
  cbn [il_data]. intros Hd. apply Hst.
  destruct (decide (k = k')) as [->|?].
  - by rewrite lookup_delete_eq in Hd.
  - by rewrite lookup_delete_ne in Hd.
Qed.

Lemma index_sound_delete_tag d idx tag :
  index_sound d idx -> index_sound d (delete tag idx).
Proof.
  intros Hs t k. rewrite bucket_delete. case_decide; [simpl; lia | apply Hs].
Qed.

Lemma no_empty_delete_tag idx tag :
  no_empty_bucket idx -> no_empty_bucket (delete tag idx).
Proof.
  intros Hn t. destruct (decide (t = tag)) as [->|?].
  - by rewrite lookup_delete_eq.
  - rewrite lookup_delete_ne by done. apply Hn.
Qed.

(** ** The backing array in the loop of [InvalidateByTag]

    The cells of the backing array and the bucket of the ranged tag stay
    in step: the array keeps its length, and the bucket is the prefix of
    the array of the bucket's length. *)

Lemma length_slice_delete i (keys : list string) :
  i < length keys -> S (length (slice_delete i keys)) = length keys.
Proof.
  intros Hi. unfold slice_delete.
  rewrite length_app, length_take, length_drop. lia.
Qed.

Lemma length_cells_delete i m (cells : list string) :
  i < m -> m <= length cells -> length (cells_delete i m cells) = length cells.
Proof.
  intros Hi Hm. unfold cells_delete.
  rewrite !length_app, !length_take, !length_drop. lia.
Qed.

Lemma cells_delete_prefix i m (cells : list string) :
  i < m -> m <= length cells ->
  take (m - 1) (cells_delete i m cells) = slice_delete i (take m cells).
Proof.
  intros Hi Hm. unfold cells_delete, slice_delete.
  rewrite app_assoc. rewrite take_app_length'.
  - rewrite take_take. replace (min i m) with i by lia. f_equal.
    rewrite take_drop_commute. by replace (S i + (m - S i)) with m by lia.
  - rewrite length_app, !length_take, length_drop. lia.
Qed.

Lemma removeFromTagIndex_shared_prefix ranged n key tags st :
  shared_prefix ranged n st ->
  shared_prefix ranged n (removeFromTagIndex_shared ranged key tags st).
Proof.
  unfold removeFromTagIndex_shared. apply fold_left_invariant.
  clear st. intros [idx cells] tag [Hlen Hpre]. simpl in *.
  unfold shared_prefix. cbn [fst snd]. rewrite bucket_removeFromTag.
  destruct (decide (tag = ranged)) as [->|Hne].
  - rewrite decide_True by done. unfold remove_first.
    destruct (index_of key (bucket idx ranged)) as [i|] eqn:Hi; [|done].
    apply index_of_lookup, lookup_lt_Some in Hi.
    assert (length (bucket idx ranged) <= length cells) as Hm.
    { rewrite Hpre, length_take. lia. }
    split; [by rewrite length_cells_delete|].
    pose proof (length_slice_delete i (bucket idx ranged) Hi) as Hl.
    replace (length (slice_delete i (bucket idx ranged)))
      with (length (bucket idx ranged) - 1) by lia.
    rewrite cells_delete_prefix by done. by rewrite <- Hpre.
  - by rewrite decide_False by done.
Qed.

(** Along the loop of [InvalidateByTag] the array has the length of the
    ranged slice, so that every iteration reads a cell, and the bucket of
    the tag is a prefix of the array. *)
Lemma inval_loop_shared_prefix tag dc keys l :
  tagIndex dc !! tag = Some keys ->
  let st :=
    fold_left (inval_step tag) l (mkInvalLoop (data dc) (tagIndex dc) keys 0) in
  shared_prefix tag (length keys) (il_index st, il_cells st).
Proof.
  intros Ht. cbv zeta.
  apply (fold_left_invariant
           (fun st => shared_prefix tag (length keys)
                        (il_index st, il_cells st))).
  - intros st i Hst. unfold inval_step.
    destruct (il_cells st !! i) as [key|]; [|done].
    destruct (il_data st !! key) as [item|]; [|done].
    pose proof (removeFromTagIndex_shared_prefix tag (length keys) key
                  (Tags item) _ Hst) as Hp.
    by destruct (removeFromTagIndex_shared _ _ _ _).
  - split; [done|]. cbn [fst snd il_index il_cells].
    rewrite (bucket_lookup_Some _ _ _ Ht). by rewrite take_ge.
Qed.

(** [InvalidateByTag] keeps the tag index sound, free of empty buckets,
    and the entries under their own keys. *)
Lemma InvalidateByTag_sound tag dc :
  index_sound (data dc) (tagIndex dc)
  /\ no_empty_bucket (tagIndex dc)
  /\ keys_agree (data dc) ->
  let dc' := (InvalidateByTag tag dc).2 in
  index_sound (data dc') (tagIndex dc')
  /\ no_empty_bucket (tagIndex dc')
  /\ keys_agree (data dc').
Proof.
  intros H. unfold InvalidateByTag.
  destruct (tagIndex dc !! tag) as [keys|]; [|done].
  cbn [snd data tagIndex].
  assert (index_sound
            (il_data (fold_left (inval_step tag) (seq 0 (length keys))
                        (mkInvalLoop (data dc) (tagIndex dc) keys 0)))
            (il_index (fold_left (inval_step tag) (seq 0 (length keys))
                        (mkInvalLoop (data dc) (tagIndex dc) keys 0)))
          /\ no_empty_bucket
               (il_index (fold_left (inval_step tag) (seq 0 (length keys))
                            (mkInvalLoop (data dc) (tagIndex dc) keys 0)))
          /\ keys_agree
               (il_data (fold_left (inval_step tag) (seq 0 (length keys))
                           (mkInvalLoop (data dc) (tagIndex dc) keys 0))))
    as (Hs & Hn & Hk).
  { apply (fold_left_invariant
             (fun st => index_sound (il_data st) (il_index st)
                        /\ no_empty_bucket (il_index st)
                        /\ keys_agree (il_data st))); [|done].
    intros st i (Hs & Hn & Hk).
    destruct (inval_step_cases tag st i) as [->|(k & e & c & _ & Hd & ->)];
      [done|].
    cbn [il_data il_index]. split; [by apply index_sound_remove|].
    split; [by apply removeFromTagIndex_no_empty | by apply keys_agree_delete]. }
  split; [by apply index_sound_delete_tag|].
  split; [by apply no_empty_delete_tag | done].
Qed.

Lemma InvalidateByTag_stats tag dc :
  let s := stats (InvalidateByTag tag dc).2 in
  Hits s = Hits (stats dc) /\ Misses s = Misses (stats dc)
  /\ Sets s = Sets (stats dc) /\ Deletes s = Deletes (stats dc)
  /\ Evictions s = Evictions (stats dc).
Proof.
  unfold InvalidateByTag. by destruct (tagIndex dc !! tag).
Qed.

(** ** [cleanup], [Get] and [Delete] keep the invariants *)

Lemma cleanup_invariant (P : gmap string (CacheItem V) ->
                             gmap string (list string) -> Prop)
    (visits : list (string * Z)) dc :
  (forall d idx key item,
     d !! key = Some item -> P d idx ->
     P (delete key d) (removeFromTagIndex key (Tags item) idx)) ->
  P (data dc) (tagIndex dc) ->
  P (data (cleanup visits dc)) (tagIndex (cleanup visits dc)).
Proof.
  intros Hstep H0. unfold cleanup.
  pose proof (fold_left_invariant (fun st => P st.1 st.2)
    (fun '(d, idx) '(key, now) =>
       match d !! key with
       | Some item =>
           if IsExpired now item
           then (delete key d, removeFromTagIndex key (Tags item) idx)
           else (d, idx)
       | None => (d, idx)
       end) visits (data dc, tagIndex dc)) as Hfold.
  destruct (fold_left _ visits (data dc, tagIndex dc)) as [d idx].
  cbn [data tagIndex]. apply Hfold; [|done].
  intros [d' idx'] [k now] Hp. simpl in *.
  destruct (d' !! k) as [e|] eqn:Hk; [|done].
  destruct (IsExpired now e); [by apply Hstep | done].
Qed.

Lemma cleanup_stats (visits : list (string * Z)) dc :
  let s := stats (cleanup visits dc) in
  Hits s = Hits (stats dc) /\ Misses s = Misses (stats dc)
  /\ Sets s = Sets (stats dc) /\ Deletes s = Deletes (stats dc)
  /\ Evictions s = Evictions (stats dc).
Proof. unfold cleanup. by destruct (fold_left _ _ _). Qed.

Lemma cleanup_coherent (visits : list (string * Z)) dc :
  coherent dc -> coherent (cleanup visits dc).
Proof.
  intros H.
  apply (cleanup_invariant
           (fun d idx => index_exact d idx /\ no_empty_bucket idx
                         /\ keys_agree d)); [|done].
  intros d idx key item Hk (He & Hn & Ha).
  split; [by apply index_exact_remove|].
  split; [by apply removeFromTagIndex_no_empty | by apply keys_agree_delete].
Qed.

Lemma cleanup_sound (visits : list (string * Z)) dc :
  index_sound (data dc) (tagIndex dc)
  /\ no_empty_bucket (tagIndex dc) /\ keys_agree (data dc) ->
  index_sound (data (cleanup visits dc)) (tagIndex (cleanup visits dc))
  /\ no_empty_bucket (tagIndex (cleanup visits dc))
  /\ keys_agree (data (cleanup visits dc)).
Proof.
  intros H.
  apply (cleanup_invariant
           (fun d idx => index_sound d idx /\ no_empty_bucket idx
                         /\ keys_agree d)); [|done].
  intros d idx key item Hk (He & Hn & Ha).
  split; [by apply index_sound_remove|].
  split; [by apply removeFromTagIndex_no_empty | by apply keys_agree_delete].
Qed.

Lemma Delete_coherent key dc : coherent dc -> coherent (Delete key dc).2.
Proof.
  intros (He & Hn & Ha). unfold Delete.
  destruct (data dc !! key) as [item|] eqn:Hk; [|done].
  split; [by apply index_exact_remove|].
  split; [by apply removeFromTagIndex_no_empty | by apply keys_agree_delete].
Qed.

Lemma Delete_sound key dc :
  index_sound (data dc) (tagIndex dc)
  /\ no_empty_bucket (tagIndex dc) /\ keys_agree (data dc) ->
  index_sound (data (Delete key dc).2) (tagIndex (Delete key dc).2)
  /\ no_empty_bucket (tagIndex (Delete key dc).2)
  /\ keys_agree (data (Delete key dc).2).
Proof.
  intros (He & Hn & Ha). unfold Delete.
  destruct (data dc !! key) as [item|] eqn:Hk; [|done].
  split; [by apply index_sound_remove|].
  split; [by apply removeFromTagIndex_no_empty | by apply keys_agree_delete].
Qed.

(** [Get] changes no tag list and no key. *)
Lemma Get_tags_of now_expiry now_access key dc k :
  tags_of (data (Get now_expiry now_access key dc).1.2) k = tags_of (data dc) k.
Proof.
  unfold Get. destruct (data dc !! key) as [item|] eqn:Hk; [|done].
  destruct (IsExpired now_expiry item); [done|].
  cbn [fst snd data]. rewrite tags_of_insert. case_decide; subst; [|done].
  by rewrite (tags_of_lookup _ _ _ Hk).
Qed.

Lemma Get_tagIndex now_expiry now_access key dc :
  tagIndex (Get now_expiry now_access key dc).1.2 = tagIndex dc.
Proof.
  unfold Get. destruct (data dc !! key) as [item|]; [|done].
  by destruct (IsExpired now_expiry item).
Qed.

Lemma Get_keys_agree now_expiry now_access key dc :
  keys_agree (data dc) ->
  keys_agree (data (Get now_expiry now_access key dc).1.2).
Proof.
  intros Ha. unfold Get. destruct (data dc !! key) as [item|] eqn:Hk; [|done].
  destruct (IsExpired now_expiry item); [done|].
  cbn [fst snd data]. apply map_Forall_insert_2; [|done].
  simpl. by apply (Ha key item).
Qed.

Lemma Get_coherent now_expiry now_access key dc :
  coherent dc -> coherent (Get now_expiry now_access key dc).1.2.
Proof.
  intros (He & Hn & Ha). split; [|split].
  - intros t k. rewrite Get_tagIndex, Get_tags_of. apply He.
  - by rewrite Get_tagIndex.
  - by apply Get_keys_agree.
Qed.

Lemma Get_sound now_expiry now_access key dc :
  index_sound (data dc) (tagIndex dc)
  /\ no_empty_bucket (tagIndex dc) /\ keys_agree (data dc) ->
  let dc' := (Get now_expiry now_access key dc).1.2 in
  index_sound (data dc') (tagIndex dc')
  /\ no_empty_bucket (tagIndex dc') /\ keys_agree (data dc').
Proof.
  intros (He & Hn & Ha). split; [|split].
  - intros t k. rewrite Get_tagIndex, Get_tags_of. apply He.
  - by rewrite Get_tagIndex.
  - by apply Get_keys_agree.
Qed.

Lemma Set_no_empty order now_created now_accessed key (value : V) ttl tags dc :
  no_empty_bucket (tagIndex dc) ->
  no_empty_bucket
    (tagIndex (Set_ order now_created now_accessed key value ttl tags dc)).
Proof.
  intros Hn. unfold Set_. cbn [tagIndex].
  apply addToTagIndex_no_empty, drop_old_no_empty.
  destruct (_ >=? _)%Z; [by apply evictLRU_no_empty | done].
Qed.

Lemma Set_keys_agree order now_created now_accessed key (value : V) ttl tags dc :
  keys_agree (data dc) ->
  keys_agree (data (Set_ order now_created now_accessed key value ttl tags dc)).
Proof.
  intros Ha. unfold Set_. cbn [data]. apply map_Forall_insert_2; [done|].
  destruct (_ >=? _)%Z; [|done].
  destruct (evictLRU_cases order dc) as [->|(v & e & _ & _ & _ & ->)]; [done|].
  by apply keys_agree_delete.
Qed.

(** The strong invariant implies the consistency invariant of the
    specification. *)
Lemma coherent_consistent dc : coherent dc -> consistent dc.
Proof.
  intros (He & Hn & Ha). split; [|split; [|done]].
  - intros k e t Hk Ht. rewrite (Ha k e Hk). apply occ_pos.
    rewrite He, (tags_of_lookup _ _ _ Hk). by apply occ_pos.
  - intros t k Hin. apply occ_pos in Hin. rewrite He in Hin.
    unfold tags_of in Hin. destruct (data dc !! k) as [e|] eqn:Hk; simpl in Hin.
    + exists e. split; [done|]. split; [by apply (Ha k e)|]. by apply occ_pos.
    + lia.
Qed.

(** Every operation except [InvalidateByTag] keeps the strong invariant. *)
Lemma run_operation_coherent (op : operation V) dc :
  (forall tag, op <> OpInvalidateByTag tag) ->
  coherent dc -> coherent (run_operation op dc).
Proof.
  intros Hop Hc. destruct op as [ne na k|o nc na k v ttl tags|k|tag|visits|[k]];
    cbn [run_operation run_goroutine].
  - by apply Get_coherent.
  - by apply Set_coherent.
  - by apply Delete_coherent.
  - by destruct (Hop tag).
  - by apply cleanup_coherent.
  - by apply Delete_coherent.
Qed.

(** Every operation keeps the tag index sound and free of empty buckets,
    and the entries under their own keys. *)
Lemma run_operation_sound (op : operation V) dc :
  index_sound (data dc) (tagIndex dc)
  /\ no_empty_bucket (tagIndex dc) /\ keys_agree (data dc) ->
  let dc' := run_operation op dc in
  index_sound (data dc') (tagIndex dc')
  /\ no_empty_bucket (tagIndex dc') /\ keys_agree (data dc').
Proof.
  intros H. destruct op as [ne na k|o nc na k v ttl tags|k|tag|visits|[k]];
    cbn [run_operation run_goroutine].
  - by apply Get_sound.
  - destruct H as (Hs & Hn & Ha). split; [by apply Set_index_sound|].
    split; [by apply Set_no_empty | by apply Set_keys_agree].
  - by apply Delete_sound.
  - by apply InvalidateByTag_sound.
  - by apply cleanup_sound.
  - by apply Delete_sound.
Qed.

(** Every cache that a run of the engine can be in has a sound tag index
    without empty buckets, and its entries are stored under their keys. *)
Lemma reachable_sound dc :
  reachable dc ->
  index_sound (data dc) (tagIndex dc)
  /\ no_empty_bucket (tagIndex dc) /\ keys_agree (data dc).
Proof.
  induction 1 as [cfg|op dc _ IH].
  - split; [|split].
    + intros t k. done.
    + intros t. done.
    + apply map_Forall_empty.
  - by apply run_operation_sound.
Qed.

(** ** The deletes counter *)

Lemma Set_Deletes order now_created now_accessed key (value : V) ttl tags dc :
  Deletes (stats (Set_ order now_created now_accessed key value ttl tags dc)) =
  Deletes (stats dc).
Proof.
  unfold Set_. cbn [stats Deletes TotalItems_Set Sets_Inc].
  destruct (_ >=? _)%Z; [apply evictLRU_Deletes | done].
Qed.

(** The deletes counter advances by one exactly when a run of [Delete]
    removes an entry, whether a client asked for the delete or a [Get] that
    met an expired entry started it in a goroutine.  [Get] itself, [Set]
    with its capacity eviction, [evictLRU], [InvalidateByTag] and the sweep
    leave the counter as it is. *)
Lemma Deletes_counter_operations (op : operation V) dc :
  Deletes (stats (run_operation op dc)) =
    match op with
    | OpDelete key | OpGo (GoDelete key) =>
        match data dc !! key with
        | Some _ => S (Deletes (stats dc))
        | None => Deletes (stats dc)
        end
    | _ => Deletes (stats dc)
    end
  /\ (forall order, Deletes (stats (evictLRU order dc)) = Deletes (stats dc))
  /\ (forall now_expiry now_access key,
        let '(result, dc', started) := Get now_expiry now_access key dc in
        Deletes (stats dc') = Deletes (stats dc)
        /\ (started = [GoDelete key]
            /\ (exists item, data dc !! key = Some item
                             /\ IsExpired now_expiry item = true)
            \/ started = [])).
Proof.
  split; [|split].
  - destruct op as [ne na k|o nc na k v ttl tags|k|tag|visits|[k]];
      cbn [run_operation run_goroutine].
    + unfold Get. destruct (data dc !! k) as [item|]; [|done].
      by destruct (IsExpired ne item).
    + apply Set_Deletes.
    + unfold Delete. by destruct (data dc !! k).
    + apply InvalidateByTag_stats.
    + apply cleanup_stats.
    + unfold Delete. by destruct (data dc !! k).
  - intros order. apply evictLRU_Deletes.
  - intros now_expiry now_access key. unfold Get.
    destruct (data dc !! key) as [item|]; [|by split; [|right]].
    destruct (IsExpired now_expiry item) eqn:He; [|by split; [|right]].
    split; [done|]. left. eauto.
Qed.

End EngineProperties.

(** * The engine on concrete caches *)

Lemma ex_empty_coherent max_size : coherent (ex_empty max_size).
Proof.
  split; [|split].
  - intros t k. done.
  - intros t. done.
  - apply map_Forall_empty.
Qed.

Lemma ex_three_coherent : coherent ex_three.
Proof. repeat apply Set_coherent. apply ex_empty_coherent. Qed.

(** C1.  Three entries carry the tag ["t"].  [InvalidateByTag "t"] removes
    two of them and returns 2; the entry ["k2"] stays in the store with its
    tag, a get of ["k2"] afterwards is a hit, and the tag is gone from the
    tag index. *)
Theorem InvalidateByTag_three_keys :
  tagIndex ex_three !! "t" = Some ["k1"; "k2"; "k3"]
  /\ Forall (fun k => exists e, data ex_three !! k = Some e /\ "t" ∈ Tags e)
       ["k1"; "k2"; "k3"]
  /\ (InvalidateByTag "t" ex_three).1 = 2
  /\ data (InvalidateByTag "t" ex_three).2 !! "k2" =
       Some (mkCacheItem "k2" "v2" 0 2 2 1 ["t"] ∅)
  /\ (Get 5 5 "k2" (InvalidateByTag "t" ex_three).2).1.1 =
       Some (mkCacheItem "k2" "v2" 0 2 5 2 ["t"] ∅)
  /\ Hits (stats (Get 5 5 "k2" (InvalidateByTag "t" ex_three).2).1.2) = 1
  /\ tagIndex (InvalidateByTag "t" ex_three).2 !! "t" = None.
Proof.
  split; [by vm_compute|].
  split.
  { repeat constructor; eexists; (split; [by vm_compute|]);
      apply list_elem_of_here. }
  repeat split; by vm_compute.
Qed.

(** C2.  The cache of three entries with the tag ["t"] satisfies the
    consistency invariant; after [InvalidateByTag "t"] the entry ["k2"] is
    in the store with the tag ["t"] and the tag index has no bucket for
    ["t"], so the invariant does not hold. *)
Theorem InvalidateByTag_breaks_consistent :
  consistent ex_three
  /\ ~ store_indexed (data (InvalidateByTag "t" ex_three).2)
         (tagIndex (InvalidateByTag "t" ex_three).2)
  /\ ~ consistent (InvalidateByTag "t" ex_three).2.
Proof.
  split; [apply coherent_consistent, ex_three_coherent|].
  assert (~ store_indexed (data (InvalidateByTag "t" ex_three).2)
            (tagIndex (InvalidateByTag "t" ex_three).2)) as Hno.
  { intros H.
    specialize (H "k2" (mkCacheItem "k2" "v2" 0 2 2 1 ["t"] ∅) "t").
    assert ("k2" ∈ bucket (tagIndex (InvalidateByTag "t" ex_three).2) "t")
      as Hin.
    { apply H; [by vm_compute | apply list_elem_of_here]. }
    vm_compute in Hin. by apply elem_of_nil in Hin. }
  split; [done|]. by intros [H _].
Qed.

Lemma ex_full_range_order order :
  order = ["a"; "b"] \/ order = ["b"; "a"] -> range_order (data ex_full) order.
Proof.
  unfold range_order.
  assert ((map_to_list (data ex_full)).*1 = ["a"; "b"]) as -> by by vm_compute.
  intros [->| ->]; [done | apply Permutation_swap].
Qed.

(** C3.  The cache holds ["a"] and ["b"] and is full.  A set of the
    existing key ["b"] runs an eviction, in either order of the scan: the
    entry ["a"] is evicted, the evictions counter advances, and the store
    shrinks from two entries to one.  A set of the existing key ["a"]
    evicts ["a"] itself before it stores the new entry: the evictions
    counter advances as well. *)
Theorem Set_existing_key_at_capacity :
  size (data ex_full) = 2
  /\ MaxSize (config ex_full) = 2%Z
  /\ is_Some (data ex_full !! "a")
  /\ is_Some (data ex_full !! "b")
  /\ Forall
       (fun order =>
          range_order (data ex_full) order
          /\ (let dc' := Set_ order 3 3 "b" "vb2" 0 ["z"] ex_full in
              Evictions (stats dc') = S (Evictions (stats ex_full))
              /\ data dc' !! "a" = None
              /\ size (data dc') = 1)
          /\ (let dc' := Set_ order 3 3 "a" "va2" 0 ["z"] ex_full in
              Evictions (stats dc') = S (Evictions (stats ex_full))
              /\ size (data dc') = 2))
       [["a"; "b"]; ["b"; "a"]].
Proof.
  split; [by vm_compute|]. split; [by vm_compute|].
  split; [by vm_compute; eauto|]. split; [by vm_compute; eauto|].
  repeat constructor; try (apply ex_full_range_order; by eauto);
    by vm_compute.
Qed.

(** C4.  An entry with a TTL of one second is read two seconds after its
    creation: [Get] reports a miss and starts [Delete] in a goroutine;
    when the goroutine has run, the entry is removed and the deletes
    counter has advanced, with no delete asked for by a client.  A sweep
    at the same clock reading removes the entry as well and leaves the
    deletes counter as it is. *)
Theorem Get_expired_advances_Deletes :
  (Get 2000000000 2000000000 "k" ex_ttl).1.1 = None
  /\ (Get 2000000000 2000000000 "k" ex_ttl).2 = [GoDelete "k"]
  /\ (let dc' :=
        fold_right run_goroutine (Get 2000000000 2000000000 "k" ex_ttl).1.2
          (Get 2000000000 2000000000 "k" ex_ttl).2 in
      data dc' !! "k" = None
      /\ Deletes (stats dc') = S (Deletes (stats ex_ttl))
      /\ Deletes (stats dc') <> Deletes (stats ex_ttl))
  /\ (let dc' := cleanup [("k", 2000000000%Z)] ex_ttl in
      data dc' !! "k" = None
      /\ Deletes (stats dc') = Deletes (stats ex_ttl)).
Proof. repeat split; by vm_compute. Qed.

(** C5, counterexample.  A cache of capacity zero holds zero entries:
    the set of a new key evicts nothing and the store has one entry.  A
    cache of capacity one holds one entry, under the empty key: the set of
    a new key runs [evictLRU], which evicts nothing; the evictions counter
    stays and the store has two entries. *)
Lemma Set_at_capacity_without_eviction :
  (let dc := ex_empty 0 in
   let dc' := Set_ [] 1 1 "a" "va" 0 [] dc in
   Z.of_nat (size (data dc)) = MaxSize (config dc)
   /\ data dc !! "a" = None
   /\ Evictions (stats dc') = Evictions (stats dc)
   /\ size (data dc') = 1
   /\ (Z.of_nat (size (data dc')) > MaxSize (config dc'))%Z)
  /\ Z.of_nat (size (data ex_empty_key)) = MaxSize (config ex_empty_key)
  /\ data ex_empty_key !! "a" = None
  /\ range_order (data ex_empty_key) [EmptyString]
  /\ (let dc' := Set_ [EmptyString] 2 2 "a" "va" 0 [] ex_empty_key in
      Evictions (stats dc') = Evictions (stats ex_empty_key)
      /\ is_Some (data dc' !! EmptyString)
      /\ size (data dc') = 2
      /\ (Z.of_nat (size (data dc')) > MaxSize (config dc'))%Z).
Proof.
  split; [repeat split; by vm_compute|].
  split; [by vm_compute|]. split; [by vm_compute|].
  split.
  { unfold range_order.
    by assert ((map_to_list (data ex_empty_key)).*1 = [EmptyString]) as ->
      by by vm_compute. }
  repeat split; try by vm_compute. vm_compute. eauto.
Qed.


(** C8, counterexample.  A set with the tag list [["a"; "a"]] puts the key
    twice into the bucket of ["a"]: two entries for one distinct tag.  The
    engine tells an entry that lists a tag twice from one that lists it
    once: with ["k2"] listing ["t"] twice, [InvalidateByTag "t"] removes
    all three entries of the tag; with ["k2"] listing it once, it removes
    two. *)
Lemma Set_duplicate_tag_adds_key_twice :
  (let dc' := Set_ [] 1 1 "k" "v" 0 ["a"; "a"] (ex_empty 10) in
   tagIndex (ex_empty 10) = ∅
   /\ tagIndex dc' = {[ "a" := ["k"; "k"] ]}
   /\ occ "k" (bucket (tagIndex dc') "a") = 2
   /\ occ "k" (bucket (tagIndex dc') "a") <> 1)
  /\ tagIndex ex_dup !! "t" = Some ["k1"; "k2"; "k2"; "k3"]
  /\ (InvalidateByTag "t" ex_dup).1 = 3
  /\ (InvalidateByTag "t" ex_three).1 = 2.
Proof. repeat split; by vm_compute. Qed.

(** ** The end-to-end scenarios of the specification *)

(** Scenario 1: capacity two; after a get of ["a"], the set of ["c"]
    evicts ["b"], in either order of the scan. *)
Example scenario_lru_eviction :
  let dc2 := Set_ [] 2 2 "b" "2" 60000000000 []
               (Set_ [] 1 1 "a" "1" 60000000000 [] (ex_empty 2)) in
  let dc3 := (Get 3 3 "a" dc2).1.2 in
  Value <$> (Get 3 3 "a" dc2).1.1 = Some "1"
  /\ Forall
       (fun order =>
          let dc4 := Set_ order 4 4 "c" "3" 60000000000 [] dc3 in
          (Get 5 5 "b" dc4).1.1 = None
          /\ is_Some (Get 5 5 "a" dc4).1.1
          /\ Evictions (stats dc4) = 1
          /\ TotalItems (stats dc4) = 2)
       [["a"; "b"]; ["b"; "a"]].
Proof.
  split; [by vm_compute|].
  repeat constructor; try by vm_compute.
  all: vm_compute; eauto.
Qed.

(** Scenario 2: two entries share a tag; the invalidation of the tag
    removes both and empties the tag index. *)
Example scenario_invalidate_two :
  let dc :=
    Set_ [] 2 2 "u:2" "B" 30000000000 ["users"; "user:2"]
      (Set_ [] 1 1 "u:1" "A" 30000000000 ["users"; "user:1"] (ex_empty 10)) in
  (InvalidateByTag "users" dc).1 = 2
  /\ (Get 3 3 "u:1" (InvalidateByTag "users" dc).2).1.1 = None
  /\ (Get 3 3 "u:2" (InvalidateByTag "users" dc).2).1.1 = None
  /\ tagIndex (InvalidateByTag "users" dc).2 = ∅.
Proof. repeat split; by vm_compute. Qed.

(** Scenario 3: an entry with a TTL of one second is read after a second
    and a half; the get misses, and the removal it starts brings the items
    gauge to zero. *)
Example scenario_lazy_expiry :
  let dc := Set_ [] 0 0 "k" "v" Second [] (ex_empty 10) in
  (Get 1500000000 1500000000 "k" dc).1.1 = None
  /\ TotalItems
       (stats (fold_right run_goroutine (Get 1500000000 1500000000 "k" dc).1.2
                 (Get 1500000000 1500000000 "k" dc).2)) = 0.
Proof. repeat split; by vm_compute. Qed.

(** Scenario 5: a second set of the key replaces its tags. *)
Example scenario_replace_tags :
  let dc :=
    Set_ [] 2 2 "k" "v2" 0 ["t2"] (Set_ [] 1 1 "k" "v1" 0 ["t1"] (ex_empty 10)) in
  (InvalidateByTag "t1" dc).1 = 0
  /\ Value <$> (Get 3 3 "k" (InvalidateByTag "t1" dc).2).1.1 = Some "v2".
Proof. repeat split; by vm_compute. Qed.

(** Scenario 6: the invalidation of a tag that no entry has. *)
Example scenario_invalidate_absent :
  InvalidateByTag "does-not-exist" ex_three = (0, ex_three).
Proof. by vm_compute. Qed.

(** ** Instances of the theorems *)

Lemma IsExpired_spec_witness :
  let item := mkCacheItem "k" "v" 0 0 0 1 ["t"] ∅ in
  TTL item = 0%Z
  /\ IsExpired 9000000000000000000 item = false
  /\ (exists item', (Get 9000000000000000000 9000000000000000000 "k"
                       ex_forever).1.1 = Some item')
  /\ data (cleanup [("k", 9000000000000000000%Z)] ex_forever) !! "k" = Some item.
Proof.
  intros item. split; [reflexivity|].
  destruct (IsExpired_spec 9000000000000000000 item) as [_ H].
  destruct (H eq_refl) as (H1 & H2 & H3).
  split; [exact H1|]. split.
  - destruct (H2 9000000000000000000%Z "k" ex_forever) as [item' ->];
      [by vm_compute | by exists item'].
  - apply H3. by vm_compute.
Defined.


Lemma Get_spec_witness :
  (min_int64 <= 1 < max_int64)%Z
  /\ exists item',
       (Get 5 6 "k" ex_forever).1.1 = Some item'
       /\ AccessCount item' = 2%Z
       /\ AccessedAt item' = 6%Z.
Proof.
  assert (min_int64 <= 1 < max_int64)%Z as Hrange by by vm_compute.
  split; [done|].
  pose proof (@Get_spec string 5 6 "k" ex_forever) as H.
  destruct (Get 5 6 "k" ex_forever) as [[result dc'] started].
  destruct H as (_ & _ & _ & _ & _ & _ & _ & [H|[H|H]]).
  - exfalso. destruct H as [H _]. by vm_compute in H.
  - exfalso. destruct H as (item & Hk & Hexp & _).
    vm_compute in Hk. injection Hk as <-. by vm_compute in Hexp.
  - destruct H as (item & item' & Hk & _ & Hr & Hat & _ & Hinc & _).
    exists item'. split; [done|].
    vm_compute in Hk. injection Hk as <-. split; [|done].
    by apply Hinc.
Defined.

Lemma Delete_spec_witness :
  let item := mkCacheItem "k1" "v1" 0 1 1 1 ["t"] ∅ in
  data ex_three !! "k1" = Some item
  /\ data ex_three !! "k9" = None
  /\ index_sound (data ex_three) (tagIndex ex_three)
  /\ (Delete "k1" ex_three).1 = true
  /\ Deletes (stats (Delete "k1" ex_three).2) = S (Deletes (stats ex_three))
  /\ (forall t, "k1" ∉ bucket (tagIndex (Delete "k1" ex_three).2) t)
  /\ Delete "k1" (Delete "k1" ex_three).2 = (false, (Delete "k1" ex_three).2)
  /\ Delete "k9" ex_three = (false, ex_three).
Proof.
  intros item.
  assert (data ex_three !! "k1" = Some item) as Hk by by vm_compute.
  assert (data ex_three !! "k9" = None) as Hn by by vm_compute.
  assert (index_sound (data ex_three) (tagIndex ex_three)) as Hs.
  { apply index_exact_sound, ex_three_coherent. }
  destruct (Delete_spec "k1" ex_three) as [_ H].
  destruct (H item Hk)
    as (H1 & _ & _ & _ & _ & _ & H7 & _ & _ & H10 & _ & _ & _ & _ & _ & _ & _
        & H18).
  destruct (Delete_spec "k9" ex_three) as [H0 _].
  split; [done|]. split; [done|]. split; [done|]. split; [done|].
  split; [done|]. split; [by apply H7|]. split; [done | by apply H0].
Defined.

Lemma Set_new_key_at_capacity_witness :
  let dc' := Set_ ["a"; "b"] 3 3 "c" "vc" 0 ["z"] ex_full in
  Z.of_nat (size (data ex_full)) = MaxSize (config ex_full)
  /\ (0 < MaxSize (config ex_full))%Z
  /\ data ex_full !! EmptyString = None
  /\ data ex_full !! "c" = None
  /\ range_order (data ex_full) ["a"; "b"]
  /\ exists victim vitem,
       data ex_full !! victim = Some vitem
       /\ data dc' !! victim = None
       /\ Evictions (stats dc') = S (Evictions (stats ex_full))
       /\ Deletes (stats dc') = Deletes (stats ex_full)
       /\ size (data dc') = size (data ex_full).
Proof.
  intros dc'.
  assert (Z.of_nat (size (data ex_full)) = MaxSize (config ex_full)) as H1
    by by vm_compute.
  assert (0 < MaxSize (config ex_full))%Z as H2 by by vm_compute.
  assert (data ex_full !! EmptyString = None) as H3 by by vm_compute.
  assert (data ex_full !! "c" = None) as H4 by by vm_compute.
  assert (range_order (data ex_full) ["a"; "b"]) as H5.
  { apply ex_full_range_order. by left. }
  destruct (Set_new_key_at_capacity ["a"; "b"] 3 3 "c" "vc" 0 ["z"] ex_full
              H1 H2 H3 H4 H5)
    as (victim & vitem & Hv & _ & _ & Hgone & _ & _ & _ & _ & He & Hd & Hsz & _).
  repeat (split; [done|]). exists victim, vitem. done.
Defined.

Lemma Set_tag_index_gain_witness :
  let dc' := Set_ [] 4 4 "k4" "v4" 0 ["a"; "a"; "b"] ex_three in
  index_sound (data ex_three) (tagIndex ex_three)
  /\ (forall t, occ "k4" (bucket (tagIndex dc') t) = occ t ["a"; "a"; "b"])
  /\ (forall t, "k4" ∈ bucket (tagIndex dc') t <-> t ∈ ["a"; "a"; "b"]).
Proof.
  intros dc'.
  assert (index_sound (data ex_three) (tagIndex ex_three)) as Hs.
  { apply index_exact_sound, ex_three_coherent. }
  destruct (Set_tag_index_gain [] 4 4 "k4" "v4" 0 ["a"; "a"; "b"] ex_three Hs)
    as (H1 & H2 & _).
  done.
Defined.

(** * Further properties of the engine *)

Section MoreEngineProperties.
Context {V : Type}.

Implicit Types (dc : DistroCache V) (item : CacheItem V).
Implicit Types (d : gmap string (CacheItem V)).
Implicit Types (idx : gmap string (list string)).

(** ** What the operations leave alone *)

Lemma evictLRU_stats order dc :
  let s := stats (evictLRU order dc) in
  Hits s = Hits (stats dc) /\ Misses s = Misses (stats dc)
  /\ Sets s = Sets (stats dc) /\ Deletes s = Deletes (stats dc)
  /\ TotalItems s = TotalItems (stats dc)
  /\ AvgAccessTime s = AvgAccessTime (stats dc)
  /\ Evictions (stats dc) <= Evictions s <= S (Evictions (stats dc)).
Proof.
  destruct (evictLRU_cases order dc) as [->|(v & e & _ & _ & _ & ->)];
    cbn; repeat split; lia.
Qed.

Lemma Set_stats order now_created now_accessed key (value : V) ttl tags dc :
  let s := stats (Set_ order now_created now_accessed key value ttl tags dc) in
  Hits s = Hits (stats dc) /\ Misses s = Misses (stats dc)
  /\ Sets s = S (Sets (stats dc)) /\ Deletes s = Deletes (stats dc)
  /\ AvgAccessTime s = AvgAccessTime (stats dc)
  /\ Evictions (stats dc) <= Evictions s <= S (Evictions (stats dc))
  /\ TotalItems s =
       size (data (Set_ order now_created now_accessed key value ttl tags dc)).
Proof.
  unfold Set_. cbn [stats data].
  destruct (_ >=? _)%Z.
  - destruct (evictLRU_stats order dc) as (H1 & H2 & H3 & H4 & H5 & H6 & H7).
    cbn in *. rewrite H1, H2, H3, H4, H6. repeat split; lia.
  - cbn. repeat split; lia.
Qed.

Lemma Set_config order now_created now_accessed key (value : V) ttl tags dc :
  config (Set_ order now_created now_accessed key value ttl tags dc) = config dc.
Proof.
  unfold Set_. cbn [config]. destruct (_ >=? _)%Z; [apply evictLRU_config|done].
Qed.

Lemma Get_stats now_expiry now_access key dc :
  let s := stats (Get now_expiry now_access key dc).1.2 in
  Hits s + Misses s = S (Hits (stats dc) + Misses (stats dc))
  /\ Hits (stats dc) <= Hits s /\ Misses (stats dc) <= Misses s
  /\ Sets s = Sets (stats dc) /\ Deletes s = Deletes (stats dc)
  /\ Evictions s = Evictions (stats dc)
  /\ TotalItems s = TotalItems (stats dc)
  /\ AvgAccessTime s = S (AvgAccessTime (stats dc)).
Proof.
  unfold Get. destruct (data dc !! key) as [item|]; [|cbn; repeat split; lia].
  destruct (IsExpired now_expiry item); cbn; repeat split; lia.
Qed.

Lemma Get_size now_expiry now_access key dc :
  size (data (Get now_expiry now_access key dc).1.2) = size (data dc).
Proof.
  unfold Get. destruct (data dc !! key) as [item|] eqn:Hk; [|done].
  destruct (IsExpired now_expiry item); [done|].
  cbn [fst snd data]. apply map_size_insert_Some. eauto.
Qed.

Lemma Get_config now_expiry now_access key dc :
  config (Get now_expiry now_access key dc).1.2 = config dc.
Proof.
  unfold Get. destruct (data dc !! key) as [item|]; [|done].
  by destruct (IsExpired now_expiry item).
Qed.

Lemma Get_lookup_None now_expiry now_access key dc k :
  data dc !! k = None ->
  data (Get now_expiry now_access key dc).1.2 !! k = None.
Proof.
  intros Hk. unfold Get. destruct (data dc !! key) as [item|] eqn:Hkey; [|done].
  destruct (IsExpired now_expiry item); [done|].
  cbn [fst snd data]. rewrite lookup_insert_ne; [done|]. congruence.
Qed.

Lemma Delete_stats key dc :
  let s := stats (Delete key dc).2 in
  Hits s = Hits (stats dc) /\ Misses s = Misses (stats dc)
  /\ Sets s = Sets (stats dc) /\ Evictions s = Evictions (stats dc)
  /\ AvgAccessTime s = AvgAccessTime (stats dc)
  /\ Deletes (stats dc) <= Deletes s <= S (Deletes (stats dc)).
Proof.
  unfold Delete. destruct (data dc !! key); cbn; repeat split; lia.
Qed.

Lemma Delete_config key dc : config (Delete key dc).2 = config dc.
Proof. unfold Delete. by destruct (data dc !! key). Qed.

Lemma Delete_size key dc : size (data (Delete key dc).2) <= size (data dc).
Proof.
  unfold Delete. destruct (data dc !! key) eqn:Hk; [|done].
  cbn [snd data]. rewrite map_size_delete_Some by eauto. lia.
Qed.

Lemma Delete_lookup_None key dc k :
  data dc !! k = None -> data (Delete key dc).2 !! k = None.
Proof.
  intros Hk. unfold Delete. destruct (data dc !! key); [|done].
  cbn [snd data]. destruct (decide (k = key)) as [->|?].
  - apply lookup_delete_eq.
  - by rewrite lookup_delete_ne.
Qed.

Lemma Delete_gauge key dc :
  TotalItems (stats dc) = size (data dc) ->
  TotalItems (stats (Delete key dc).2) = size (data (Delete key dc).2).
Proof. intros H. unfold Delete. by destruct (data dc !! key). Qed.

Lemma InvalidateByTag_config tag dc :
  config (InvalidateByTag tag dc).2 = config dc.
Proof. unfold InvalidateByTag. by destruct (tagIndex dc !! tag). Qed.

Lemma InvalidateByTag_gauge tag dc :
  TotalItems (stats dc) = size (data dc) ->
  TotalItems (stats (InvalidateByTag tag dc).2) =
  size (data (InvalidateByTag tag dc).2).
Proof. intros H. unfold InvalidateByTag. by destruct (tagIndex dc !! tag). Qed.

Lemma InvalidateByTag_lookup_None tag dc k :
  data dc !! k = None -> data (InvalidateByTag tag dc).2 !! k = None.
Proof.
  intros Hk. destruct (data (InvalidateByTag tag dc).2 !! k) as [e|] eqn:E;
    [|done].
  apply InvalidateByTag_data in E. congruence.
Qed.

Lemma InvalidateByTag_AvgAccessTime tag dc :
  AvgAccessTime (stats (InvalidateByTag tag dc).2) = AvgAccessTime (stats dc).
Proof. unfold InvalidateByTag. by destruct (tagIndex dc !! tag). Qed.

Lemma cleanup_config (visits : list (string * Z)) dc :
  config (cleanup visits dc) = config dc.
Proof. unfold cleanup. by destruct (fold_left _ _ _). Qed.

Lemma cleanup_gauge (visits : list (string * Z)) dc :
  TotalItems (stats (cleanup visits dc)) = size (data (cleanup visits dc)).
Proof. unfold cleanup. by destruct (fold_left _ _ _). Qed.

Lemma cleanup_AvgAccessTime (visits : list (string * Z)) dc :
  AvgAccessTime (stats (cleanup visits dc)) = AvgAccessTime (stats dc).
Proof. unfold cleanup. by destruct (fold_left _ _ _). Qed.

Lemma cleanup_shrinks (visits : list (string * Z)) dc :
  size (data (cleanup visits dc)) <= size (data dc)
  /\ forall k, data dc !! k = None -> data (cleanup visits dc) !! k = None.
Proof.
  apply (cleanup_invariant
           (fun d _ => size d <= size (data dc)
                       /\ forall k, data dc !! k = None -> d !! k = None));
    [|done].
  intros d idx key item Hk [Hsz Hnone]. split.
  - rewrite map_size_delete_Some by eauto. lia.
  - intros k Hd. destruct (decide (k = key)) as [->|?].
    + apply lookup_delete_eq.
    + rewrite lookup_delete_ne by done. by apply Hnone.
Qed.

Lemma run_operation_config (op : operation V) dc :
  config (run_operation op dc) = config dc.
Proof.
  destruct op as [ne na k|o nc na k v ttl tags|k|tag|visits|[k]];
    cbn [run_operation run_goroutine].
  - apply Get_config.
  - apply Set_config.
  - apply Delete_config.
  - apply InvalidateByTag_config.
  - apply cleanup_config.
  - apply Delete_config.
Qed.

End MoreEngineProperties.

Section EngineLaws.
Context {V : Type}.

Implicit Types (dc : DistroCache V) (item : CacheItem V).
Implicit Types (d : gmap string (CacheItem V)).
Implicit Types (idx : gmap string (list string)).

(** ** Round trips *)

Lemma Set_lookup order now_created now_accessed key (value : V) ttl tags dc :
  data (Set_ order now_created now_accessed key value ttl tags dc) !! key =
  Some (mkCacheItem key value ttl now_created now_accessed 1%Z tags ∅).
Proof. unfold Set_. cbn [data]. apply lookup_insert_eq. Qed.

(** X1.  A get of a key after a set of the key returns what was set, with
    an access count of two, and counts a hit, provided the TTL is zero or
    has not run out at the clock reading of the get; otherwise the get
    returns nothing, counts a miss and starts the removal. *)
Theorem Set_then_Get order now_created now_accessed key (value : V) ttl tags dc
    now_expiry now_access :
  let dc1 := Set_ order now_created now_accessed key value ttl tags dc in
  let '(result, dc2, started) := Get now_expiry now_access key dc1 in
  ((ttl = 0 \/ now_expiry - now_created <= ttl)%Z ->
   result = Some (mkCacheItem key value ttl now_created now_access 2%Z tags ∅)
   /\ Hits (stats dc2) = S (Hits (stats dc))
   /\ Misses (stats dc2) = Misses (stats dc)
   /\ started = [])
  /\ ((ttl <> 0 /\ now_expiry - now_created > ttl)%Z ->
      result = None
      /\ Hits (stats dc2) = Hits (stats dc)
      /\ Misses (stats dc2) = S (Misses (stats dc))
      /\ started = [GoDelete key]).
Proof.
  cbv zeta.
  pose proof (Set_stats order now_created now_accessed key value ttl tags dc)
    as (Hh & Hm & _).
  pose proof (Set_lookup order now_created now_accessed key value ttl tags dc)
    as Hk.
  cbv zeta in Hh, Hm.
  remember (Set_ order now_created now_accessed key value ttl tags dc) as dc1
    eqn:E.
  clear E. unfold Get. rewrite Hk.
  destruct (IsExpired now_expiry _) eqn:He.
  - apply IsExpired_true in He. cbn in He. split; [lia|].
    intros _. cbn. by rewrite Hh, Hm.
  - assert (~ (ttl <> 0 /\ now_expiry - now_created > ttl)%Z) as Hne.
    { intros H. apply (IsExpired_true now_expiry
        (mkCacheItem key value ttl now_created now_accessed 1%Z tags ∅)) in H.
      congruence. }
    split; [|done]. intros _. cbn. by rewrite Hh, Hm.
Qed.

(** ** The items gauge *)

(** In every cache that the engine can reach, the items gauge is the
    number of entries in the store. *)
Lemma reachable_gauge dc :
  reachable dc -> TotalItems (stats dc) = size (data dc).
Proof.
  induction 1 as [cfg|op dc _ IH]; [done|].
  destruct op as [ne na k|o nc na k v ttl tags|k|tag|visits|[k]];
    cbn [run_operation run_goroutine].
  - rewrite Get_size. by destruct (Get_stats ne na k dc) as (_&_&_&_&_&_&->&_).
  - apply Set_stats.
  - by apply Delete_gauge.
  - by apply InvalidateByTag_gauge.
  - apply cleanup_gauge.
  - by apply Delete_gauge.
Qed.

(** ** Counting operations *)

Lemma count_ops_cons (p : operation V -> bool) op ops :
  count_ops p (op :: ops) = (if p op then 1 else 0) + count_ops p ops.
Proof. unfold count_ops. simpl. by destruct (p op). Qed.

(** X2.  Over every sequence of operations, the sets counter advances by
    the number of sets, hits and misses together by the number of gets
    (as does the number of access-time samples), the deletes counter by
    at most the number of runs of [Delete], the evictions counter by at
    most the number of sets, and no counter goes down. *)
Theorem counters_count_operations (ops : list (operation V)) dc :
  let s := stats (run_operations ops dc) in
  Sets s = Sets (stats dc) + count_ops is_OpSet ops
  /\ Hits s + Misses s =
       Hits (stats dc) + Misses (stats dc) + count_ops is_OpGet ops
  /\ AvgAccessTime s = AvgAccessTime (stats dc) + count_ops is_OpGet ops
  /\ Hits (stats dc) <= Hits s
  /\ Misses (stats dc) <= Misses s
  /\ Deletes (stats dc) <= Deletes s
       <= Deletes (stats dc) + count_ops is_Delete_run ops
  /\ Evictions (stats dc) <= Evictions s
       <= Evictions (stats dc) + count_ops is_OpSet ops.
Proof.
  revert dc. induction ops as [|op ops IH]; intros dc.
  - cbn. unfold count_ops. cbn. repeat split; lia.
  - unfold run_operations. cbn [fold_left].
    specialize (IH (run_operation op dc)). unfold run_operations in IH.
    cbv zeta in IH. destruct IH as (I1 & I2 & I3 & I4 & I5 & I6 & I7).
    cbv zeta. rewrite !count_ops_cons.
    destruct op as [ne na k|o nc na k v ttl tags|k|tag|visits|[k]];
      cbn [run_operation run_goroutine is_OpSet is_OpGet is_Delete_run] in *.
    + destruct (Get_stats ne na k dc) as (G1&G2&G3&G4&G5&G6&G7&G8).
      cbv zeta in *. repeat split; lia.
    + destruct (Set_stats o nc na k v ttl tags dc) as (G1&G2&G3&G4&G5&G6&G7).
      cbv zeta in *. repeat split; lia.
    + destruct (Delete_stats k dc) as (G1&G2&G3&G4&G5&G6).
      cbv zeta in *. repeat split; lia.
    + destruct (InvalidateByTag_stats tag dc) as (G1&G2&G3&G4&G5).
      pose proof (InvalidateByTag_AvgAccessTime tag dc).
      cbv zeta in *. repeat split; lia.
    + destruct (cleanup_stats visits dc) as (G1&G2&G3&G4&G5).
      pose proof (cleanup_AvgAccessTime visits dc).
      cbv zeta in *. repeat split; lia.
    + destruct (Delete_stats k dc) as (G1&G2&G3&G4&G5&G6).
      cbv zeta in *. repeat split; lia.
Qed.

(** ** The invariant that holds in every reachable cache *)

Lemma index_sound_live d idx :
  index_sound d idx -> keys_agree d -> index_live d idx.
Proof.
  intros Hs Ha t k Hin. apply occ_pos in Hin.
  specialize (Hs t k). unfold tags_of in Hs.
  destruct (d !! k) as [e|] eqn:Hk; simpl in Hs; [|lia].
  exists e. split; [done|]. split; [by apply (Ha k e)|]. apply occ_pos. lia.
Qed.

(** X3.  In every cache that the engine can reach, every key in a bucket
    of the tag index is the key of a stored entry that lists the tag, no
    bucket is empty, and every entry is stored under its own key. *)
Theorem reachable_index_live dc :
  reachable dc ->
  index_live (data dc) (tagIndex dc)
  /\ no_empty_bucket (tagIndex dc)
  /\ keys_agree (data dc).
Proof.
  intros (Hs & Hn & Ha)%reachable_sound.
  split; [by apply index_sound_live | done].
Qed.

Lemma run_operations_coherent (ops : list (operation V)) dc :
  Forall (fun op => is_OpInvalidateByTag op = false) ops ->
  coherent dc -> coherent (run_operations ops dc).
Proof.
  revert dc. induction ops as [|op ops IH]; intros dc Hops Hc; [done|].
  apply Forall_cons in Hops as [Hop Hops].
  unfold run_operations. cbn [fold_left]. apply IH; [done|].
  apply run_operation_coherent; [|done].
  intros tag ->. done.
Qed.

(** X4.  Started from a new cache, every sequence of operations without
    [InvalidateByTag] ends in a cache that satisfies the consistency
    invariant: every tag of a stored entry has the entry's key in its
    bucket, every key in a bucket belongs to a stored entry with the tag,
    and no bucket is empty. *)
Theorem consistent_without_InvalidateByTag (ops : list (operation V)) cfg :
  Forall (fun op => is_OpInvalidateByTag op = false) ops ->
  consistent (run_operations ops (NewDistroCache cfg)).
Proof.
  intros Hops. apply coherent_consistent, run_operations_coherent; [done|].
  split; [|split].
  - intros t k. done.
  - intros t. done.
  - apply map_Forall_empty.
Qed.

(** ** The capacity bound *)

Lemma Set_lookup_ne order now_created now_accessed key (value : V) ttl tags dc k :
  k <> key -> data dc !! k = None ->
  data (Set_ order now_created now_accessed key value ttl tags dc) !! k = None.
Proof.
  intros Hne Hk. unfold Set_. cbn [data]. rewrite lookup_insert_ne by done.
  destruct (_ >=? _)%Z; [|done].
  destruct (evictLRU_cases order dc) as [->|(v & e & _ & _ & _ & ->)]; [done|].
  cbn [data]. destruct (decide (k = v)) as [->|?].
  - apply lookup_delete_eq.
  - by rewrite lookup_delete_ne.
Qed.

(** X5.  With a capacity of at least one, every operation keeps the store
    within the capacity and free of the empty key, given that a set comes
    with a key that is not empty and scans the store in a range order. *)
Theorem capacity_bound_kept (op : operation V) dc :
  (0 < MaxSize (config dc))%Z ->
  (Z.of_nat (size (data dc)) <= MaxSize (config dc))%Z ->
  data dc !! EmptyString = None ->
  routed op dc ->
  let dc' := run_operation op dc in
  (Z.of_nat (size (data dc')) <= MaxSize (config dc'))%Z
  /\ data dc' !! EmptyString = None
  /\ MaxSize (config dc') = MaxSize (config dc).
Proof.
  intros Hpos Hcap Hempty Hop. cbv zeta.
  rewrite run_operation_config.
  destruct op as [ne na k|o nc na k v ttl tags|k|tag|visits|[k]];
    cbn [run_operation run_goroutine routed] in *.
  - rewrite Get_size. split; [done|]. split; [|done].
    by apply Get_lookup_None.
  - destruct Hop as [Horder Hkey]. split; [|split; [|done]].
    + unfold Set_. cbn [data].
      destruct (Z.geb_spec (Z.of_nat (size (data dc))) (MaxSize (config dc)))
        as [Hfull|Hfree].
      * assert (data dc <> ∅) as Hne.
        { intros E. rewrite E, map_size_empty in Hfull. lia. }
        destruct (evictLRU_oldest o dc Hempty Horder Hne)
          as (victim & vitem & Hv & _ & ->).
        cbn [data].
        pose proof (map_size_insert k
          (mkCacheItem k v ttl nc na 1%Z tags ∅) (delete victim (data dc)))
          as Hins.
        rewrite map_size_delete_Some in Hins by eauto.
        assert (size (data dc) <> 0) by (by apply map_size_non_empty_iff).
        destruct (delete victim (data dc) !! k); unfold id in Hins; lia.
      * pose proof (map_size_insert k
          (mkCacheItem k v ttl nc na 1%Z tags ∅) (data dc)) as Hins.
        destruct (data dc !! k); unfold id in Hins; lia.
    + apply Set_lookup_ne; [congruence | done].
  - pose proof (Delete_size k dc). split; [lia|]. split; [|done].
    by apply Delete_lookup_None.
  - pose proof (InvalidateByTag_count tag dc). split; [lia|]. split; [|done].
    by apply InvalidateByTag_lookup_None.
  - destruct (cleanup_shrinks visits dc) as [Hsz Hnone].
    split; [lia|]. split; [by apply Hnone | done].
  - pose proof (Delete_size k dc). split; [lia|]. split; [|done].
    by apply Delete_lookup_None.
Qed.

End EngineLaws.

Section TagIndexLaws.

Implicit Types (idx : gmap string (list string)).

(** ** Adding and removing a key's tags *)

Lemma occ_cons x y (l : list string) :
  occ x (y :: l) = (if decide (y = x) then 1 else 0) + occ x l.
Proof. done. Qed.

Lemma lookup_addToTagIndex key tags idx t :
  addToTagIndex key tags idx !! t =
  if decide (t ∈ tags)
  then Some (bucket idx t ++ replicate (occ t tags) key)
  else idx !! t.
Proof.
  revert idx. induction tags as [|tag tags IH]; intros idx.
  - rewrite decide_False by apply not_elem_of_nil. done.
  - rewrite addToTagIndex_cons, IH, bucket_insert, occ_cons.
    destruct (decide (t = tag)) as [->|Hne].
    + rewrite (decide_True (P := tag = tag)) by done.
      rewrite (decide_True (P := tag ∈ tag :: tags)) by apply list_elem_of_here.
      destruct (decide (tag ∈ tags)) as [Hin|Hin].
      * by rewrite <- app_assoc.
      * rewrite lookup_insert_eq. apply occ_zero in Hin. by rewrite Hin.
    + rewrite (decide_False (P := tag = t)) by done.
      destruct (decide (t ∈ tags)) as [Hin|Hin].
      * rewrite decide_True; [done|]. by apply list_elem_of_further.
      * rewrite decide_False.
        -- by rewrite lookup_insert_ne.
        -- intros [?|?]%elem_of_cons; done.
Qed.

Lemma lookup_removeFromTagIndex key tags idx t :
  removeFromTagIndex key tags idx !! t =
  if decide (t ∈ tags)
  then match Nat.iter (occ t tags) (remove_first key) (bucket idx t) with
       | [] => None
       | l => Some l
       end
  else idx !! t.
Proof.
  revert idx. induction tags as [|tag tags IH]; intros idx.
  - rewrite decide_False by apply not_elem_of_nil. done.
  - rewrite removeFromTagIndex_cons, IH, bucket_removeFromTag,
      lookup_removeFromTag, occ_cons.
    destruct (decide (t = tag)) as [->|Hne].
    + rewrite (decide_True (P := tag = tag)) by done.
      rewrite (decide_True (P := tag ∈ tag :: tags)) by apply list_elem_of_here.
      destruct (decide (tag ∈ tags)) as [Hin|Hin].
      * by rewrite <- Nat.iter_succ_r.
      * apply occ_zero in Hin. by rewrite Hin.
    + rewrite (decide_False (P := tag = t)) by done.
      destruct (decide (t ∈ tags)) as [Hin|Hin].
      * rewrite decide_True; [done|]. by apply list_elem_of_further.
      * rewrite decide_False; [done|].
        intros [?|?]%elem_of_cons; done.
Qed.

Lemma remove_first_app_fresh key (l l' : list string) :
  key ∉ l -> remove_first key (l ++ key :: l') = l ++ l'.
Proof.
  induction l as [|x l IH]; intros Hl; simpl.
  - rewrite remove_first_cons. by rewrite decide_True.
  - apply not_elem_of_cons in Hl as [Hne Hl].
    rewrite remove_first_cons. rewrite decide_False by congruence.
    by rewrite IH.
Qed.

Lemma remove_first_replicate key n (l : list string) :
  key ∉ l -> Nat.iter n (remove_first key) (l ++ replicate n key) = l.
Proof.
  intros Hl. induction n as [|n IH].
  - apply app_nil_r.
  - rewrite Nat.iter_succ_r. cbn [replicate].
    by rewrite remove_first_app_fresh.
Qed.

(** On a tag index without empty buckets that does not hold [key],
    [removeFromTagIndex] undoes [addToTagIndex] for the same key and
    tags, whatever the tag list, repeated tags included. *)
Lemma addToTagIndex_removeFromTagIndex key tags idx :
  no_empty_bucket idx ->
  (forall t, key ∉ bucket idx t) ->
  removeFromTagIndex key tags (addToTagIndex key tags idx) = idx.
Proof.
  intros Hn Hfresh. apply map_eq. intros t.
  rewrite lookup_removeFromTagIndex.
  destruct (decide (t ∈ tags)) as [Hin|Hin].
  - unfold bucket at 1. rewrite lookup_addToTagIndex, decide_True by done.
    simpl. rewrite remove_first_replicate by apply Hfresh.
    unfold bucket. destruct (idx !! t) as [[|k l]|] eqn:Ht; simpl; try done.
    by destruct (Hn t).
  - rewrite lookup_addToTagIndex. by rewrite decide_False.
Qed.

End TagIndexLaws.

Section EngineLaws2.
Context {V : Type}.

Implicit Types (dc : DistroCache V) (item : CacheItem V).
Implicit Types (d : gmap string (CacheItem V)).
Implicit Types (idx : gmap string (list string)).

(** X6.  Below capacity, the set of a new key followed by the delete of the
    key gives back the store and the tag index as they were, on a cache
    whose tag index is sound and has no empty bucket; the delete returns
    true and the gauge shows the size of the store again. *)
Theorem Set_then_Delete order now_created now_accessed key (value : V) ttl tags
    dc :
  (Z.of_nat (size (data dc)) < MaxSize (config dc))%Z ->
  data dc !! key = None ->
  index_sound (data dc) (tagIndex dc) ->
  no_empty_bucket (tagIndex dc) ->
  let r := Delete key (Set_ order now_created now_accessed key value ttl tags dc) in
  r.1 = true
  /\ data r.2 = data dc
  /\ tagIndex r.2 = tagIndex dc
  /\ config r.2 = config dc
  /\ TotalItems (stats r.2) = size (data dc)
  /\ Sets (stats r.2) = S (Sets (stats dc))
  /\ Deletes (stats r.2) = S (Deletes (stats dc)).
Proof.
  intros Hlt Hnew Hs Hn. cbv zeta. unfold Set_.
  assert ((Z.of_nat (size (data dc)) >=? MaxSize (config dc))%Z = false) as ->.
  { rewrite Z.geb_leb. apply Z.leb_gt. lia. }
  rewrite Hnew. unfold Delete. cbn [data]. rewrite lookup_insert_eq.
  cbn [fst snd data tagIndex stats config Tags].
  rewrite delete_insert_eq, delete_id by done.
  split; [done|]. split; [done|]. split.
  - apply addToTagIndex_removeFromTagIndex; [done|].
    intros t. by apply (index_sound_absent (data dc)).
  - done.
Qed.

(** ** The sweep *)

(** X7.  After a sweep that visits every key at most once, the store holds
    exactly the entries it held before that were not expired at the clock
    reading of their visit; entries that the sweep does not visit stay. *)
Theorem cleanup_survivors (visits : list (string * Z)) dc k e :
  NoDup visits.*1 ->
  data (cleanup visits dc) !! k = Some e <->
  data dc !! k = Some e
  /\ forall now, (k, now) ∈ visits -> IsExpired now e = false.
Proof.
  rewrite cleanup_data. generalize (tagIndex dc). generalize (data dc).
  induction visits as [|[k0 now0] visits IH]; intros d idx Hnd.
  - simpl. split; [|by intros [? _]].
    intros Hk. split; [done|]. by intros now ?%elem_of_nil.
  - apply NoDup_cons in Hnd as [Hk0 Hnd]. cbn [fold_left].
    set (st := match d !! k0 with
               | Some item =>
                   if IsExpired now0 item
                   then (delete k0 d, removeFromTagIndex k0 (Tags item) idx)
                   else (d, idx)
               | None => (d, idx)
               end).
    destruct st as [d1 idx1] eqn:Est. rewrite (IH d1 idx1 Hnd).
    assert (d1 = match d !! k0 with
                 | Some item => if IsExpired now0 item then delete k0 d else d
                 | None => d
                 end) as ->.
    { subst st. destruct (d !! k0) as [item|]; [|by injection Est].
      destruct (IsExpired now0 item); by injection Est. }
    destruct (decide (k = k0)) as [->|Hne].
    + assert (forall now, (k0, now) ∉ visits) as Hnot.
      { intros now Hin. apply Hk0. apply list_elem_of_fmap.
        by exists (k0, now). }
      split.
      * intros [Hk _].
        destruct (d !! k0) as [item|] eqn:Hd; [|simpl in Hk; congruence].
        destruct (IsExpired now0 item) eqn:He.
        -- by rewrite lookup_delete_eq in Hk.
        -- rewrite Hd in Hk. injection Hk as <-. split; [done|].
           intros now [[= <-]|Hin]%elem_of_cons; [done|]. by destruct (Hnot now).
      * intros [Hk Hall]. rewrite Hk.
        rewrite (Hall now0) by apply list_elem_of_here.
        split; [done|]. intros now Hin. by destruct (Hnot now).
    + assert (match d !! k0 with
              | Some item => if IsExpired now0 item then delete k0 d else d
              | None => d
              end !! k = d !! k) as ->.
      { destruct (d !! k0) as [item|]; [|done].
        destruct (IsExpired now0 item); [|done]. by rewrite lookup_delete_ne. }
      split; intros [Hk Hall]; (split; [done|]); intros now Hin.
      * apply elem_of_cons in Hin as [[= -> _]|Hin]; [done|]. by apply Hall.
      * apply Hall. by apply list_elem_of_further.
Qed.

(** ** Eviction on its own *)

(** X8.  [evictLRU] removes at most one entry and never the entry under
    the empty key; it changes no other entry, advances the evictions
    counter exactly when it removes an entry, leaves the other counters
    and the gauge alone, and does nothing on an empty store. *)
Theorem evictLRU_at_most_one order dc :
  let dc' := evictLRU order dc in
  (dc' = dc
   \/ exists victim vitem,
        victim <> EmptyString
        /\ data dc !! victim = Some vitem
        /\ data dc' = delete victim (data dc)
        /\ S (size (data dc')) = size (data dc)
        /\ tagIndex dc' = removeFromTagIndex victim (Tags vitem) (tagIndex dc)
        /\ Evictions (stats dc') = S (Evictions (stats dc)))
  /\ data dc' !! EmptyString = data dc !! EmptyString
  /\ (data dc = ∅ -> dc' = dc)
  /\ Deletes (stats dc') = Deletes (stats dc)
  /\ TotalItems (stats dc') = TotalItems (stats dc)
  /\ config dc' = config dc.
Proof.
  cbv zeta.
  destruct (evictLRU_cases order dc) as [E|(v & e & Hne & _ & Hv & E)];
    rewrite E.
  - split; [by left|]. done.
  - cbn [data tagIndex stats config]. split.
    + right. exists v, e. split; [done|]. split; [done|]. split; [done|].
      split; [|done]. rewrite map_size_delete_Some by eauto.
      assert (size (data dc) <> 0); [|lia].
      apply map_size_non_empty_iff. intros E'. by rewrite E' in Hv.
    + split; [by rewrite lookup_delete_ne|].
      split; [|done]. intros E'. by rewrite E' in Hv.
Qed.

(** ** The sweeper *)

Lemma cleanup_data_subset (visits : list (string * Z)) dc k e :
  data (cleanup visits dc) !! k = Some e -> data dc !! k = Some e.
Proof.
  revert k e.
  apply (cleanup_invariant
           (fun d _ => forall k e, d !! k = Some e -> data dc !! k = Some e));
    [|done].
  intros d idx key item Hk Hsub k e Hd. apply Hsub.
  destruct (decide (k = key)) as [->|?].
  - by rewrite lookup_delete_eq in Hd.
  - by rewrite lookup_delete_ne in Hd.
Qed.

Lemma cleanup_keeps_forever (visits : list (string * Z)) dc k e :
  data dc !! k = Some e -> TTL e = 0%Z ->
  data (cleanup visits dc) !! k = Some e.
Proof.
  intros Hk Httl. rewrite cleanup_data. apply cleanup_loop_keeps; [done|].
  intros now. unfold IsExpired. by rewrite Httl.
Qed.

Lemma startCleanup_cons visits (ticks : list (list (string * Z))) dc :
  startCleanup (visits :: ticks) dc = startCleanup ticks (cleanup visits dc).
Proof. done. Qed.

(** X9.  However many ticks the sweeper has served, hits, misses, sets,
    deletes and evictions are as before, the store has lost entries but
    gained or changed none, every entry with a TTL of zero is still there,
    a coherent cache is still coherent, and after the first tick the gauge
    shows the size of the store. *)
Theorem startCleanup_ticks (ticks : list (list (string * Z))) dc :
  let dc' := startCleanup ticks dc in
  Hits (stats dc') = Hits (stats dc)
  /\ Misses (stats dc') = Misses (stats dc)
  /\ Sets (stats dc') = Sets (stats dc)
  /\ Deletes (stats dc') = Deletes (stats dc)
  /\ Evictions (stats dc') = Evictions (stats dc)
  /\ (forall k e, data dc' !! k = Some e -> data dc !! k = Some e)
  /\ (forall k e, data dc !! k = Some e -> TTL e = 0%Z ->
                  data dc' !! k = Some e)
  /\ (coherent dc -> coherent dc')
  /\ (ticks <> [] -> TotalItems (stats dc') = size (data dc')).
Proof.
  revert dc. induction ticks as [|visits ticks IH]; intros dc; [done|].
  cbv zeta. rewrite startCleanup_cons.
  destruct (IH (cleanup visits dc)) as (H1&H2&H3&H4&H5&H6&H7&H8&H9).
  destruct (cleanup_stats visits dc) as (G1&G2&G3&G4&G5).
  cbv zeta in *. rewrite H1, H2, H3, H4, H5. repeat (split; [done|]).
  split; [|split; [|split]].
  - intros k e Hk. by apply (cleanup_data_subset visits), H6.
  - intros k e Hk Httl. apply H7; [|done]. by apply cleanup_keeps_forever.
  - intros Hc. by apply H8, cleanup_coherent.
  - intros _. destruct ticks as [|v2 ticks].
    + apply cleanup_gauge.
    + by apply H9.
Qed.

End EngineLaws2.

(** ** What [InvalidateByTag] removes *)

Section InvalidateExact.
Context {V : Type}.

Implicit Types (dc : DistroCache V) (item : CacheItem V).
Implicit Types (d : gmap string (CacheItem V)).
Implicit Types (idx : gmap string (list string)).

Lemma removeFromTagIndex_shared_cons ranged key tag tags idx
    (cells : list string) :
  removeFromTagIndex_shared ranged key (tag :: tags) (idx, cells) =
  removeFromTagIndex_shared ranged key tags
    (removeFromTag key idx tag,
     if decide (tag = ranged) then
       match index_of key (bucket idx tag) with
       | Some i => cells_delete i (length (bucket idx tag)) cells
       | None => cells
       end
     else cells).
Proof. done. Qed.

Lemma shared_cells_none ranged key tags idx (cells : list string) :
  occ ranged tags = 0 ->
  (removeFromTagIndex_shared ranged key tags (idx, cells)).2 = cells.
Proof.
  revert idx cells. induction tags as [|tag tags IH]; intros idx cells; [done|].
  rewrite occ_cons. intros Hocc. rewrite removeFromTagIndex_shared_cons.
  destruct (decide (tag = ranged)) as [->|Hne]; [lia|].
  apply IH. lia.
Qed.

Lemma shared_cells_once ranged key tags idx (cells : list string) :
  occ ranged tags = 1 ->
  (removeFromTagIndex_shared ranged key tags (idx, cells)).2 =
  match index_of key (bucket idx ranged) with
  | Some i => cells_delete i (length (bucket idx ranged)) cells
  | None => cells
  end.
Proof.
  revert idx cells. induction tags as [|tag tags IH]; intros idx cells; [done|].
  rewrite occ_cons. intros Hocc. rewrite removeFromTagIndex_shared_cons.
  destruct (decide (tag = ranged)) as [->|Hne].
  - apply shared_cells_none. lia.
  - rewrite IH by lia. rewrite bucket_removeFromTag.
    by rewrite decide_False by done.
Qed.

Lemma bucket_removeFromTagIndex_once key tags idx t :
  occ t tags = 1 ->
  bucket (removeFromTagIndex key tags idx) t = remove_first key (bucket idx t).
Proof.
  intros Hocc. unfold bucket at 1. rewrite lookup_removeFromTagIndex.
  rewrite decide_True by (apply occ_pos; lia). rewrite Hocc. simpl.
  by destruct (remove_first key (bucket idx t)).
Qed.

Lemma occ_NoDup x (l : list string) : NoDup l -> x ∈ l -> occ x l = 1.
Proof.
  induction l as [|y l IH]; intros Hnd Hin; [by apply elem_of_nil in Hin|].
  apply NoDup_cons in Hnd as [Hy Hnd]. rewrite occ_cons.
  destruct (decide (y = x)) as [->|Hne].
  - apply occ_zero in Hy. lia.
  - apply elem_of_cons in Hin as [?|Hin]; [congruence|].
    rewrite IH by done. lia.
Qed.

Lemma index_of_app_fresh key (pre rest : list string) :
  key ∉ pre -> index_of key (pre ++ key :: rest) = Some (length pre).
Proof.
  induction pre as [|x pre IH]; intros Hp; simpl.
  - by rewrite decide_True.
  - apply not_elem_of_cons in Hp as [Hne Hp].
    rewrite decide_False by congruence. by rewrite IH.
Qed.

(** The in-place deletion of the cell after [pre], seen through the
    ranged slice: the cells behind it move up and the last cell of the
    bucket keeps its value. *)
Lemma cells_delete_middle (pre rest front cells_after : list string) x z :
  x :: rest = front ++ [z] ->
  cells_delete (length pre) (length pre + S (length rest))
    (pre ++ (x :: rest) ++ cells_after) =
  pre ++ rest ++ z :: cells_after.
Proof.
  intros Hz. unfold cells_delete.
  rewrite take_app_length. f_equal.
  replace (length pre + S (length rest) - S (length pre)) with (length rest)
    by lia.
  replace (length pre + S (length rest) - 1) with (length pre + length rest)
    by lia.
  rewrite <- drop_drop, drop_app_length.
  assert (drop (S (length pre)) (pre ++ (x :: rest) ++ cells_after)
          = rest ++ cells_after) as ->.
  { change (S (length pre)) with (1 + length pre).
    rewrite Nat.add_comm, <- drop_drop, drop_app_length. done. }
  rewrite take_app_length. f_equal.
  assert (length rest = length front) as ->.
  { apply (f_equal length) in Hz. rewrite length_app in Hz. simpl in Hz. lia. }
  rewrite Hz, <- app_assoc. by rewrite drop_app_length.
Qed.

Lemma inval_step_remove tag d idx (cells : list string) del i key item :
  cells !! i = Some key -> d !! key = Some item ->
  inval_step tag (mkInvalLoop d idx cells del) i =
  mkInvalLoop (delete key d) (removeFromTagIndex key (Tags item) idx)
    (removeFromTagIndex_shared tag key (Tags item) (idx, cells)).2 (S del).
Proof.
  intros Hc Hk. unfold inval_step. cbn [il_cells il_data il_index il_deleted].
  rewrite Hc, Hk.
  pose proof (removeFromTagIndex_shared_index tag key (Tags item) idx cells)
    as Hi.
  destruct (removeFromTagIndex_shared tag key (Tags item) (idx, cells))
    as [idx' cells'].
  simpl in Hi. by subst idx'.
Qed.

Lemma fold_left_seq_S {A} (f : A -> nat -> A) a n st :
  fold_left f (seq a (S n)) st = fold_left f (seq (S a) n) (f st a).
Proof. done. Qed.

(** Iterations that read keys already removed change nothing. *)
Lemma inval_loop_stale tag (js : list nat) (st : @inval_loop V) :
  (forall j key, j ∈ js -> il_cells st !! j = Some key ->
                 il_data st !! key = None) ->
  fold_left (inval_step tag) js st = st.
Proof.
  induction js as [|j js IH]; intros H; [done|].
  cbn [fold_left].
  assert (inval_step tag st j = st) as ->.
  { unfold inval_step. destruct (il_cells st !! j) as [key|] eqn:Hc; [|done].
    rewrite (H j key); [done | apply list_elem_of_here | done]. }
  apply IH. intros j' key Hin. apply H. by apply list_elem_of_further.
Qed.

(** One iteration that reads the key [x] behind [pre]. *)
Lemma inval_step_front tag d idx del (pre rest front after : list string) x z :
  index_exact d idx ->
  bucket idx tag = pre ++ x :: rest ->
  NoDup (pre ++ x :: rest) ->
  x :: rest = front ++ [z] ->
  exists item,
    d !! x = Some item
    /\ inval_step tag (mkInvalLoop d idx (pre ++ (x :: rest) ++ after) del)
         (length pre) =
       mkInvalLoop (delete x d) (removeFromTagIndex x (Tags item) idx)
         (pre ++ rest ++ z :: after) (S del)
    /\ index_exact (delete x d) (removeFromTagIndex x (Tags item) idx)
    /\ bucket (removeFromTagIndex x (Tags item) idx) tag = pre ++ rest
    /\ NoDup (pre ++ rest).
Proof.
  intros He Hb Hnd Hz.
  assert (x ∉ pre) as Hfresh.
  { apply NoDup_app in Hnd as (_ & Hd & _). intros Hin.
    apply (Hd x Hin). apply list_elem_of_here. }
  assert (occ tag (tags_of d x) = 1) as Hocc.
  { rewrite <- He, Hb. apply occ_NoDup; [done|].
    apply elem_of_app. right. apply list_elem_of_here. }
  unfold tags_of in Hocc. destruct (d !! x) as [item|] eqn:Hx;
    simpl in Hocc; [|lia].
  exists item. split; [done|]. split; [|split; [|split]].
  - rewrite (inval_step_remove tag d idx _ del (length pre) x item);
      [|by apply list_lookup_middle | done].
    f_equal. rewrite shared_cells_once by done.
    rewrite Hb, index_of_app_fresh by done.
    rewrite length_app. cbn [length].
    by apply cells_delete_middle with front.
  - by apply index_exact_remove.
  - rewrite bucket_removeFromTagIndex_once by done.
    rewrite Hb. by apply remove_first_app_fresh.
  - apply NoDup_app in Hnd as (Hp & Hd & Hr).
    apply NoDup_cons in Hr as [_ Hr]. apply NoDup_app.
    split; [done|]. split; [|done].
    intros y Hy Hin. apply (Hd y Hy). by apply list_elem_of_further.
Qed.


(** The loop of [InvalidateByTag] from the cell behind [pre] on, when the
    bucket is [pre ++ keys], its last key is [z], and the cells behind
    the bucket hold [z]. *)
Lemma inval_loop_exact tag z (keys : list string) :
  forall (pre after : list string) d idx del,
    index_exact d idx ->
    bucket idx tag = pre ++ keys ->
    NoDup (pre ++ keys) ->
    last keys = Some z ->
    Forall (fun c => c = z) after ->
    let st :=
      fold_left (inval_step tag)
        (seq (length pre) (length keys + length after))
        (mkInvalLoop d idx (pre ++ keys ++ after) del) in
    (forall k, il_data st !! k =
               if decide (k ∈ invalidated keys) then None else d !! k)
    /\ il_deleted st = del + length (invalidated keys)
    /\ index_exact (il_data st) (il_index st).
Proof.
  assert (forall (l : list string) (pre after : list string) d idx del x,
            index_exact d idx ->
            bucket idx tag = pre ++ x :: l ->
            NoDup (pre ++ x :: l) ->
            last (x :: l) = Some z ->
            Forall (fun c => c = z) after ->
            (l = [] \/ exists y, l = [y]) ->
            let st :=
              fold_left (inval_step tag)
                (seq (length pre) (length (x :: l) + length after))
                (mkInvalLoop d idx (pre ++ (x :: l) ++ after) del) in
            (forall k, il_data st !! k =
                       if decide (k ∈ x :: l) then None else d !! k)
            /\ il_deleted st = del + length (x :: l)
            /\ index_exact (il_data st) (il_index st)) as Hshort.
  { intros l pre after d idx del x He Hb Hnd Hlast Hafter Hl.
    apply last_Some in Hlast as [front Hfront].
    destruct (inval_step_front tag d idx del pre l front after x z
                He Hb Hnd Hfront) as (item & Hx & Hstep & He1 & Hb1 & Hnd1).
    cbv zeta. cbn [length Nat.add seq fold_left]. rewrite Hstep.
    destruct Hl as [->|[y ->]].
    - (* the bucket ends with [x]: the cells behind hold [x], now removed *)
      assert (z = x) as ->.
      { destruct front as [|? [|? ?]]; simplify_eq/=; done. }
      rewrite inval_loop_stale.
      + cbn [il_data il_deleted il_index]. split; [|split; [simpl; lia|done]].
        intros k. destruct (decide (k = x)) as [->|Hne].
        * rewrite decide_True by apply list_elem_of_here.
          apply lookup_delete_eq.
        * rewrite decide_False by (intros [?|?%elem_of_nil]%elem_of_cons; done).
          by rewrite lookup_delete_ne.
      + cbn [il_cells il_data]. intros j key Hj Hc.
        apply elem_of_seq in Hj. simpl in Hc.
        rewrite lookup_app_r in Hc by lia.
        assert (key = x) as ->.
        { apply list_elem_of_lookup_2 in Hc.
          apply elem_of_cons in Hc as [->|Hc]; [done|].
          by apply (proj1 (Forall_forall _ _) Hafter). }
        apply lookup_delete_eq.
    - (* the bucket ends with [x; y]: the next cell holds the copy of [y] *)
      assert (z = y) as ->.
      { destruct front as [|? [|? [|? ?]]]; simplify_eq/=; done. }
      cbn [length Nat.add seq fold_left].
      assert (exists front', [y] = front' ++ [y]) as [front' Hfront']
        by (by exists []).
      replace (pre ++ [y] ++ y :: after) with (pre ++ [y] ++ (y :: after))
        by done.
      destruct (inval_step_front tag (delete x d)
                  (removeFromTagIndex x (Tags item) idx) (S del) pre [] front'
                  (y :: after) y y He1 Hb1 Hnd1 Hfront')
        as (item' & Hy & Hstep' & He2 & Hb2 & Hnd2).
      (* the cell read is the one behind the bucket *)
      assert (inval_step tag
                (mkInvalLoop (delete x d)
                   (removeFromTagIndex x (Tags item) idx)
                   (pre ++ [y] ++ y :: after) (S del)) (S (length pre)) =
              mkInvalLoop (delete y (delete x d))
                (removeFromTagIndex y (Tags item')
                   (removeFromTagIndex x (Tags item) idx))
                (pre ++ [y] ++ y :: after) (S (S del))) as ->.
      { rewrite (inval_step_remove tag _ _ _ (S del) (S (length pre)) y item').
        - f_equal. rewrite shared_cells_once.
          + rewrite Hb1, index_of_app_fresh.
            * rewrite length_app. cbn [length].
              pose proof (cells_delete_middle pre [] front' (y :: after) y y
                            Hfront') as Hcd.
              cbn [length app] in Hcd. cbn [app]. by rewrite Hcd.
            * apply NoDup_app in Hnd1 as (_ & Hd & _). intros Hin.
              apply (Hd y Hin). apply list_elem_of_here.
          + rewrite <- (tags_of_lookup _ _ _ Hy), <- He1, Hb1.
            apply occ_NoDup; [done|]. apply elem_of_app. right.
            apply list_elem_of_here.
        - replace (S (length pre)) with (length (pre ++ [y]))
            by (rewrite length_app; simpl; lia).
          rewrite app_assoc. by apply list_lookup_middle.
        - done. }
      rewrite inval_loop_stale.
      + cbn [il_data il_deleted il_index]. split; [|split; [simpl; lia|done]].
        intros k. destruct (decide (k = x)) as [->|Hne].
        * rewrite decide_True by apply list_elem_of_here.
          destruct (decide (x = y)) as [->|?]; [apply lookup_delete_eq|].
          rewrite lookup_delete_ne by done. apply lookup_delete_eq.
        * destruct (decide (k = y)) as [->|Hne'].
          -- rewrite decide_True
               by (apply list_elem_of_further, list_elem_of_here).
             apply lookup_delete_eq.
          -- rewrite decide_False.
             ++ by rewrite !lookup_delete_ne.
             ++ intros [?|[?|?%elem_of_nil]%elem_of_cons]%elem_of_cons; done.
      + cbn [il_cells il_data]. intros j key Hj Hc.
        apply elem_of_seq in Hj.
        rewrite lookup_app_r in Hc by lia.
        assert (key = y) as ->.
        { apply list_elem_of_lookup_2 in Hc.
          apply elem_of_cons in Hc as [->|Hc]; [done|].
          apply elem_of_cons in Hc as [->|Hc]; [done|].
          by apply (proj1 (Forall_forall _ _) Hafter). }
        apply lookup_delete_eq. }
  assert (forall l : list string,
            (forall (pre after : list string) d idx del,
               index_exact d idx -> bucket idx tag = pre ++ l ->
               NoDup (pre ++ l) -> last l = Some z ->
               Forall (fun c => c = z) after ->
               let st :=
                 fold_left (inval_step tag)
                   (seq (length pre) (length l + length after))
                   (mkInvalLoop d idx (pre ++ l ++ after) del) in
               (forall k, il_data st !! k =
                          if decide (k ∈ invalidated l) then None else d !! k)
               /\ il_deleted st = del + length (invalidated l)
               /\ index_exact (il_data st) (il_index st))
            /\ (forall x (pre after : list string) d idx del,
                  index_exact d idx -> bucket idx tag = pre ++ x :: l ->
                  NoDup (pre ++ x :: l) -> last (x :: l) = Some z ->
                  Forall (fun c => c = z) after ->
                  let st :=
                    fold_left (inval_step tag)
                      (seq (length pre) (length (x :: l) + length after))
                      (mkInvalLoop d idx (pre ++ (x :: l) ++ after) del) in
                  (forall k, il_data st !! k =
                             if decide (k ∈ invalidated (x :: l)) then None
                             else d !! k)
                  /\ il_deleted st = del + length (invalidated (x :: l))
                  /\ index_exact (il_data st) (il_index st))) as Hboth.
  { induction l as [|y l [IH1 IH2]].
    - split; [intros pre after d idx del _ _ _ Hlast; done|].
      intros x pre after d idx del He Hb Hnd Hlast Hafter.
      apply (Hshort [] pre after d idx del x); auto.
    - split; [apply IH2|].
      intros x pre after d idx del He Hb Hnd Hlast Hafter.
      destruct l as [|w l].
      + apply (Hshort [y] pre after d idx del x); eauto.
      + (* [x] is removed, [y] is skipped, the loop goes on behind [y] *)
        pose proof Hlast as Hlast'. apply last_Some in Hlast' as [front Hfront].
        destruct (inval_step_front tag d idx del pre (y :: w :: l) front after
                    x z He Hb Hnd Hfront)
          as (item & Hx & Hstep & He1 & Hb1 & Hnd1).
        cbv zeta.
        replace (length (x :: y :: w :: l) + length after)
          with (S (S (S (length l + length after)))) by (simpl; lia).
        rewrite fold_left_seq_S, Hstep.
        change (invalidated (x :: y :: w :: l))
          with (x :: invalidated (w :: l)).
        assert (last (w :: l) = Some z) as Hlast2.
        { by rewrite !last_cons_cons in Hlast. }
        specialize (IH1 (pre ++ [y]) (z :: after) (delete x d)
                      (removeFromTagIndex x (Tags item) idx) (S del) He1).
        rewrite <- !app_assoc in IH1. cbn [app] in IH1.
        specialize (IH1 Hb1 Hnd1 Hlast2 (Forall_cons_2 _ _ _ eq_refl Hafter)).
        cbv zeta in IH1.
        rewrite length_app in IH1. cbn [length] in IH1.
        replace (length pre + 1) with (S (length pre)) in IH1 by lia.
        replace (S (length l) + S (length after))
          with (S (S (length l + length after))) in IH1 by lia.
        replace (pre ++ (y :: w :: l) ++ z :: after)
          with (pre ++ y :: w :: l ++ z :: after) by done.
        destruct IH1 as (Hd & Hn & Hex). split; [|split; [|done]].
        * intros k. rewrite Hd.
          destruct (decide (k ∈ x :: invalidated (w :: l))) as [Hin|Hin];
            destruct (decide (k ∈ invalidated (w :: l))) as [Hin'|Hin'];
            try done.
          -- apply elem_of_cons in Hin as [->|?]; [apply lookup_delete_eq|done].
          -- exfalso. apply Hin. by apply list_elem_of_further.
          -- rewrite lookup_delete_ne; [done|].
             intros ->. apply Hin. apply list_elem_of_here.
        * rewrite Hn. cbn [length]. lia. }
  intros pre after d idx del. apply Hboth.
Qed.

End InvalidateExact.

Section InvalidateTheorems.
Context {V : Type}.

Implicit Types (dc : DistroCache V) (item : CacheItem V).
Implicit Types (d : gmap string (CacheItem V)).
Implicit Types (idx : gmap string (list string)).

Lemma length_invalidated (keys : list string) :
  keys <> [] -> length (invalidated keys) = length keys / 2 + 1.
Proof.
  assert (forall l : list string,
            (l <> [] -> length (invalidated l) = length l / 2 + 1)
            /\ forall x, length (invalidated (x :: l)) =
                         length (x :: l) / 2 + 1) as H.
  { induction l as [|y l [IH1 IH2]].
    - split; [done|]. intros x. done.
    - split; [intros _; apply IH2|]. intros x. destruct l as [|w l]; [done|].
      change (invalidated (x :: y :: w :: l)) with (x :: invalidated (w :: l)).
      cbn [length]. rewrite IH1 by done. cbn [length].
      change (S (S (S (length l)))) with (2 + S (length l)).
      replace (2 + S (length l)) with (S (length l) + 1 * 2) by lia.
      rewrite Nat.div_add by done. lia. }
  apply H.
Qed.


(** What [InvalidateByTag] returns and leaves in the store, with the tag
    index at the end of its loop. *)
Lemma InvalidateByTag_loop_exact tag dc keys :
  index_exact (data dc) (tagIndex dc) ->
  tagIndex dc !! tag = Some keys ->
  NoDup keys ->
  (InvalidateByTag tag dc).1 = length (invalidated keys)
  /\ (forall k, data (InvalidateByTag tag dc).2 !! k =
                if decide (k ∈ invalidated keys) then None else data dc !! k)
  /\ exists idx',
       tagIndex (InvalidateByTag tag dc).2 = delete tag idx'
       /\ index_exact (data (InvalidateByTag tag dc).2) idx'.
Proof.
  intros He Ht Hnd. unfold InvalidateByTag. rewrite Ht.
  cbn [fst snd data tagIndex].
  destruct (last keys) as [z|] eqn:Hlast.
  - pose proof (inval_loop_exact tag z keys [] [] (data dc) (tagIndex dc) 0 He)
      as H.
    cbn [app length] in H. rewrite app_nil_r, Nat.add_0_r in H.
    destruct (H (bucket_lookup_Some _ _ _ Ht) Hnd Hlast (Forall_nil_2 _))
      as (Hd & Hn & Hex).
    split; [done|]. split; [done|]. eauto.
  - apply last_None in Hlast. subst keys. cbn.
    split; [done|]. split; [done|]. eauto.
Qed.

(** X10.  On a cache with an exact tag index, for a tag whose bucket
    holds each key once, [InvalidateByTag] removes the entries whose keys
    stand at the even positions of the bucket and the entry of the last
    key, and no other entry; it returns their number, which is half the
    length of the bucket, rounded down, plus one. *)
Theorem InvalidateByTag_removes tag dc keys :
  index_exact (data dc) (tagIndex dc) ->
  tagIndex dc !! tag = Some keys ->
  NoDup keys ->
  (InvalidateByTag tag dc).1 = length (invalidated keys)
  /\ (keys <> [] -> (InvalidateByTag tag dc).1 = length keys / 2 + 1)
  /\ (forall k, data (InvalidateByTag tag dc).2 !! k =
                if decide (k ∈ invalidated keys) then None else data dc !! k)
  /\ (forall i k, keys !! (2 * i) = Some k ->
                  data (InvalidateByTag tag dc).2 !! k = None)
  /\ (forall k, last keys = Some k ->
                data (InvalidateByTag tag dc).2 !! k = None).
Proof.
  intros He Ht Hnd.
  destruct (InvalidateByTag_loop_exact tag dc keys He Ht Hnd) as (Hn & Hd & _).
  split; [done|]. split; [intros Hne; by rewrite Hn, length_invalidated|].
  split; [done|].
  assert (forall l : list string,
            ((forall i k, l !! (2 * i) = Some k -> k ∈ invalidated l)
             /\ (forall k, last l = Some k -> k ∈ invalidated l))
            /\ forall x,
                 (forall i k, (x :: l) !! (2 * i) = Some k ->
                              k ∈ invalidated (x :: l))
                 /\ (forall k, last (x :: l) = Some k ->
                               k ∈ invalidated (x :: l))) as Hin.
  { clear. induction l as [|y l [[IH1 IH1'] IH2]].
    - split; [split; [by intros i k| by intros k]|]. intros x. split.
      + intros [|i] k; [|done]. intros [= <-]. apply list_elem_of_here.
      + intros k [= <-]. apply list_elem_of_here.
    - split; [apply IH2|]. intros x. destruct l as [|w l].
      + split.
        * intros [|[|i]] k; simpl; [|done|done].
          intros [= <-]. apply list_elem_of_here.
        * intros k [= <-]. apply list_elem_of_further, list_elem_of_here.
      + change (invalidated (x :: y :: w :: l))
          with (x :: invalidated (w :: l)).
        split.
        * intros [|i] k.
          -- intros [= <-]. apply list_elem_of_here.
          -- replace (2 * S i) with (S (S (2 * i))) by lia. simpl.
             intros Hk. apply list_elem_of_further. by apply (IH1 i).
        * intros k Hk. rewrite !last_cons_cons in Hk.
          apply list_elem_of_further. by apply IH1'. }
  split.
  - intros i k Hk. rewrite Hd. rewrite decide_True; [done|].
    by apply (proj1 (proj1 (Hin keys)) i).
  - intros k Hk. rewrite Hd. rewrite decide_True; [done|].
    by apply (proj2 (proj1 (Hin keys))).
Qed.



End InvalidateTheorems.

(** * The server around the engine *)

Section ServerProperties.
Context {V : Type}.

Implicit Types (dc : DistroCache V) (item : CacheItem V).
Implicit Types (d : gmap string (CacheItem V)).
Implicit Types (idx : gmap string (list string)).

(** ** Statistics *)

(** X13.  In every cache that the engine can reach, [GetStats] reports as
    [total_items] the number of entries, which is the value of the items
    gauge, and never more tags than the entries list: with an empty store
    it reports no tags.  The reported uptime is the time between the two
    clock readings of the call. *)
Theorem GetStats_reachable now now_since dc :
  reachable dc ->
  let s := GetStats now now_since dc in
  total_items s = size (data dc)
  /\ total_items s = TotalItems (stats dc)
  /\ (total_items s = 0 -> total_tags s = 0)
  /\ (forall t, is_Some (tagIndex dc !! t) ->
        exists k e, data dc !! k = Some e /\ t ∈ Tags e)
  /\ node_id s = NodeID (config dc)
  /\ uptime s = (now_since - now)%Z.
Proof.
  intros Hr. cbv zeta. cbn [GetStats total_items total_tags node_id uptime].
  pose proof (reachable_gauge dc Hr) as Hg.
  destruct (reachable_sound dc Hr) as (Hs & Hn & Ha).
  pose proof (index_sound_live _ _ Hs Ha) as Hl.
  assert (forall t, is_Some (tagIndex dc !! t) ->
            exists k e, data dc !! k = Some e /\ t ∈ Tags e) as Hlive.
  { intros t [[|k ks] Ht]; [by destruct (Hn t)|].
    destruct (Hl t k) as (e & Hk & _ & Htag).
    - rewrite (bucket_lookup_Some _ _ _ Ht). apply list_elem_of_here.
    - by exists k, e. }
  split; [done|]. split; [done|]. split; [|done].
  intros Hz. apply map_size_empty_iff in Hz.
  apply map_size_empty_iff. apply map_empty. intros t.
  destruct (tagIndex dc !! t) as [ks|] eqn:Ht; [|done].
  destruct (Hlive t) as (k & e & Hk & _); [by rewrite Ht|].
  by rewrite Hz in Hk.
Qed.

(** ** The TTL of a request *)

(** X14.  [handleSet] turns a request TTL of zero into the default TTL; a
    TTL of up to 9223372036 seconds, of either sign, into that many
    seconds, never into zero; and a TTL from 9223372037 to 18446744073
    seconds into a negative duration, the product having wrapped around,
    so that the entry stored is expired from the start. *)
Theorem handleSet_ttl_mapping req cfg :
  (req = 0 -> handleSet_ttl req cfg = DefaultTTL cfg)%Z
  /\ (req <> 0 -> -9223372036 <= req <= 9223372036 ->
      handleSet_ttl req cfg = req * Second /\ handleSet_ttl req cfg <> 0)%Z
  /\ ((9223372037 <= req <= 18446744073)%Z ->
      handleSet_ttl req cfg = (req * Second - 2 ^ 64)%Z
      /\ (handleSet_ttl req cfg < 0)%Z
      /\ forall order now_created now_accessed key (value : V) tags dc now,
           (now_created <= now)%Z ->
           exists item,
             data (Set_ order now_created now_accessed key value
                     (handleSet_ttl req cfg) tags dc) !! key = Some item
             /\ IsExpired now item = true).
Proof.
  unfold handleSet_ttl, wrap64, Second. split; [|split].
  - intros ->. done.
  - intros Hne Hr. destruct (Z.eqb_spec req 0) as [?|_]; [done|].
    rewrite Z.mod_small by lia. lia.
  - intros Hr. destruct (Z.eqb_spec req 0) as [?|_]; [lia|].
    assert ((req * 1000000000 + 2 ^ 63) mod 2 ^ 64 - 2 ^ 63
            = req * 1000000000 - 2 ^ 64)%Z as ->.
    { replace (req * 1000000000 + 2 ^ 63)%Z
        with ((req * 1000000000 - 2 ^ 63) + 1 * 2 ^ 64)%Z by lia.
      rewrite Z_mod_plus_full. rewrite Z.mod_small by lia. lia. }
    split; [done|]. split; [lia|].
    intros order now_created now_accessed key value tags dc now Hnow.
    eexists. split; [apply Set_lookup|].
    apply IsExpired_true. cbn [TTL CreatedAt]. lia.
Qed.

(** ** Requests and answers *)

Lemma handleGet_Get now_expiry now_access key dc :
  handleGet now_expiry now_access key dc =
  (match (Get now_expiry now_access key dc).1.1 with
   | None => mkResponse StatusNotFound (BodyError "Key not found")
   | Some item => mkResponse StatusOK (BodyItem item)
   end,
   (Get now_expiry now_access key dc).1.2,
   (Get now_expiry now_access key dc).2).
Proof.
  unfold handleGet.
  destruct (Get now_expiry now_access key dc) as [[[item|] dc'] started]; done.
Qed.

(** X15.  A request that does not decode is answered 400 and leaves the
    cache as it is.  A request that decodes is answered 200; a [handleGet]
    of the key afterwards is answered 200 with the value and the tags of
    the request, if the TTL that [handleSet] computed is zero or has not
    run out, and 404 otherwise. *)
Theorem handleSet_then_handleGet order now_created now_accessed key
    (decoded : option (SetRequest V)) dc now_expiry now_access :
  match decoded with
  | None =>
      handleSet order now_created now_accessed key decoded dc =
      (mkResponse StatusBadRequest (BodyError "Invalid JSON"), dc)
  | Some req =>
      let ttl := handleSet_ttl (req_TTL req) (config dc) in
      let r := handleSet order now_created now_accessed key decoded dc in
      r.1 = mkResponse StatusOK BodySuccess
      /\ ((ttl = 0 \/ now_expiry - now_created <= ttl)%Z ->
          (handleGet now_expiry now_access key r.2).1.1 =
          mkResponse StatusOK
            (BodyItem (mkCacheItem key (req_Value req) ttl now_created
                         now_access 2%Z (req_Tags req) ∅)))
      /\ ((ttl <> 0 /\ now_expiry - now_created > ttl)%Z ->
          (handleGet now_expiry now_access key r.2).1.1 =
          mkResponse StatusNotFound (BodyError "Key not found")
          /\ (handleGet now_expiry now_access key r.2).2 = [GoDelete key])
  end.
Proof.
  destruct decoded as [req|]; [|done].
  cbv zeta. cbn [handleSet fst snd]. split; [done|].
  rewrite handleGet_Get. cbn [fst snd]. unfold Get. rewrite Set_lookup.
  set (item := mkCacheItem key (req_Value req)
                 (handleSet_ttl (req_TTL req) (config dc)) now_created
                 now_accessed 1%Z (req_Tags req) ∅).
  destruct (IsExpired now_expiry item) eqn:He.
  - apply IsExpired_true in He. cbn [TTL CreatedAt item] in He.
    split; [lia|]. done.
  - assert (~ (handleSet_ttl (req_TTL req) (config dc) <> 0
               /\ now_expiry - now_created
                  > handleSet_ttl (req_TTL req) (config dc))%Z) as Hn.
    { intros H. apply (IsExpired_true now_expiry item) in H. congruence. }
    split; [|done]. intros _. done.
Qed.

Lemma handleGet_status now_expiry now_access key dc :
  StatusCode (handleGet now_expiry now_access key dc).1.1 =
  match data dc !! key with
  | None => StatusNotFound
  | Some item => if IsExpired now_expiry item then StatusNotFound else StatusOK
  end.
Proof.
  rewrite handleGet_Get. unfold Get.
  destruct (data dc !! key) as [item|]; [|done].
  by destruct (IsExpired now_expiry item).
Qed.

Lemma handleDelete_absent key dc :
  data dc !! key = None ->
  handleDelete key dc =
  (mkResponse StatusNotFound (BodyError "Key not found"), dc).
Proof. intros Hk. unfold handleDelete, Delete. by rewrite Hk. Qed.

Lemma handleDelete_present key dc item :
  data dc !! key = Some item ->
  (handleDelete key dc).1 = mkResponse StatusOK BodySuccess
  /\ data (handleDelete key dc).2 !! key = None.
Proof.
  intros Hk. unfold handleDelete, Delete. rewrite Hk. cbn.
  split; [done | apply lookup_delete_eq].
Qed.

(** X16.  [handleGet] answers 404 exactly when the key is absent or its
    entry is expired, and 200 with the entry otherwise; [handleDelete]
    answers 404 exactly when the key is absent, and then leaves the cache
    as it is.  After a [handleDelete], whatever its answer, a [handleGet]
    and a second [handleDelete] of the key are answered 404. *)
Theorem handlers_not_found now_expiry now_access key dc :
  (StatusCode (handleGet now_expiry now_access key dc).1.1 = StatusNotFound <->
     data dc !! key = None
     \/ exists item, data dc !! key = Some item
                     /\ IsExpired now_expiry item = true)
  /\ (StatusCode (handleGet now_expiry now_access key dc).1.1 = StatusOK <->
        exists item, data dc !! key = Some item
                     /\ IsExpired now_expiry item = false)
  /\ (StatusCode (handleDelete key dc).1 = StatusNotFound <->
        data dc !! key = None)
  /\ (StatusCode (handleDelete key dc).1 = StatusOK <->
        is_Some (data dc !! key))
  /\ (data dc !! key = None -> (handleDelete key dc).2 = dc)
  /\ StatusCode
       (handleGet now_expiry now_access key (handleDelete key dc).2).1.1 =
     StatusNotFound
  /\ StatusCode (handleDelete key (handleDelete key dc).2).1 = StatusNotFound.
Proof.
  assert (data (handleDelete key dc).2 !! key = None) as Hgone.
  { destruct (data dc !! key) as [item|] eqn:Hk.
    - by apply (handleDelete_present key dc item).
    - by rewrite handleDelete_absent. }
  split; [|split; [|split; [|split; [|split; [|split]]]]].
  - rewrite handleGet_status. unfold StatusNotFound, StatusOK.
    destruct (data dc !! key) as [item|]; [|split; [by left | done]].
    destruct (IsExpired now_expiry item) eqn:He.
    + split; [intros _; right; eauto | done].
    + split; [done | intros [?|(i & [= <-] & ?)]; congruence].
  - rewrite handleGet_status. unfold StatusNotFound, StatusOK.
    destruct (data dc !! key) as [item|];
      [|split; [done | intros (i & ? & _); done]].
    destruct (IsExpired now_expiry item) eqn:He.
    + split; [done | intros (i & [= <-] & ?); congruence].
    + split; [eauto | done].
  - destruct (data dc !! key) as [item|] eqn:Hk.
    + destruct (handleDelete_present key dc item Hk) as [-> _]. done.
    + by rewrite handleDelete_absent.
  - destruct (data dc !! key) as [item|] eqn:Hk.
    + destruct (handleDelete_present key dc item Hk) as [-> _]. split; eauto.
    + rewrite handleDelete_absent by done. split; [done|]. by intros [? ?].
  - intros Hk. by rewrite handleDelete_absent.
  - rewrite handleGet_status. by rewrite Hgone.
  - by rewrite handleDelete_absent.
Qed.

Lemma inval_loop_deleted_le tag (js : list nat) (st : @inval_loop V) :
  il_deleted (fold_left (inval_step tag) js st) <= il_deleted st + length js.
Proof.
  revert st. induction js as [|j js IH]; intros st; [simpl; lia|].
  cbn [fold_left length]. specialize (IH (inval_step tag st j)).
  destruct (inval_step_cases tag st j) as [E|(k & e & c & _ & _ & E)];
    rewrite E in *; cbn [il_deleted] in *; lia.
Qed.

(** X17.  [handleInvalidateTag] always answers 200.  The number it reports
    is the number of entries that left the store and at most the length
    of the tag's bucket; for a tag without bucket it is zero and the cache
    stays as it is.  Afterwards the tag has no bucket, and a second
    invalidation of the tag reports zero. *)
Theorem handleInvalidateTag_answer tag dc :
  let r := handleInvalidateTag tag dc in
  exists deleted,
    r.1 = mkResponse StatusOK (BodyDeleted deleted)
    /\ deleted + size (data r.2) = size (data dc)
    /\ deleted <= length (bucket (tagIndex dc) tag)
    /\ (tagIndex dc !! tag = None -> deleted = 0 /\ r.2 = dc)
    /\ tagIndex r.2 !! tag = None
    /\ handleInvalidateTag tag r.2 = (mkResponse StatusOK (BodyDeleted 0), r.2).
Proof.
  cbv zeta. unfold handleInvalidateTag.
  pose proof (InvalidateByTag_count tag dc) as Hcount.
  pose proof (InvalidateByTag_tag_gone tag dc) as Hgone.
  assert ((InvalidateByTag tag dc).1 <= length (bucket (tagIndex dc) tag))
    as Hle.
  { unfold InvalidateByTag, bucket.
    destruct (tagIndex dc !! tag) as [keys|]; [|done].
    pose proof (inval_loop_deleted_le tag (seq 0 (length keys))
                  (mkInvalLoop (data dc) (tagIndex dc) keys 0)) as H.
    rewrite length_seq in H. simpl in *. lia. }
  pose proof (InvalidateByTag_absent tag dc) as Habs.
  destruct (InvalidateByTag tag dc) as [deleted dc'] eqn:E.
  cbn [fst snd] in *. exists deleted.
  split; [done|]. split; [done|]. split; [done|].
  split; [intros Ht; by injection (Habs Ht) as -> ->|].
  split; [done|].
  by rewrite (InvalidateByTag_absent tag dc' Hgone).
Qed.

End ServerProperties.

(** ** Key ownership *)

Section OwnershipProperties.

Variable sha256_Sum256 : string -> list Byte.byte.

Lemma length_hex_EncodeToString src :
  String.length (hex_EncodeToString src) = 2 * length src.
Proof. induction src as [|v src IH]; simpl; [done|]. rewrite IH. lia. Qed.

(** X18.  The hash of a key has two hexadecimal digits per digest byte (64
    for a SHA-256 digest of 32 bytes), and [shouldOwnKey] holds exactly when
    the first byte of the digest is below 64, that is for the first quarter
    of the hash space. *)
Theorem shouldOwnKey_first_byte key b rest :
  sha256_Sum256 key = b :: rest ->
  String.length (hashKey sha256_Sum256 key) = 2 * S (length rest)
  /\ shouldOwnKey sha256_Sum256 key = (Byte.to_N b <? 64)%N.
Proof.
  intros Hd. unfold shouldOwnKey, hashKey. rewrite Hd. split.
  - by rewrite length_hex_EncodeToString.
  - cbn [hex_EncodeToString].
    generalize (hex_EncodeToString rest); intros s.
    destruct b; reflexivity.
Qed.

End OwnershipProperties.

(** ** The load tester *)

Section LoadTesterProperties.

Import LoadTester.

Lemma stats_loop_snoc i rs r s :
  stats_loop i (rs ++ [r]) s = stats_step (i + length rs) r (stats_loop i rs s).
Proof.
  revert i s; induction rs as [|x rs IH]; intros i s; simpl.
  - by rewrite Nat.add_0_r.
  - rewrite IH. f_equal. lia.
Qed.

Lemma wrap64_add_idemp a d : wrap64 (wrap64 a + d) = wrap64 (a + d).
Proof.
  unfold wrap64. f_equal.
  replace ((a + 2 ^ 63) mod 2 ^ 64 - 2 ^ 63 + d + 2 ^ 63)%Z
    with ((a + 2 ^ 63) mod 2 ^ 64 + d)%Z by lia.
  rewrite Zplus_mod_idemp_l. f_equal. lia.
Qed.

Lemma wrap64_small z : (min_int64 <= z <= max_int64)%Z -> wrap64 z = z.
Proof.
  unfold wrap64, min_int64, max_int64. intros Hz.
  rewrite Z.mod_small; lia.
Qed.

Lemma lookup_increment `{Countable K} (k c : K) (m : gmap K nat) :
  default 0 (increment k m !! c)
  = if decide (c = k) then S (default 0 (m !! c)) else default 0 (m !! c).
Proof.
  unfold increment. destruct (decide (c = k)) as [->|Hne].
  - by rewrite lookup_insert_eq.
  - by rewrite lookup_insert_ne.
Qed.

Lemma length_filter_snoc {A} (P : A -> Prop) `{forall x, Decision (P x)}
    (l : list A) (x : A) :
  length (filter P (l ++ [x]))
  = if decide (P x) then S (length (filter P l)) else length (filter P l).
Proof.
  rewrite filter_app, length_app. cbn [filter list_filter].
  destruct (decide (P x)); simpl; lia.
Qed.

Lemma stats_loop_counts results :
  let s := stats_loop 0 results initial_stats in
  durations s = Duration <$> results
  /\ totalTime s = wrap64 (foldr Z.add 0%Z (Duration <$> results))
  /\ successCount s = length (filter (fun r => Error r = None) results)
  /\ successCount s + errorCount s = length results
  /\ cacheHits s = length (filter (fun r => CacheStatus r = "HIT") results)
  /\ cacheMisses s = length (filter (fun r => CacheStatus r = "MISS") results)
  /\ (forall c, default 0 (statusCodes s !! c)
                = length (filter (fun r => StatusCode r = c) results))
  /\ (forall t, default 0 (requestTypes s !! t)
                = length (filter (fun r => RequestType r = t) results)).
Proof.
  induction results as [|r rs IH] using rev_ind.
  - by vm_compute.
  - cbv zeta in *. rewrite stats_loop_snoc.
    destruct IH as (Hd & Ht & Hs & Hse & Hh & Hm & Hc & Hr).
    set (s := stats_loop 0 rs initial_stats) in *.
    unfold stats_step; cbn [durations totalTime successCount errorCount
      cacheHits cacheMisses statusCodes requestTypes].
    rewrite !length_filter_snoc, length_app, fmap_app. cbn [fmap list_fmap length].
    repeat split.
    + by rewrite Hd.
    + rewrite Ht, wrap64_add_idemp. f_equal.
      generalize (Duration <$> rs). intros l.
      induction l as [|x l IHl]; simpl; lia.
    + destruct (Error r); case_decide; try done; lia.
    + destruct (Error r); lia.
    + repeat case_decide; lia.
    + destruct (decide (CacheStatus r = "HIT")) as [E|E];
        destruct (decide (CacheStatus r = "MISS")) as [E'|E']; try lia.
      rewrite E in E'. discriminate E'.
    + intros c. rewrite lookup_increment, Hc, length_filter_snoc.
      repeat case_decide; try done; congruence.
    + intros t. rewrite lookup_increment, Hr, length_filter_snoc.
      repeat case_decide; try done; congruence.
Qed.

Lemma stats_loop_extremes results :
  results <> [] ->
  let s := stats_loop 0 results initial_stats in
  minDuration s ∈ Duration <$> results
  /\ maxDuration s ∈ Duration <$> results
  /\ Forall (fun r => (minDuration s <= Duration r <= maxDuration s)%Z) results.
Proof.
  induction results as [|r rs IH] using rev_ind; [done|]. intros _.
  cbv zeta in *. rewrite stats_loop_snoc. rewrite fmap_app, Forall_app.
  cbn [fmap list_fmap].
  destruct rs as [|r0 rs0].
  - cbn. rewrite Z.ltb_irrefl.
    replace (Duration r >? Duration r)%Z with false by (symmetry; lia).
    repeat split; try (apply list_elem_of_here); [constructor|].
    constructor; [lia|constructor].
  - destruct IH as (Hmin & Hmax & Hall); [done|].
    set (rs := r0 :: rs0) in *.
    set (s := stats_loop 0 rs initial_stats) in *.
    unfold stats_step; cbn [minDuration maxDuration].
    replace (0 + length rs =? 0) with false by (subst rs; done).
    destruct (Z.ltb_spec (Duration r) (minDuration s)) as [Hlt|Hge];
      destruct (Z.gtb_spec (Duration r) (maxDuration s)) as [Hgt|Hle].
    all: repeat split; rewrite ?elem_of_app, ?list_elem_of_singleton; auto.
    all: try (eapply Forall_impl; [exact Hall|]; cbn beta; intros; lia).
    all: try (constructor; [lia|constructor]).
Qed.

Lemma lookup_in_bounds (ds : list Z) (i : Z) :
  (0 <= i < Z.of_nat (length ds))%Z ->
  exists d, index_durations ds i = Some d /\ ds !! Z.to_nat i = Some d.
Proof.
  intros Hi. unfold index_durations.
  replace (i <? 0)%Z with false by (symmetry; lia).
  destruct (lookup_lt_is_Some_2 ds (Z.to_nat i)) as [d Hd]; [lia|].
  by exists d.
Qed.

Lemma percentile_index_small n p :
  (0 < n <= 92233720368547758)%Z -> (0 <= p < 100)%Z ->
  percentile_index n p = (n * p / 100)%Z /\ (0 <= n * p / 100 < n)%Z.
Proof.
  intros Hn Hp. unfold percentile_index.
  rewrite wrap64_small by (unfold min_int64, max_int64; nia).
  rewrite Z.quot_div_nonneg by nia. split; [done|].
  split; [apply Z.div_pos; nia|].
  apply Z.div_lt_upper_bound; nia.
Qed.

Lemma printResults_Printed results sm rest :
  printResults results = (Printed sm, rest) ->
  results <> [] /\ rest = []
  /\ sum_stats sm = stats_loop 0 results initial_stats
  /\ avgDuration sm
     = Z.quot (totalTime (sum_stats sm)) (Z.of_nat (length results)).
Proof.
  intros Hp. unfold printResults in Hp.
  destruct results as [|r0 rs0]; [done|].
  destruct (index_durations _ (percentile_index _ 50)); [|done].
  destruct (index_durations _ (percentile_index _ 95)); [|done].
  destruct (index_durations _ (percentile_index _ 99)); [|done].
  by injection Hp as <- <-.
Qed.

(** X19.  What [printResults] counts.  When it prints, the list of results
    is cleared afterwards, the successes and the errors add up to the number
    of results, hits and misses count the results marked HIT and MISS, the
    two distributions give for every status code and for every request type
    the number of results that carry it, and the minimum and the maximum are
    durations of the list that bound every duration. *)
Theorem printResults_statistics results sm rest :
  printResults results = (Printed sm, rest) ->
  let s := sum_stats sm in
  rest = []
  /\ durations s = Duration <$> results
  /\ successCount s = length (filter (fun r => Error r = None) results)
  /\ successCount s + errorCount s = length results
  /\ cacheHits s = length (filter (fun r => CacheStatus r = "HIT") results)
  /\ cacheMisses s = length (filter (fun r => CacheStatus r = "MISS") results)
  /\ (forall c, default 0 (statusCodes s !! c)
                = length (filter (fun r => StatusCode r = c) results))
  /\ (forall t, default 0 (requestTypes s !! t)
                = length (filter (fun r => RequestType r = t) results))
  /\ minDuration s ∈ Duration <$> results
  /\ maxDuration s ∈ Duration <$> results
  /\ Forall (fun r => (minDuration s <= Duration r <= maxDuration s)%Z) results.
Proof.
  intros Hp. cbv zeta.
  destruct (printResults_Printed _ _ _ Hp) as (Hne & -> & -> & _).
  pose proof (stats_loop_counts results) as (Hd & _ & Hs & Hse & Hh & Hm & Hc & Hr).
  pose proof (stats_loop_extremes results Hne) as (Hmin & Hmax & Hall).
  repeat split; assumption.
Qed.

(** X20.  The average that [printResults] prints.  When the sum of the
    durations fits a 64-bit integer, the total is that sum and the printed
    average, the quotient of the total by the number of results, lies
    between the printed minimum and maximum. *)
Theorem printResults_average results sm rest :
  printResults results = (Printed sm, rest) ->
  (min_int64 <= foldr Z.add 0 (Duration <$> results) <= max_int64)%Z ->
  totalTime (sum_stats sm) = foldr Z.add 0%Z (Duration <$> results)
  /\ avgDuration sm
     = Z.quot (foldr Z.add 0%Z (Duration <$> results))
              (Z.of_nat (length results))
  /\ (minDuration (sum_stats sm) <= avgDuration sm
      <= maxDuration (sum_stats sm))%Z.
Proof.
  intros Hp Hfit.
  destruct (printResults_Printed _ _ _ Hp) as (Hne & _ & Hs & ->).
  rewrite Hs.
  pose proof (stats_loop_counts results) as (_ & Ht & _).
  pose proof (stats_loop_extremes results Hne) as (_ & _ & Hall).
  cbv zeta in Ht, Hall.
  generalize dependent (stats_loop 0 results initial_stats). intros s _ Ht Hall.
  rewrite wrap64_small in Ht by done. rewrite Ht.
  split; [done|]. split; [done|].
  assert (Hsum : (minDuration s * Z.of_nat (length results)
                  <= foldr Z.add 0 (Duration <$> results)
                  <= maxDuration s * Z.of_nat (length results))%Z).
  { clear -Hall. induction Hall as [|r l Hr _ IH]; [simpl; lia|].
    cbn [fmap list_fmap foldr length]. lia. }
  assert (Hn : (0 < Z.of_nat (length results))%Z)
    by (destruct results; [done|simpl; lia]).
  revert Hsum Hn.
  generalize (foldr Z.add 0%Z (Duration <$> results)) (Z.of_nat (length results))
    (minDuration s) (maxDuration s).
  intros t n lo hi Hsum Hn.
  pose proof (Z.quot_rem' t n) as Hq.
  destruct (Z_le_gt_dec 0 t) as [Hpos|Hneg].
  - pose proof (Z.rem_bound_pos t n Hpos Hn). nia.
  - assert (Hb : (- n < Z.rem t n <= 0)%Z) by (apply Z.rem_bound_pos_neg; lia).
    nia.
Qed.

(** X21.  The percentiles of [printResults].  For a non-empty list of at
    most 92233720368547758 results the three indices are in range, so the
    function prints and clears the list, and the printed percentile [p] is
    the duration of the result at position [len*p/100] in the order the
    results were recorded (the list is not sorted); it lies between the
    printed minimum and maximum.  An empty list prints nothing. *)
Theorem printResults_percentiles results :
  0 < length results ->
  (Z.of_nat (length results) <= 92233720368547758)%Z ->
  printResults [] = (NoResults, [])
  /\ exists sm,
       printResults results = (Printed sm, [])
       /\ (Duration <$> results) !! (length results * 50 / 100) = Some (p50 sm)
       /\ (Duration <$> results) !! (length results * 95 / 100) = Some (p95 sm)
       /\ (Duration <$> results) !! (length results * 99 / 100) = Some (p99 sm)
       /\ Forall (fun p => (minDuration (sum_stats sm) <= p
                            <= maxDuration (sum_stats sm))%Z)
            [p50 sm; p95 sm; p99 sm].
Proof.
  intros Hlen Hbound. split; [done|].
  destruct results as [|r0 rs0]; [simpl in Hlen; lia|].
  set (results := r0 :: rs0) in *.
  pose proof (stats_loop_counts results) as (Hd & _).
  pose proof (stats_loop_extremes results) as (_ & _ & Hall); [done|].
  unfold printResults. fold results.
  set (s := stats_loop 0 results initial_stats) in *.
  assert (Hn : length (durations s) = length results)
    by (by rewrite Hd, length_fmap).
  rewrite Hn.
  assert (Hix : forall p, (0 <= p < 100)%Z ->
            exists d, index_durations (durations s)
                        (percentile_index (Z.of_nat (length results)) p) = Some d
                      /\ (Duration <$> results)
                           !! (length results * Z.to_nat p / 100) = Some d
                      /\ (minDuration s <= d <= maxDuration s)%Z).
  { intros p Hp.
    destruct (percentile_index_small (Z.of_nat (length results)) p) as [-> Hr];
      [lia|done|].
    destruct (lookup_in_bounds (durations s)
                (Z.of_nat (length results) * p / 100)) as (d & -> & Hl);
      [rewrite Hn; lia|].
    exists d. split; [done|].
    assert (Hi : Z.to_nat (Z.of_nat (length results) * p / 100)
                 = length results * Z.to_nat p / 100).
    { apply Nat2Z.inj. rewrite Z2Nat.id by lia.
      rewrite Nat2Z.inj_div, Nat2Z.inj_mul, Z2Nat.id by lia. done. }
    rewrite Hi, Hd in Hl. split; [done|].
    apply list_elem_of_lookup_2 in Hl.
    apply list_elem_of_fmap in Hl as (r & -> & Hr').
    rewrite Forall_forall in Hall. by apply Hall. }
  destruct (Hix 50%Z) as (d50 & -> & H50 & B50); [lia|].
  destruct (Hix 95%Z) as (d95 & -> & H95 & B95); [lia|].
  destruct (Hix 99%Z) as (d99 & -> & H99 & B99); [lia|].
  eexists. split; [reflexivity|]. cbn [p50 p95 p99 sum_stats].
  repeat split; try assumption.
  repeat constructor; lia.
Qed.

(** X22.  The requests of a worker of [MixedWorkloadTest] repeat with period
    ten: five reads of the users 1 to 5, three product reads whose category
    is [categories[requestCount % 3]], one update and one direct write with
    a TTL of 30 seconds and the tag mixed-test.  The update is always for
    user 4, the request count being 8 modulo 10. *)
Theorem mixed_request_cycle (workerID k j : Z) :
  (0 <= k)%Z -> (0 <= j < 10)%Z ->
  let requestCount := (10 * k + j)%Z in
  ((j < 5)%Z -> mixed_request workerID requestCount = Some (GetUser (j + 1)))
  /\ ((5 <= j < 8)%Z ->
      exists category,
        categories !! Z.to_nat (requestCount mod 3) = Some category
        /\ mixed_request workerID requestCount = Some (GetProducts category))
  /\ (j = 8%Z -> mixed_request workerID requestCount = Some (UpdateUser 4))
  /\ (j = 9%Z ->
      mixed_request workerID requestCount
      = Some (SetCacheValue workerID requestCount 30 ["mixed-test"])).
Proof.
  intros Hk Hj. cbv zeta.
  assert (H10 : Z.rem (10 * k + j) 10 = j).
  { rewrite Z.rem_mod_nonneg by lia.
    symmetry. apply (Z.mod_unique_pos _ _ k); lia. }
  assert (H5 : Z.rem (10 * k + j) 5 = (j mod 5)%Z).
  { rewrite Z.rem_mod_nonneg by lia.
    replace (10 * k + j)%Z with (j + (2 * k) * 5)%Z by lia.
    by rewrite Z.mod_add. }
  unfold mixed_request. rewrite H10, H5.
  repeat split.
  - intros Hlt. rewrite decide_True by lia.
    rewrite Z.mod_small by lia. done.
  - intros Hr. rewrite decide_False by lia. rewrite decide_True by lia.
    cbn [length categories]. change (Z.of_nat 3) with 3%Z.
    rewrite Z.rem_mod_nonneg by lia.
    unfold index_strings.
    assert (Hb : (0 <= (10 * k + j) mod 3 < 3)%Z) by (apply Z.mod_pos_bound; lia).
    replace (_ <? 0)%Z with false by (symmetry; lia).
    destruct (lookup_lt_is_Some_2 [ "Electronics"; "Sports"; "all" ]
                (Z.to_nat ((10 * k + j) mod 3))) as [c Hc]; [simpl; lia|].
    exists c. unfold categories. by rewrite Hc.
  - intros ->. rewrite decide_False by lia. rewrite decide_False by lia.
    rewrite decide_True by lia. done.
  - intros ->. rewrite decide_False by lia. rewrite decide_False by lia.
    rewrite decide_False by lia. rewrite decide_True by lia. done.
Qed.

End LoadTesterProperties.

(** ** Instances of the further properties *)

Lemma ex_three_reachable : reachable ex_three.
Proof.
  unfold ex_three, ex_empty.
  apply (reachable_step (OpSet [] 3 3 "k3" "v3" 0 ["t"])).
  apply (reachable_step (OpSet [] 2 2 "k2" "v2" 0 ["t"])).
  apply (reachable_step (OpSet [] 1 1 "k1" "v1" 0 ["t"])).
  apply reachable_new.
Qed.


Lemma ex_ttl_coherent : coherent ex_ttl.
Proof. apply Set_coherent, ex_empty_coherent. Qed.

Lemma ex_three_NoDup : NoDup ["k1"; "k2"; "k3"].
Proof. by apply (bool_decide_unpack _). Qed.

Lemma Set_then_Get_witness :
  (Second = 0 \/ 5 - 0 <= Second)%Z
  /\ (Second <> 0 /\ 2 * Second - 0 > Second)%Z
  /\ (Get 5 6 "k" ex_ttl).1.1
     = Some (mkCacheItem "k" "v" Second 0 6 2 ["t"] ∅)
  /\ (Get (2 * Second) 6 "k" ex_ttl).1.1 = None
  /\ (Get (2 * Second) 6 "k" ex_ttl).2 = [GoDelete "k"].
Proof.
  assert (Second = 0 \/ 5 - 0 <= Second)%Z as Hin by (right; by vm_compute).
  assert (Second <> 0 /\ 2 * Second - 0 > Second)%Z as Hout by by vm_compute.
  split; [done|]. split; [done|].
  pose proof (Set_then_Get [] 0 0 "k" "v" Second ["t"] (ex_empty 10) 5 6)
    as H5.
  pose proof (Set_then_Get [] 0 0 "k" "v" Second ["t"] (ex_empty 10)
                (2 * Second) 6) as H2.
  cbv zeta in H5, H2. fold ex_ttl in H5, H2.
  destruct (Get 5 6 "k" ex_ttl) as [[r5 d5] s5].
  destruct (Get (2 * Second) 6 "k" ex_ttl) as [[r2 d2] s2].
  destruct H5 as [H5 _]. destruct (H5 Hin) as (-> & _).
  destruct H2 as [_ H2]. destruct (H2 Hout) as (-> & _ & _ & ->).
  done.
Defined.

Lemma reachable_index_live_witness :
  reachable ex_three
  /\ index_live (data ex_three) (tagIndex ex_three)
  /\ no_empty_bucket (tagIndex ex_three)
  /\ keys_agree (data ex_three).
Proof.
  split; [apply ex_three_reachable|].
  exact (reachable_index_live ex_three ex_three_reachable).
Defined.

Lemma consistent_without_InvalidateByTag_witness :
  let ops := [OpSet [] 1 1 "k1" "v1" 0%Z ["t"]; OpGet 2 2 "k1";
              OpDelete "k1"; OpCleanup []] in
  Forall (fun op => is_OpInvalidateByTag op = false) ops
  /\ consistent (run_operations ops (NewDistroCache (ex_config 10))).
Proof.
  intros ops.
  assert (Forall (fun op => is_OpInvalidateByTag op = false) ops) as Hops
    by (repeat constructor).
  split; [done|].
  exact (consistent_without_InvalidateByTag ops (ex_config 10) Hops).
Defined.

Lemma capacity_bound_kept_witness :
  let op := OpSet ["a"; "b"] 3 3 "c" "vc" 0%Z ["z"] in
  (0 < MaxSize (config ex_full))%Z
  /\ (Z.of_nat (size (data ex_full)) <= MaxSize (config ex_full))%Z
  /\ data ex_full !! EmptyString = None
  /\ routed op ex_full
  /\ (Z.of_nat (size (data (run_operation op ex_full))) <= 2)%Z.
Proof.
  intros op.
  assert (0 < MaxSize (config ex_full))%Z as H1 by by vm_compute.
  assert (Z.of_nat (size (data ex_full)) <= MaxSize (config ex_full))%Z as H2
    by by vm_compute.
  assert (data ex_full !! EmptyString = None) as H3 by by vm_compute.
  assert (routed op ex_full) as H4.
  { split; [apply ex_full_range_order; by left | done]. }
  split; [exact H1|]. split; [exact H2|]. split; [exact H3|].
  split; [exact H4|].
  destruct (capacity_bound_kept op ex_full H1 H2 H3 H4) as (Hb & _ & Hm).
  rewrite Hm in Hb. exact Hb.
Defined.

Lemma Set_then_Delete_witness :
  let r := Delete "k4" (Set_ [] 4 4 "k4" "v4" 0 ["t"; "u"] ex_three) in
  (Z.of_nat (size (data ex_three)) < MaxSize (config ex_three))%Z
  /\ data ex_three !! "k4" = None
  /\ index_sound (data ex_three) (tagIndex ex_three)
  /\ no_empty_bucket (tagIndex ex_three)
  /\ r.1 = true
  /\ data r.2 = data ex_three
  /\ tagIndex r.2 = tagIndex ex_three.
Proof.
  intros r.
  assert (Z.of_nat (size (data ex_three)) < MaxSize (config ex_three))%Z as H1
    by by vm_compute.
  assert (data ex_three !! "k4" = None) as H2 by by vm_compute.
  assert (index_sound (data ex_three) (tagIndex ex_three)) as H3
    by apply index_exact_sound, ex_three_coherent.
  assert (no_empty_bucket (tagIndex ex_three)) as H4
    by apply ex_three_coherent.
  split; [exact H1|]. split; [exact H2|]. split; [exact H3|].
  split; [exact H4|].
  destruct (Set_then_Delete [] 4 4 "k4" "v4" 0 ["t"; "u"] ex_three H1 H2 H3 H4)
    as (Hr & Hd & Hi & _).
  split; [exact Hr|]. split; [exact Hd | exact Hi].
Defined.

Lemma cleanup_survivors_witness :
  let item := mkCacheItem "k" "v" Second 0 0 1 ["t"] ∅ in
  NoDup [("k", (2 * Second)%Z)].*1
  /\ data ex_ttl !! "k" = Some item
  /\ IsExpired (2 * Second) item = true
  /\ data (cleanup [("k", (2 * Second)%Z)] ex_ttl) !! "k" = None
  /\ data (cleanup [("k", 5%Z)] ex_ttl) !! "k" = Some item.
Proof.
  intros item.
  assert (NoDup [("k", (2 * Second)%Z)].*1) as Hnd
    by by apply (bool_decide_unpack _).
  assert (NoDup [("k", 5%Z)].*1) as Hnd5
    by by apply (bool_decide_unpack _).
  assert (data ex_ttl !! "k" = Some item) as Hk by by vm_compute.
  assert (IsExpired (2 * Second) item = true) as Hexp by by vm_compute.
  split; [exact Hnd|]. split; [exact Hk|]. split; [exact Hexp|]. split.
  - destruct (data (cleanup [("k", (2 * Second)%Z)] ex_ttl) !! "k")
      as [e|] eqn:E; [|done].
    apply (cleanup_survivors _ ex_ttl "k" e Hnd) in E as [E1 E2].
    rewrite Hk in E1. injection E1 as <-.
    rewrite (E2 (2 * Second)%Z) in Hexp; [done | apply list_elem_of_here].
  - apply (cleanup_survivors _ ex_ttl "k" item Hnd5). split; [done|].
    intros now Hin. apply list_elem_of_singleton in Hin.
    injection Hin as ->. by vm_compute.
Defined.

Lemma evictLRU_at_most_one_witness :
  data (ex_empty 2) = ∅
  /\ evictLRU [] (ex_empty 2) = ex_empty 2
  /\ (evictLRU ["a"; "b"] ex_full = ex_full
      \/ S (size (data (evictLRU ["a"; "b"] ex_full))) = size (data ex_full)).
Proof.
  assert (data (ex_empty 2) = (∅ : gmap string (CacheItem string))) as He
    by done.
  split; [done|].
  destruct (evictLRU_at_most_one [] (ex_empty 2)) as (_ & _ & H & _).
  split; [by apply H|].
  destruct (evictLRU_at_most_one ["a"; "b"] ex_full) as ([H1|H1] & _).
  - by left.
  - right. destruct H1 as (victim & vitem & _ & _ & _ & Hsz & _). done.
Defined.

Lemma startCleanup_ticks_witness :
  let ticks := [[("k", (2 * Second)%Z)]; []] in
  let dc' := startCleanup ticks ex_ttl in
  coherent ex_ttl
  /\ ticks <> []
  /\ coherent dc'
  /\ TotalItems (stats dc') = size (data dc')
  /\ Deletes (stats dc') = Deletes (stats ex_ttl).
Proof.
  intros ticks dc'.
  assert (ticks <> []) as Hne by done.
  split; [apply ex_ttl_coherent|]. split; [done|].
  destruct (startCleanup_ticks ticks ex_ttl)
    as (_ & _ & _ & Hd & _ & _ & _ & Hc & Hg).
  split; [apply Hc, ex_ttl_coherent|]. split; [by apply Hg | done].
Defined.

Lemma InvalidateByTag_removes_witness :
  index_exact (data ex_three) (tagIndex ex_three)
  /\ tagIndex ex_three !! "t" = Some ["k1"; "k2"; "k3"]
  /\ NoDup ["k1"; "k2"; "k3"]
  /\ (InvalidateByTag "t" ex_three).1 = 3 / 2 + 1
  /\ data (InvalidateByTag "t" ex_three).2 !! "k3" = None.
Proof.
  assert (index_exact (data ex_three) (tagIndex ex_three)) as H1
    by apply ex_three_coherent.
  assert (tagIndex ex_three !! "t" = Some ["k1"; "k2"; "k3"]) as H2
    by by vm_compute.
  split; [exact H1|]. split; [exact H2|]. split; [exact ex_three_NoDup|].
  destruct (InvalidateByTag_removes "t" ex_three _ H1 H2 ex_three_NoDup)
    as (_ & Hn & _ & _ & Hl).
  split; [by apply Hn | by apply Hl].
Defined.



Lemma GetStats_reachable_witness :
  reachable ex_three
  /\ total_items (GetStats 7 7 ex_three) = size (data ex_three)
  /\ uptime (GetStats 7 7 ex_three) = 0%Z.
Proof.
  split; [apply ex_three_reachable|].
  destruct (GetStats_reachable 7 7 ex_three ex_three_reachable)
    as (H1 & _ & _ & _ & _ & H6).
  done.
Defined.

Lemma handleSet_ttl_mapping_witness :
  (9223372037 <= 10000000000 <= 18446744073)%Z
  /\ (handleSet_ttl 10000000000 (ex_config 10) < 0)%Z
  /\ (60 <> 0 /\ -9223372036 <= 60 <= 9223372036)%Z
  /\ handleSet_ttl 60 (ex_config 10) = (60 * Second)%Z
  /\ handleSet_ttl 0 (ex_config 10) = DefaultTTL (ex_config 10).
Proof.
  assert (9223372037 <= 10000000000 <= 18446744073)%Z as Hbig by lia.
  assert (60 <> 0 /\ -9223372036 <= 60 <= 9223372036)%Z as Hsmall by lia.
  destruct (@handleSet_ttl_mapping string 10000000000 (ex_config 10))
    as (_ & _ & H3).
  destruct (@handleSet_ttl_mapping string 60 (ex_config 10)) as (_ & H2 & _).
  destruct (@handleSet_ttl_mapping string 0 (ex_config 10)) as (H1 & _).
  destruct (H3 Hbig) as (_ & Hneg & _).
  destruct (H2 (proj1 Hsmall) (proj2 Hsmall)) as (Heq & _).
  split; [exact Hbig|]. split; [exact Hneg|]. split; [exact Hsmall|].
  split; [exact Heq | by apply H1].
Defined.

Lemma handleSet_then_handleGet_witness :
  let req := mkSetRequest "v" 1%Z ["t"] in
  let ttl := handleSet_ttl (req_TTL req) (config (ex_empty 10)) in
  let r := handleSet [] 0 0 "k" (Some req) (ex_empty 10) in
  (ttl = 0 \/ 5 - 0 <= ttl)%Z
  /\ r.1 = mkResponse StatusOK BodySuccess
  /\ (handleGet 5 6 "k" r.2).1.1
     = mkResponse StatusOK
         (BodyItem (mkCacheItem "k" "v" ttl 0 6 2%Z ["t"] ∅)).
Proof.
  intros req ttl r.
  assert (ttl = 0 \/ 5 - 0 <= ttl)%Z as Hin by (right; by vm_compute).
  split; [done|].
  destruct (handleSet_then_handleGet [] 0 0 "k" (Some req) (ex_empty 10) 5 6)
    as (H1 & H2 & _).
  split; [done | by apply H2].
Defined.

Lemma handlers_not_found_witness :
  data ex_three !! "k9" = None
  /\ StatusCode (handleGet 5 5 "k9" ex_three).1.1 = StatusNotFound
  /\ StatusCode (handleDelete "k9" ex_three).1 = StatusNotFound
  /\ is_Some (data ex_three !! "k1")
  /\ StatusCode (handleDelete "k1" ex_three).1 = StatusOK.
Proof.
  assert (data ex_three !! "k9" = None) as Hn by by vm_compute.
  assert (is_Some (data ex_three !! "k1")) as Hs
    by (vm_compute; by eexists).
  destruct (handlers_not_found 5 5 "k9" ex_three) as (Hg & _ & Hd & _).
  destruct (handlers_not_found 5 5 "k1" ex_three) as (_ & _ & _ & Hok & _).
  split; [done|]. split; [apply Hg; by left|]. split; [by apply Hd|].
  split; [done | by apply Hok].
Defined.

Lemma handleInvalidateTag_answer_witness :
  tagIndex ex_three !! "zz" = None
  /\ handleInvalidateTag "zz" ex_three
     = (mkResponse StatusOK (BodyDeleted 0), ex_three).
Proof.
  assert (tagIndex ex_three !! "zz" = None) as Hn by by vm_compute.
  split; [done|].
  destruct (handleInvalidateTag_answer "zz" ex_three)
    as (deleted & Hr & _ & _ & Hz & _).
  destruct (Hz Hn) as [-> Hdc].
  destruct (handleInvalidateTag "zz" ex_three) as [resp dc']. simpl in *.
  by subst.
Defined.

Lemma shouldOwnKey_first_byte_witness :
  let sha256_Sum256 := fun _ : string => ex_digest in
  sha256_Sum256 "a" = Byte.xca :: tail ex_digest
  /\ String.length (hashKey sha256_Sum256 "a") = 64
  /\ shouldOwnKey sha256_Sum256 "a" = false.
Proof.
  intros sha256_Sum256.
  assert (sha256_Sum256 "a" = Byte.xca :: tail ex_digest) as Hd by done.
  split; [done|].
  destruct (shouldOwnKey_first_byte sha256_Sum256 "a" _ _ Hd) as [Hl Ho].
  split; [exact Hl | exact Ho].
Defined.

Lemma printResults_statistics_witness :
  exists sm,
    LoadTester.printResults ex_results = (LoadTester.Printed sm, [])
    /\ LoadTester.successCount (LoadTester.sum_stats sm) = 2
    /\ LoadTester.errorCount (LoadTester.sum_stats sm) = 1
    /\ LoadTester.minDuration (LoadTester.sum_stats sm) = 3000000%Z
    /\ LoadTester.maxDuration (LoadTester.sum_stats sm) = 9000000%Z.
Proof.
  destruct (LoadTester.printResults ex_results) as [out rest] eqn:E.
  destruct out as [|sm|]; [by vm_compute in E | | by vm_compute in E].
  destruct (printResults_statistics ex_results sm rest E)
    as (-> & _ & Hs & Hse & _ & _ & _ & _ & Hmin & Hmax & Hall).
  exists sm. split; [done|].
  assert (LoadTester.successCount (LoadTester.sum_stats sm) = 2) as Hs2
    by (rewrite Hs; by vm_compute).
  split; [done|]. split; [simpl in Hse; lia|].
  rewrite Forall_forall in Hall.
  assert (Hlo : (LoadTester.minDuration (LoadTester.sum_stats sm)
                 <= 3000000)%Z).
  { apply (Hall (LoadTester.mkTestResult 200 3000000 "HIT" None "GET_USER")).
    apply list_elem_of_here. }
  assert (Hhi : (9000000
                 <= LoadTester.maxDuration (LoadTester.sum_stats sm))%Z).
  { apply (Hall (LoadTester.mkTestResult 200 9000000 "MISS" None "GET_USER")).
    apply list_elem_of_further, list_elem_of_here. }
  cbn in Hmin, Hmax.
  rewrite !elem_of_cons, elem_of_nil in Hmin, Hmax.
  lia.
Defined.

Lemma printResults_average_witness :
  exists sm rest,
    LoadTester.printResults ex_results = (LoadTester.Printed sm, rest)
    /\ (min_int64
        <= foldr Z.add 0 (LoadTester.Duration <$> ex_results)
        <= max_int64)%Z
    /\ LoadTester.avgDuration sm = 5666666%Z.
Proof.
  destruct (LoadTester.printResults ex_results) as [out rest] eqn:E.
  destruct out as [|sm|]; [by vm_compute in E | | by vm_compute in E].
  assert (min_int64
          <= foldr Z.add 0 (LoadTester.Duration <$> ex_results)
          <= max_int64)%Z as Hfit by by vm_compute.
  exists sm, rest. split; [done|]. split; [done|].
  destruct (printResults_average ex_results sm rest E Hfit) as (_ & -> & _).
  by vm_compute.
Defined.

Lemma printResults_percentiles_witness :
  0 < length ex_results
  /\ (Z.of_nat (length ex_results) <= 92233720368547758)%Z
  /\ exists sm,
       LoadTester.printResults ex_results = (LoadTester.Printed sm, [])
       /\ LoadTester.p50 sm = 9000000%Z
       /\ LoadTester.p99 sm = 5000000%Z.
Proof.
  assert (0 < length ex_results) as H1 by (simpl; lia).
  assert (Z.of_nat (length ex_results) <= 92233720368547758)%Z as H2
    by by vm_compute.
  split; [done|]. split; [done|].
  destruct (printResults_percentiles ex_results H1 H2)
    as (_ & sm & Hp & H50 & _ & H99 & _).
  exists sm. split; [done|].
  change ((LoadTester.Duration <$> ex_results) !! (length ex_results * 50 / 100))
    with (Some 9000000%Z) in H50.
  change ((LoadTester.Duration <$> ex_results) !! (length ex_results * 99 / 100))
    with (Some 5000000%Z) in H99.
  injection H50 as <-. injection H99 as <-. done.
Defined.

Lemma mixed_request_cycle_witness :
  (0 <= 4)%Z /\ (0 <= 8 < 10)%Z
  /\ LoadTester.mixed_request 0 48 = Some (LoadTester.UpdateUser 4)
  /\ LoadTester.mixed_request 7 49
     = Some (LoadTester.SetCacheValue 7 49 30 ["mixed-test"]).
Proof.
  assert (0 <= 4)%Z as Hk by lia.
  assert (0 <= 8 < 10)%Z as H8 by lia.
  assert (0 <= 9 < 10)%Z as H9 by lia.
  split; [done|]. split; [done|].
  destruct (mixed_request_cycle 0 4 8 Hk H8) as (_ & _ & Hu & _).
  destruct (mixed_request_cycle 7 4 9 Hk H9) as (_ & _ & _ & Hs).
  split; [by apply Hu | by apply Hs].
Defined.
